(** * Holiday-tree particle scene: layout engine and mode/gesture controller

    Shallow embedding of [src/script.js] (classes [DeviceDetector],
    [PerformanceMonitor], [TouchController], [GestureRecognizer] and
    [ChristmasTreeApp]).  The two other copies of
    the application kept in the repository share the modelled functions up
    to device constants; where they differ it is said at the definition.

    Conventions of the embedding.
    - A JavaScript number is a real number ([R]); [Math.hypot], [Math.sqrt],
      [Math.sin], [Math.cos], [Math.acos], [Math.max], [Math.min] are the
      functions of the real-number library.  Timestamps ([Date.now()]) are
      integers.
    - Particles are objects shared between the arrays [particles] and
      [photos]: the model keeps an object store ([heap]) and the arrays hold
      references into it.
    - [Math.random()] reads the next element of a stream of draws, each of
      them in the half-open interval from 0 to 1.
    - A [TypeError] (property access on [undefined]) is the result [None].
    - Calls into the rendering engine, the DOM and the vibration API are not
      part of the model.  Of a mesh the model keeps the texture, the
      position and the y rotation.
    - What a method reads from the browser (user agent tests, clock values,
      the key of a keyboard event, the files of an upload) is an argument
      of its model. *)

From Stdlib Require Import Reals Lra Lia ZArith Ascii.
From stdpp Require Import gmap list strings.

Local Open Scope R_scope.

(** ** Data model *)

Record Vector3 : Type := mkVector3 { vx : R; vy : R; vz : R }.

(** [THREE.Vector3.length()]: the Euclidean distance from the origin. *)
Definition vlength (v : Vector3) : R :=
  sqrt (vx v * vx v + vy v * vy v + vz v * vz v).

(** Distance from the vertical (y) axis. *)
Definition hlength (v : Vector3) : R :=
  sqrt (vx v * vx v + vz v * vz v).

Inductive Mode : Type := TREE | SCATTER | FOCUS.

#[global] Instance Mode_eq_dec : EqDecision Mode.
Proof. solve_decision. Defined.

(** The renderable object of a particle, reduced to what the modelled code
    writes when it builds one: its texture handle, position and y rotation. *)
Record Mesh : Type := mkMesh {
  meshMap : option nat;
  meshPosition : Vector3;
  meshRotationY : R
}.

Record Particle : Type := mkParticle {
  mesh : Mesh;
  basePosition : Vector3;
  targetPosition : Vector3;
  velocity : Vector3;
  rotationSpeed : Vector3;
  scale : R;
  isPhoto : bool
}.

Definition withTargetPosition (v : Vector3) (p : Particle) : Particle :=
  {| mesh := mesh p; basePosition := basePosition p; targetPosition := v;
     velocity := velocity p; rotationSpeed := rotationSpeed p;
     scale := scale p; isPhoto := isPhoto p |}.

Definition withScale (c : R) (p : Particle) : Particle :=
  {| mesh := mesh p; basePosition := basePosition p;
     targetPosition := targetPosition p;
     velocity := velocity p; rotationSpeed := rotationSpeed p;
     scale := c; isPhoto := isPhoto p |}.

(** A draw of [Math.random()]. *)
Record Unit01 : Type := mkUnit01 { uval :> R; uval_range : 0 <= uval < 1 }.

Definition Ref : Type := nat.

Record DeviceInfo : Type := mkDeviceInfo { isMobile : bool }.
Record Settings : Type := mkSettings { maxPhotos : nat }.

(** The fields of [ChristmasTreeApp] the modelled methods use, the object
    store and the state of [Math.random]. *)
Record App : Type := mkApp {
  deviceInfo : DeviceInfo;
  settings : Settings;
  heap : gmap Ref Particle;
  particles : list Ref;
  photos : list Ref;
  mode : Mode;                      (* STATE.mode *)
  randomStream : nat -> Unit01;
  randomCursor : nat
}.

Definition set_heap (h : gmap Ref Particle) (s : App) : App :=
  {| deviceInfo := deviceInfo s; settings := settings s; heap := h;
     particles := particles s; photos := photos s; mode := mode s;
     randomStream := randomStream s; randomCursor := randomCursor s |}.

Definition set_particles (l : list Ref) (s : App) : App :=
  {| deviceInfo := deviceInfo s; settings := settings s; heap := heap s;
     particles := l; photos := photos s; mode := mode s;
     randomStream := randomStream s; randomCursor := randomCursor s |}.

Definition set_photos (l : list Ref) (s : App) : App :=
  {| deviceInfo := deviceInfo s; settings := settings s; heap := heap s;
     particles := particles s; photos := l; mode := mode s;
     randomStream := randomStream s; randomCursor := randomCursor s |}.

Definition set_mode (m : Mode) (s : App) : App :=
  {| deviceInfo := deviceInfo s; settings := settings s; heap := heap s;
     particles := particles s; photos := photos s; mode := m;
     randomStream := randomStream s; randomCursor := randomCursor s |}.

Definition set_randomCursor (c : nat) (s : App) : App :=
  {| deviceInfo := deviceInfo s; settings := settings s; heap := heap s;
     particles := particles s; photos := photos s; mode := mode s;
     randomStream := randomStream s; randomCursor := c |}.

(** ** The monad of methods: state, and [None] for a thrown [TypeError] *)

Definition JS (A : Type) : Type := App -> option (A * App).

Definition ret {A : Type} (a : A) : JS A := fun s => Some (a, s).

Definition bind {A B : Type} (m : JS A) (k : A -> JS B) : JS B :=
  fun s => match m s with
           | Some (a, s') => k a s'
           | None => None
           end.

Definition throw {A : Type} : JS A := fun _ => None.

Notation "'let*' x ':=' m 'in' k" := (bind m (fun x => k))
  (at level 10, x name, m at level 100, k at level 200).
Notation "m ';;' k" := (bind m (fun _ => k))
  (at level 100, k at level 200, right associativity).

Definition gets {A : Type} (f : App -> A) : JS A := fun s => Some (f s, s).
Definition modify (f : App -> App) : JS unit := fun s => Some (tt, f s).

(** [Math.random()] *)
Definition random : JS R :=
  fun s => Some (uval (randomStream s (randomCursor s)),
                 set_randomCursor (S (randomCursor s)) s).

(** Reading the object behind a reference.  The arrays of the program only
    hold references to objects it created; a reference outside the store
    gets no result. *)
Definition deref (r : Ref) : JS Particle :=
  fun s => match heap s !! r with
           | Some p => Some (p, s)
           | None => None
           end.

(** [particle.targetPosition.set(x, y, z)] *)
Definition setTargetPosition (r : Ref) (v : Vector3) : JS unit :=
  let* p := deref r in
  modify (fun s => set_heap (<[r := withTargetPosition v p]> (heap s)) s).

(** [particle.scale = c] *)
Definition setScale (r : Ref) (c : R) : JS unit :=
  let* p := deref r in
  modify (fun s => set_heap (<[r := withScale c p]> (heap s)) s).

(** [array.forEach((x, i) => body)], from index [i] on. *)
Fixpoint forEachFrom {A : Type} (body : A -> nat -> JS unit)
    (l : list A) (i : nat) : JS unit :=
  match l with
  | [] => ret tt
  | x :: l' => body x i ;; forEachFrom body l' (S i)
  end.

Definition forEach {A : Type} (body : A -> nat -> JS unit) (l : list A)
  : JS unit := forEachFrom body l 0.

(** [Math.floor] *)
Definition Math_floor (x : R) : Z := Int_part x.

(** [array[k]] for an integral number [k]; [None] is [undefined]. *)
Definition array_get {A : Type} (l : list A) (k : Z) : option A :=
  if (k <? 0)%Z then None else l !! Z.to_nat k.

(** ** Layout engine: [updateParticlePositions] *)

Module Layout.

(** TREE: radius of the spiral cone at index [i] of [n]. *)
Definition treeRadius (maxRadius : R) (i n : nat) : R :=
  maxRadius * (1 - INR i / INR n * 0.8).

Definition treeMaxRadius (mobile : bool) : R := if mobile then 8 else 12.
Definition treeHeight (mobile : bool) : R := if mobile then 18 else 25.

(** One iteration of the TREE loop (the same in the three copies). *)
Definition treeBody (mobile : bool) (particle : Ref) (i : nat) : JS unit :=
  let* p := deref particle in
  if isPhoto p then ret tt else
  let* n := gets (fun s => length (particles s)) in
  let t := INR i / INR n in
  let radius := treeRadius (treeMaxRadius mobile) i n in
  let angle := t * 50 * PI in
  let y := t * treeHeight mobile - treeHeight mobile / 2 in
  setTargetPosition particle
    (mkVector3 (cos angle * radius) y (sin angle * radius)) ;;
  setScale particle (if mobile then 0.8 else 1).

Definition scatterMinRadius (mobile : bool) : R := if mobile then 6 else 8.
Definition scatterMaxRadius (mobile : bool) : R := if mobile then 15 else 20.

(** One iteration of the SCATTER loop.  The other two copies scale the
    height by 1.2 and use a smaller scale band on mobile. *)
Definition scatterBody (mobile : bool) (particle : Ref) (i : nat) : JS unit :=
  let* p := deref particle in
  if isPhoto p then ret tt else
  let minRadius := scatterMinRadius mobile in
  let maxRadius := scatterMaxRadius mobile in
  let* u1 := random in
  let radius := minRadius + u1 * (maxRadius - minRadius) in
  let* u2 := random in
  let theta := u2 * PI * 2 in
  let* u3 := random in
  let phi := acos (2 * u3 - 1) in
  let* u4 := random in
  setTargetPosition particle
    (mkVector3 (radius * sin phi * cos theta)
               ((u4 - 0.5) * maxRadius * 1.5)
               (radius * sin phi * sin theta)) ;;
  let* u5 := random in
  setScale particle (0.8 + u5 * 0.4).

Definition focusStage (mobile : bool) : Vector3 :=
  mkVector3 0 2 (if mobile then 25 else 35).
Definition focusScale (mobile : bool) : R := if mobile then 3.5 else 4.5.
Definition focusMinRadius (mobile : bool) : R := if mobile then 8 else 10.
Definition focusMaxRadius (mobile : bool) : R := if mobile then 20 else 25.
(** Lower end of the ring the photos other than the subject are sent to. *)
Definition focusPhotoRadius (mobile : bool) : R := if mobile then 15 else 20.

(** One iteration of the FOCUS loop.  The other two copies use a height
    span of 8 for the photos and smaller scale bands on mobile. *)
Definition focusBody (mobile : bool) (targetPhoto : Ref)
    (particle : Ref) (i : nat) : JS unit :=
  if decide (particle = targetPhoto) then ret tt else
  let* p := deref particle in
  if isPhoto p then
    let* u1 := random in
    let angle := u1 * PI * 2 in
    let* u2 := random in
    let radius := focusPhotoRadius mobile + u2 * 10 in
    let* u3 := random in
    setTargetPosition particle
      (mkVector3 (cos angle * radius) ((u3 - 0.5) * 10) (sin angle * radius)) ;;
    setScale particle (if mobile then 0.8 else 1)
  else
    let minRadius := focusMinRadius mobile in
    let maxRadius := focusMaxRadius mobile in
    let* u1 := random in
    let radius := minRadius + u1 * (maxRadius - minRadius) in
    let* u2 := random in
    let theta := u2 * PI * 2 in
    let* u3 := random in
    let phi := acos (2 * u3 - 1) in
    let* u4 := random in
    setTargetPosition particle
      (mkVector3 (radius * sin phi * cos theta)
                 ((u4 - 0.5) * maxRadius)
                 (radius * sin phi * sin theta)) ;;
    let* u5 := random in
    setScale particle (0.5 + u5 * 0.5).

Definition updateParticlePositions : JS unit :=
  let* mode := gets mode in
  let* mobile := gets (fun s => isMobile (deviceInfo s)) in
  match mode with
  | TREE =>
      let* ps := gets particles in
      forEach (treeBody mobile) ps
  | SCATTER =>
      let* ps := gets particles in
      forEach (scatterBody mobile) ps
  | FOCUS =>
      let* phs := gets photos in
      if decide (0 < length phs)%nat then
        let* u := random in
        match array_get phs (Math_floor (u * INR (length phs))) with
        | None => throw
        | Some targetPhoto =>
            setTargetPosition targetPhoto (focusStage mobile) ;;
            setScale targetPhoto (focusScale mobile) ;;
            let* ps := gets particles in
            forEach (focusBody mobile targetPhoto) ps
        end
      else ret tt
  end.

(** [setMode(mode)]; the text and button updates are DOM effects. *)
Definition setMode (m : Mode) : JS unit :=
  modify (set_mode m) ;;
  updateParticlePositions.

End Layout.

(** ** Photo collection: [addPhotoToScene] *)

Module Photos.

Definition zeroVector : Vector3 := mkVector3 0 0 0.

(** Creation of a new object: a reference not yet in the store. *)
Definition alloc (p : Particle) : JS Ref :=
  fun s => let r := fresh (dom (heap s)) in
           Some (r, set_heap (<[r := p]> (heap s)) s).

(** [addPhotoToScene(texture)].  [this.photos.shift()] on an empty array
    gives [undefined], and reading [oldPhoto.mesh] then throws. *)
Definition addPhotoToScene (texture : nat) : JS unit :=
  let* phs := gets photos in
  let* limit := gets (fun s => maxPhotos (settings s)) in
  (if decide (limit <= length phs)%nat then
     match phs with
     | [] => throw
     | oldPhoto :: rest =>
         modify (set_photos rest) ;;
         modify (fun s =>
           set_particles (filter (fun p => p <> oldPhoto) (particles s)) s)
     end
   else ret tt) ;;
  let* mobile := gets (fun s => isMobile (deviceInfo s)) in
  let* u1 := random in
  let angle := u1 * PI * 2 in
  let* u2 := random in
  let radius := (if mobile then 10 else 15) + u2 * 10 in
  let* u3 := random in
  let position :=
    mkVector3 (cos angle * radius) ((u3 - 0.5) * 15) (sin angle * radius) in
  let* u4 := random in
  let photoGroup := mkMesh (Some texture) position (u4 * PI * 2) in
  let* photoParticle :=
    alloc {| mesh := photoGroup; basePosition := position;
             targetPosition := zeroVector; velocity := zeroVector;
             rotationSpeed := zeroVector; scale := 1; isPhoto := true |} in
  modify (fun s => set_particles (particles s ++ [photoParticle]) s) ;;
  modify (fun s => set_photos (photos s ++ [photoParticle]) s).

(** Uploading several pictures, one call per picture, in order. *)
Fixpoint addPhotos (textures : list nat) : JS unit :=
  match textures with
  | [] => ret tt
  | t :: ts => addPhotoToScene t ;; addPhotos ts
  end.

(** The texture a photo particle shows. *)
Definition textureOf (h : gmap Ref Particle) (r : Ref) : option nat :=
  match h !! r with
  | Some p => meshMap (mesh p)
  | None => None
  end.

(** Whether a reference denotes a photo particle. *)
Definition isPhotoRef (h : gmap Ref Particle) (r : Ref) : bool :=
  match h !! r with
  | Some p => isPhoto p
  | None => false
  end.

(** Number of photo particles in the particle collection. *)
Definition photoCount (s : App) : nat :=
  length (filter (fun r => isPhotoRef (heap s) r = true) (particles s)).

End Photos.

(** ** Hand gestures: [GestureRecognizer.processGestures] *)

#[global] Instance Rlt_decision (a b : R) : Decision (a < b) := Rlt_dec a b.
#[global] Instance Req_decision : EqDecision R := Req_dec_T.

Module Gesture.

Record Landmark : Type := mkLandmark { lx : R; ly : R; lz : R }.

(** [Math.hypot(a, b, c)] *)
Definition hypot (a b c : R) : R := sqrt (a * a + b * b + c * c).

Record GestureRecognizer : Type := mkGestureRecognizer {
  lastGestureTime : Z;
  debounceTime : Z
}.

Definition set_lastGestureTime (t : Z) (g : GestureRecognizer)
  : GestureRecognizer :=
  {| lastGestureTime := t; debounceTime := debounceTime g |}.

(** State after the constructor. *)
Definition newGestureRecognizer : GestureRecognizer :=
  {| lastGestureTime := 0; debounceTime := 500 |}.

Definition pinchDistance (thumbTip indexTip : Landmark) : R :=
  hypot (lx thumbTip - lx indexTip) (ly thumbTip - ly indexTip)
        (lz thumbTip - lz indexTip).

Definition wristDistance (tip wrist : Landmark) : R :=
  hypot (lx tip - lx wrist) (ly tip - ly wrist) (lz tip - lz wrist).

(** [distances.reduce((a, b) => a + b) / distances.length] *)
Definition avgDistance (indexTip middleTip ringTip pinkyTip wrist : Landmark)
  : R :=
  (wristDistance indexTip wrist + wristDistance middleTip wrist
   + wristDistance ringTip wrist + wristDistance pinkyTip wrist) / 4.

(** [processGestures(landmarks)], with [now] the value of [Date.now()].
    A frame with fewer landmarks than the indices read makes the first
    coordinate access throw.  The other two copies take the thresholds
    0.08, 0.3 and 0.35 on mobile, and one of them a window of 300 or 200 ms;
    the order of the tests and their guards are the same. *)
Definition processGestures (g : GestureRecognizer) (now : Z)
    (landmarks : list Landmark) : JS GestureRecognizer :=
  if decide (now - lastGestureTime g < debounceTime g)%Z then ret g else
  match landmarks !! 4%nat, landmarks !! 8%nat, landmarks !! 0%nat,
        landmarks !! 12%nat, landmarks !! 16%nat, landmarks !! 20%nat with
  | Some thumbTip, Some indexTip, Some wrist,
    Some middleTip, Some ringTip, Some pinkyTip =>
      let pinch := pinchDistance thumbTip indexTip in
      let avg := avgDistance indexTip middleTip ringTip pinkyTip wrist in
      let* m := gets mode in
      if decide (pinch < 0.05 /\ m <> FOCUS) then
        Layout.setMode FOCUS ;; ret (set_lastGestureTime now g)
      else if decide (avg < 0.25 /\ m <> TREE) then
        Layout.setMode TREE ;; ret (set_lastGestureTime now g)
      else if decide (0.4 < avg /\ m <> SCATTER) then
        Layout.setMode SCATTER ;; ret (set_lastGestureTime now g)
      else ret g
  | _, _, _, _, _, _ => throw
  end.

End Gesture.

(** ** Touch input: [TouchController] *)

Module Touch.

Record TouchPoint : Type := mkTouchPoint { clientX : R; clientY : R }.

Record StartPos : Type := mkStartPos {
  startX : R;
  startY : R;
  startTime : option Z
}.

Record Rotation : Type := mkRotation { rotX : R; rotY : R }.

Record TouchController : Type := mkTouchController {
  touchStartPos : StartPos;
  touchRotation : Rotation;
  lastTapTime : Z;
  longPressTimer : option nat;
  pinchStartDistance : R;
  sensitivity : R
}.

(** State after the constructor. *)
Definition newTouchController : TouchController :=
  {| touchStartPos := mkStartPos 0 0 None;
     touchRotation := mkRotation 0 0;
     lastTapTime := 0;
     longPressTimer := None;
     pinchStartDistance := 0;
     sensitivity := 0.005 |}.

Definition set_touchStartPos (v : StartPos) (c : TouchController) :=
  {| touchStartPos := v; touchRotation := touchRotation c;
     lastTapTime := lastTapTime c; longPressTimer := longPressTimer c;
     pinchStartDistance := pinchStartDistance c;
     sensitivity := sensitivity c |}.

Definition set_touchRotation (v : Rotation) (c : TouchController) :=
  {| touchStartPos := touchStartPos c; touchRotation := v;
     lastTapTime := lastTapTime c; longPressTimer := longPressTimer c;
     pinchStartDistance := pinchStartDistance c;
     sensitivity := sensitivity c |}.

Definition set_lastTapTime (v : Z) (c : TouchController) :=
  {| touchStartPos := touchStartPos c; touchRotation := touchRotation c;
     lastTapTime := v; longPressTimer := longPressTimer c;
     pinchStartDistance := pinchStartDistance c;
     sensitivity := sensitivity c |}.

Definition set_longPressTimer (v : option nat) (c : TouchController) :=
  {| touchStartPos := touchStartPos c; touchRotation := touchRotation c;
     lastTapTime := lastTapTime c; longPressTimer := v;
     pinchStartDistance := pinchStartDistance c;
     sensitivity := sensitivity c |}.

Definition set_pinchStartDistance (v : R) (c : TouchController) :=
  {| touchStartPos := touchStartPos c; touchRotation := touchRotation c;
     lastTapTime := lastTapTime c; longPressTimer := longPressTimer c;
     pinchStartDistance := v;
     sensitivity := sensitivity c |}.

(** [getTouchDistance(touch1, touch2)] *)
Definition getTouchDistance (touch1 touch2 : TouchPoint) : R :=
  let dx := clientX touch1 - clientX touch2 in
  let dy := clientY touch1 - clientY touch2 in
  sqrt (dx * dx + dy * dy).

(** [if (this.longPressTimer) { clearTimeout(...); this.longPressTimer = null }] *)
Definition clearLongPress (c : TouchController) : TouchController :=
  match longPressTimer c with
  | Some _ => set_longPressTimer None c
  | None => c
  end.

(** [handleTouchStart(event)]; [now] is [Date.now()] and [timer] the handle
    [setTimeout] returns. *)
Definition handleTouchStart (c : TouchController) (touches : list TouchPoint)
    (now : Z) (timer : nat) : JS TouchController :=
  if decide (length touches = 1%nat) then
    match touches !! 0%nat with
    | None => throw
    | Some touch =>
        ret (set_longPressTimer (Some timer)
               (set_touchStartPos
                  (mkStartPos (clientX touch) (clientY touch) (Some now)) c))
    end
  else if decide (length touches = 2%nat) then
    match touches !! 0%nat, touches !! 1%nat with
    | Some touch1, Some touch2 =>
        ret (clearLongPress
               (set_pinchStartDistance (getTouchDistance touch1 touch2) c))
    | _, _ => throw
    end
  else ret c.

(** [handleTouchMove(event)].  The copy without a [TouchController] class
    has the drag branch only (sensitivity 0.008 or 0.01, same clamp) and
    switches to FOCUS when a second finger touches down. *)
Definition handleTouchMove (c : TouchController) (touches : list TouchPoint)
  : JS TouchController :=
  if decide (length touches = 1%nat /\ startX (touchStartPos c) <> 0) then
    match touches !! 0%nat with
    | None => throw
    | Some touch =>
        let deltaX := clientX touch - startX (touchStartPos c) in
        let deltaY := clientY touch - startY (touchStartPos c) in
        let y1 := rotY (touchRotation c) + deltaX * sensitivity c in
        let x1 := rotX (touchRotation c) + deltaY * sensitivity c in
        let x2 := Rmax (- PI / 3) (Rmin (PI / 3) x1) in
        ret (clearLongPress
               (set_touchStartPos
                  (mkStartPos (clientX touch) (clientY touch)
                              (startTime (touchStartPos c)))
                  (set_touchRotation (mkRotation x2 y1) c)))
    end
  else if decide (length touches = 2%nat /\ 0 < pinchStartDistance c) then
    match touches !! 0%nat, touches !! 1%nat with
    | Some touch1, Some touch2 =>
        let currentDistance := getTouchDistance touch1 touch2 in
        let pinchRatio := currentDistance / pinchStartDistance c in
        let* m := gets mode in
        if decide (pinchRatio < 0.7 /\ m <> FOCUS) then
          Layout.setMode FOCUS ;;
          ret (set_pinchStartDistance 0 c)
        else ret c
    | _, _ => throw
    end
  else ret c.

(** [handleTouchEnd(event)]; the double tap only toggles the UI. *)
Definition handleTouchEnd (c : TouchController) (now : Z)
  : JS TouchController :=
  ret (set_pinchStartDistance 0 (set_lastTapTime now (clearLongPress c))).

(** [handleLongPress()] *)
Definition nextMode (m : Mode) : Mode :=
  match m with
  | TREE => SCATTER
  | SCATTER => FOCUS
  | FOCUS => TREE
  end.

Definition handleLongPress (c : TouchController) : JS TouchController :=
  let* m := gets mode in
  Layout.setMode (nextMode m) ;;
  ret c.

(** The events the controller reacts to. *)
Inductive Event : Type :=
  | TouchStart (touches : list TouchPoint) (now : Z) (timer : nat)
  | TouchMove (touches : list TouchPoint)
  | TouchEnd (now : Z)
  | LongPress.

Definition handle (c : TouchController) (e : Event) : JS TouchController :=
  match e with
  | TouchStart touches now timer => handleTouchStart c touches now timer
  | TouchMove touches => handleTouchMove c touches
  | TouchEnd now => handleTouchEnd c now
  | LongPress => handleLongPress c
  end.

Fixpoint handleAll (c : TouchController) (es : list Event)
  : JS TouchController :=
  match es with
  | [] => ret c
  | e :: es' => let* c' := handle c e in handleAll c' es'
  end.

End Touch.

(** ** The copy of the application without performance tiers *)

Module Part001.

(** [addPhotoToScene(texture)] of that copy: the photo is pushed first, and
    only on a mobile device is the oldest one dropped, once more than five
    are held. *)
Definition addPhotoToScene (texture : nat) : JS unit :=
  let* mobile := gets (fun s => isMobile (deviceInfo s)) in
  let* u1 := random in
  let angle := u1 * PI * 2 in
  let* u2 := random in
  let radius := (if mobile then 10 else 15) + u2 * (if mobile then 5 else 10) in
  let* u3 := random in
  let position :=
    mkVector3 (cos angle * radius)
              ((u3 - 0.5) * (if mobile then 10 else 15))
              (sin angle * radius) in
  let* u4 := random in
  let photoGroup := mkMesh (Some texture) position (u4 * PI * 2) in
  let* photoParticle :=
    Photos.alloc
      {| mesh := photoGroup; basePosition := position;
         targetPosition := Photos.zeroVector; velocity := Photos.zeroVector;
         rotationSpeed := Photos.zeroVector; scale := 1; isPhoto := true |} in
  modify (fun s => set_particles (particles s ++ [photoParticle]) s) ;;
  modify (fun s => set_photos (photos s ++ [photoParticle]) s) ;;
  let* phs := gets photos in
  if decide (mobile = true /\ 5 < length phs)%nat then
    match phs with
    | [] => throw
    | oldPhoto :: rest =>
        modify (set_photos rest) ;;
        modify (fun s =>
          set_particles (filter (fun p => p <> oldPhoto) (particles s)) s)
    end
  else ret tt.

(** Uploading several pictures, one call per picture, in order. *)
Fixpoint addPhotos (textures : list nat) : JS unit :=
  match textures with
  | [] => ret tt
  | t :: ts => addPhotoToScene t ;; addPhotos ts
  end.

End Part001.

(** ** Device detection and performance tiers *)

#[global] Instance Rle_decision (a b : R) : Decision (a <= b) := Rle_dec a b.

Module Device.

Inductive PerformanceLevel : Type := low | medium | high.

#[global] Instance PerformanceLevel_eq_dec : EqDecision PerformanceLevel.
Proof. solve_decision. Defined.

(** [x || 4] for a number the browser may not report: a missing value and 0
    both give 4. *)
Definition orFour (x : option R) : R :=
  match x with
  | Some v => if decide (v = 0) then 4 else v
  | None => 4
  end.

(** The tier computed in [DeviceDetector.detect()]. *)
Definition performanceLevelOf (isMobile : bool) (memory cores : R)
  : PerformanceLevel :=
  if isMobile then
    if decide (memory < 3 \/ cores < 4) then low
    else if decide (6 <= memory /\ 8 <= cores) then high
    else medium
  else
    if decide (memory < 4 \/ cores < 4) then low
    else if decide (8 <= memory /\ 8 <= cores) then high
    else medium.

Record Detected : Type := mkDetected {
  isMobile : bool;
  isTouch : bool;
  performanceLevel : PerformanceLevel;
  isIOS : bool;
  isAndroid : bool;
  isDesktop : bool;
  memory : R;
  cores : R
}.

(** [DeviceDetector.detect()].  The tests on the user agent string and on
    touch support are inputs ([uaMobile], [uaIOS], [uaAndroid], [touch]), as
    are [navigator.deviceMemory] and [navigator.hardwareConcurrency]. *)
Definition detect (uaMobile touch uaIOS uaAndroid : bool)
    (deviceMemory hardwareConcurrency : option R) : Detected :=
  let memory := orFour deviceMemory in
  let cores := orFour hardwareConcurrency in
  {| isMobile := uaMobile;
     isTouch := touch;
     performanceLevel := performanceLevelOf uaMobile memory cores;
     isIOS := uaIOS;
     isAndroid := uaAndroid;
     isDesktop := negb uaMobile && negb touch;
     memory := memory;
     cores := cores |}.

Record PerformanceSettings : Type := mkPerformanceSettings {
  particleCount : nat;
  mainParticleCount : nat;
  enableBloom : bool;
  enableShadows : bool;
  antialias : bool;
  pixelRatio : R;
  renderScale : R;
  maxPhotos : nat;
  geometryDetail : PerformanceLevel;
  settingsIsMobile : bool;
  settingsPerformanceLevel : PerformanceLevel
}.

(** [getPerformanceSettings()], from the detected tier and device;
    [devicePixelRatio] is [window.devicePixelRatio]. *)
Definition getPerformanceSettings (level : PerformanceLevel) (mobile : bool)
    (devicePixelRatio : R) : PerformanceSettings :=
  match level with
  | low =>
      {| particleCount := 800; mainParticleCount := 300;
         enableBloom := false; enableShadows := false; antialias := false;
         pixelRatio := 1.0; renderScale := 0.8; maxPhotos := 5;
         geometryDetail := low;
         settingsIsMobile := mobile; settingsPerformanceLevel := level |}
  | medium =>
      {| particleCount := 2000; mainParticleCount := 600;
         enableBloom := negb mobile; enableShadows := negb mobile;
         antialias := false;
         pixelRatio := if mobile then 1.0 else 1.5;
         renderScale := if mobile then 0.9 else 1.0; maxPhotos := 8;
         geometryDetail := if mobile then medium else high;
         settingsIsMobile := mobile; settingsPerformanceLevel := level |}
  | high =>
      {| particleCount := 4000; mainParticleCount := 1500;
         enableBloom := true; enableShadows := true; antialias := true;
         pixelRatio := Rmin 2.0 devicePixelRatio;
         renderScale := 1.0; maxPhotos := 12;
         geometryDetail := high;
         settingsIsMobile := mobile; settingsPerformanceLevel := level |}
  end.

(** [enableLightweightMode()] replaces these fields and keeps the others. *)
Definition lightweight (p : PerformanceSettings) : PerformanceSettings :=
  {| particleCount := 500; mainParticleCount := 200;
     enableBloom := false; enableShadows := false; antialias := false;
     pixelRatio := 1.0; renderScale := 0.7; maxPhotos := maxPhotos p;
     geometryDetail := geometryDetail p;
     settingsIsMobile := settingsIsMobile p;
     settingsPerformanceLevel := settingsPerformanceLevel p |}.

End Device.

(** ** Frame-rate monitor: [PerformanceMonitor] *)

Module Monitor.

Inductive Status : Type := warning | critical | notice.

Record PerformanceMonitor : Type := mkPerformanceMonitor {
  fps : Z;
  frameCount : Z;
  lastTime : R;
  fpsHistory : list Z;
  lowFPSWarnings : nat
}.

(** State after the constructor, [now] being [performance.now()]. *)
Definition newPerformanceMonitor (now : R) : PerformanceMonitor :=
  {| fps := 60; frameCount := 0; lastTime := now; fpsHistory := [];
     lowFPSWarnings := 0 |}.

(** [Math.round] *)
Definition Math_round (x : R) : Z := Int_part (x + 0.5).

(** [this.fpsHistory.reduce((a, b) => a + b) / this.fpsHistory.length].
    Both callers test the length first, so that [reduce] never sees an
    empty history (where it would throw). *)
Definition average (history : list Z) : R :=
  IZR (match history with
       | [] => 0
       | first :: rest => foldl Z.add first rest
       end) / INR (length history).

(** [checkPerformance()]: the monitor afterwards and the status returned
    ([None] is [null]). *)
Definition checkPerformance (m : PerformanceMonitor)
  : PerformanceMonitor * option Status :=
  if decide (length (fpsHistory m) < 10)%nat then (m, None) else
  let avgFPS := average (fpsHistory m) in
  if decide (avgFPS < 30) then
    let m' := {| fps := fps m; frameCount := frameCount m;
                 lastTime := lastTime m; fpsHistory := fpsHistory m;
                 lowFPSWarnings := S (lowFPSWarnings m) |} in
    if decide (3 <= lowFPSWarnings m')%nat then (m', Some critical)
    else (m', Some warning)
  else if decide (avgFPS < 45) then (m, Some notice)
  else (m, None).

(** [update()], with [currentTime] the value of [performance.now()]. *)
Definition update (m : PerformanceMonitor) (currentTime : R)
  : PerformanceMonitor * option Status :=
  let frames := (frameCount m + 1)%Z in
  if decide (1000 <= currentTime - lastTime m) then
    let newFps :=
      Math_round (IZR frames * 1000 / (currentTime - lastTime m)) in
    let pushed := fpsHistory m ++ [newFps] in
    let history :=
      if decide (60 < length pushed)%nat then tail pushed else pushed in
    checkPerformance
      {| fps := newFps; frameCount := 0; lastTime := currentTime;
         fpsHistory := history; lowFPSWarnings := lowFPSWarnings m |}
  else
    ({| fps := fps m; frameCount := frames; lastTime := lastTime m;
        fpsHistory := fpsHistory m; lowFPSWarnings := lowFPSWarnings m |},
     None).

(** [getAverageFPS()] *)
Definition getAverageFPS (m : PerformanceMonitor) : R :=
  if decide (length (fpsHistory m) = 0)%nat then IZR (fps m)
  else average (fpsHistory m).

(** The frames of a run: one call of [update] per time stamp. *)
Fixpoint updates (m : PerformanceMonitor) (times : list R)
  : PerformanceMonitor :=
  match times with
  | [] => m
  | t :: ts => updates (fst (update m t)) ts
  end.

End Monitor.

(** ** Building the scene: [createParticles], [reinitialize], uploads *)

Module Scene.

(** The particle record [createParticles] builds; [map] is the texture of
    the material, if it has one. *)
Definition decorative (map : option nat) (velocity rotationSpeed : Vector3)
  : Particle :=
  {| mesh := mkMesh map Photos.zeroVector 0;
     basePosition := Photos.zeroVector; targetPosition := Photos.zeroVector;
     velocity := velocity; rotationSpeed := rotationSpeed;
     scale := 1; isPhoto := false |}.

(** The end of the loop body of [createParticles], once geometry and
    material are chosen: six draws, the new object, the push. *)
Definition pushDecorative (map : option nat) : JS unit :=
  let* v1 := random in
  let* v2 := random in
  let* v3 := random in
  let velocity :=
    mkVector3 ((v1 - 0.5) * 0.02) ((v2 - 0.5) * 0.02) ((v3 - 0.5) * 0.02) in
  let* r1 := random in
  let* r2 := random in
  let* r3 := random in
  let rotationSpeed :=
    mkVector3 ((r1 - 0.5) * 0.02) ((r2 - 0.5) * 0.02) ((r3 - 0.5) * 0.02) in
  let* particle := Photos.alloc (decorative map velocity rotationSpeed) in
  modify (fun s => set_particles (particles s ++ [particle]) s).

(** One turn of the loop of [createParticles] at index [i].  The
    application record keeps [maxPhotos] only of [this.settings]; the other
    fields read here come from [cfg].  [candyCaneTexture] is the texture
    [createCandyCaneTexture()] returned.  The radius of a dust sphere costs
    one draw. *)
Definition createParticle (cfg : Device.PerformanceSettings)
    (candyCaneTexture : nat) (i : nat) : JS unit :=
  if decide (Device.settingsPerformanceLevel cfg = Device.low
             /\ (i mod 3 = 0)%nat) then ret tt
  else if decide (i < Device.mainParticleCount cfg)%nat then
    let* mobile := gets (fun s => isMobile (deviceInfo s)) in
    let shapeType := (i mod (if mobile then 4 else 5))%nat in
    if decide (shapeType = 4%nat) then
      if decide (Device.settingsPerformanceLevel cfg <> Device.low)
      then pushDecorative (Some candyCaneTexture)
      else ret tt
    else pushDecorative None
  else
    let* u := random in
    pushDecorative None.

(** [createParticles()] *)
Definition createParticles (cfg : Device.PerformanceSettings)
    (candyCaneTexture : nat) : JS unit :=
  forEach (fun i _ => createParticle cfg candyCaneTexture i)
          (seq 0 (Device.particleCount cfg)) ;;
  Layout.updateParticlePositions.

(** [createDefaultPhoto()]; [texture] is the canvas texture it draws. *)
Definition createDefaultPhoto (texture : nat) : JS unit :=
  Photos.addPhotoToScene texture.

(** One turn of the loop at the start of [reinitialize()].
    [addPhotoToScene] stores a [THREE.Group] as the mesh of a photo
    particle; a group has no [geometry], so [particle.mesh.geometry.dispose()]
    throws there.  The mesh of a decorative particle is a [THREE.Mesh]:
    taking it out of the scene graph and disposing of it changes nothing
    the application record keeps. *)
Definition disposeParticle (particle : Ref) (i : nat) : JS unit :=
  let* p := deref particle in
  if isPhoto p then throw else ret tt.

(** [reinitialize()] *)
Definition reinitialize (cfg : Device.PerformanceSettings)
    (candyCaneTexture defaultTexture : nat) : JS unit :=
  let* ps := gets particles in
  forEach disposeParticle ps ;;
  modify (set_particles []) ;;
  modify (set_photos []) ;;
  createParticles cfg candyCaneTexture ;;
  createDefaultPhoto defaultTexture.

(** [enableLightweightMode()] *)
Definition enableLightweightMode (cfg : Device.PerformanceSettings)
    (candyCaneTexture defaultTexture : nat) : JS unit :=
  reinitialize (Device.lightweight cfg) candyCaneTexture defaultTexture.

(** A file picked by the user: its size in bytes and the texture its
    content loads as. *)
Record File : Type := mkFile { size : N; image : nat }.

(** [handleFileUpload(event)] up to the start of the read: the result is
    the texture the reader will hand to its [onload] callback, [None] when
    no read is started. *)
Definition handleFileUpload (files : list File) : JS (option nat) :=
  match files !! 0%nat with
  | None => ret None
  | Some file =>
      let* mobile := gets (fun s => isMobile (deviceInfo s)) in
      if decide (mobile = true /\ (5 * 1024 * 1024 < size file)%N)
      then ret None
      else ret (Some (image file))
  end.

(** The [onload] callback of the reader. *)
Definition onload (texture : nat) : JS unit :=
  Photos.addPhotoToScene texture.

(** An upload whose read completes before any other event. *)
Definition upload (files : list File) : JS unit :=
  let* pending := handleFileUpload files in
  match pending with
  | Some texture => onload texture
  | None => ret tt
  end.

End Scene.

(** ** Rotation from the hand and from touch *)

Module Rotate.

Record GestureData : Type := mkGestureData { rotationX : R; rotationY : R }.

(** [mapHandToRotation(landmarks)]: the new [STATE.gestureData]; [None]
    when the frame has no landmark 9, where reading [palmCenter.x] throws. *)
Definition mapHandToRotation (landmarks : list Gesture.Landmark)
  : option GestureData :=
  match landmarks !! 9%nat with
  | None => None
  | Some palmCenter =>
      Some {| rotationY := (Gesture.lx palmCenter - 0.5) * 2;
              rotationX := (0.5 - Gesture.ly palmCenter) * 1.5 |}
  end.

(** [THREE.MathUtils.lerp(x, y, t)] *)
Definition lerp (x y t : R) : R := (1 - t) * x + t * y.

(** [this.rotationSpeed], set by the constructor and never written. *)
Definition rotationSpeed : R := 0.1.

(** [TouchController.update()]: the new rotation of the main group from
    its current one. *)
Definition update (c : Touch.TouchController) (rotation : Touch.Rotation)
  : Touch.Rotation :=
  {| Touch.rotY := lerp (Touch.rotY rotation)
                        (Touch.rotY (Touch.touchRotation c)) rotationSpeed;
     Touch.rotX := lerp (Touch.rotX rotation)
                        (Touch.rotX (Touch.touchRotation c)) rotationSpeed |}.

(** [n] frames of [update()] with no touch event in between. *)
Fixpoint updateN (c : Touch.TouchController) (n : nat)
    (rotation : Touch.Rotation) : Touch.Rotation :=
  match n with
  | O => rotation
  | S n' => updateN c n' (update c rotation)
  end.

End Rotate.

(** ** Taps and the visibility of the interface *)

Module TouchUI.

(** [handleDoubleTap()]: [classList.toggle('ui-hidden')] on the interface
    container, whose state is [uiHidden]. *)
Definition handleDoubleTap (uiHidden : bool) : bool := negb uiHidden.

(** [handleTouchEnd(event)] with its effect on the interface. *)
Definition handleTouchEnd (c : Touch.TouchController) (now : Z)
    (uiHidden : bool) : Touch.TouchController * bool :=
  let c1 := Touch.clearLongPress c in
  let timeDiff := (now - Touch.lastTapTime c1)%Z in
  let ui :=
    if decide (timeDiff < 300 /\ timeDiff > 50)%Z
    then handleDoubleTap uiHidden else uiHidden in
  (Touch.set_pinchStartDistance 0 (Touch.set_lastTapTime now c1), ui).

(** A series of [touchend] events at the given times. *)
Fixpoint touchEnds (c : Touch.TouchController) (times : list Z)
    (uiHidden : bool) : Touch.TouchController * bool :=
  match times with
  | [] => (c, uiHidden)
  | t :: ts =>
      let '(c', ui) := handleTouchEnd c t uiHidden in touchEnds c' ts ui
  end.

End TouchUI.

(** ** The camera loop *)

Module Camera.


End Camera.

(** ** Keyboard: [handleKeyDown] and [resetView] *)

Module Keys.

(** [String.prototype.toLowerCase] on the letters A to Z.  The three keys
    the handler tests are spelled with these letters only, and no other
    character has one of them as its lower case. *)
Definition lowerAscii (a : ascii) : ascii :=
  let n := nat_of_ascii a in
  if decide (65 <= n <= 90)%nat then ascii_of_nat (n + 32) else a.

Fixpoint toLowerCase (k : string) : string :=
  match k with
  | EmptyString => EmptyString
  | String a rest => String (lowerAscii a) (toLowerCase rest)
  end.

(** What the handlers use besides the application record: whether the
    interface container carries the class [ui-hidden], the touch
    controller, and [STATE.gestureData]. *)
Record Controls : Type := mkControls {
  uiHidden : bool;
  touch : Touch.TouchController;
  gestureData : Rotate.GestureData
}.

Definition set_uiHidden (v : bool) (c : Controls) : Controls :=
  {| uiHidden := v; touch := touch c; gestureData := gestureData c |}.

Definition set_touch (v : Touch.TouchController) (c : Controls) : Controls :=
  {| uiHidden := uiHidden c; touch := v; gestureData := gestureData c |}.

Definition set_gestureData (v : Rotate.GestureData) (c : Controls)
  : Controls :=
  {| uiHidden := uiHidden c; touch := touch c; gestureData := v |}.

(** State after the constructors. *)
Definition newControls : Controls :=
  {| uiHidden := false; touch := Touch.newTouchController;
     gestureData := Rotate.mkGestureData 0 0 |}.

(** [resetView()]; the camera and the orbit controls are rendering-engine
    objects. *)
Definition resetView (c : Controls) : Controls :=
  set_gestureData (Rotate.mkGestureData 0 0)
    (set_touch (Touch.set_touchRotation (Touch.mkRotation 0 0) (touch c)) c).

(** [handleKeyDown(event)], with [key] the value of [event.key].  The
    space key computes the next mode as [handleLongPress] does. *)
Definition handleKeyDown (c : Controls) (key : string) : JS Controls :=
  let k := toLowerCase key in
  if decide (k = "h") then ret (set_uiHidden (negb (uiHidden c)) c)
  else if decide (k = " ") then
    let* m := gets mode in
    Layout.setMode (Touch.nextMode m) ;;
    ret c
  else if decide (k = "escape") then ret (resetView c)
  else ret c.

End Keys.

(** ** Animation: the particle loop of [animate] *)

Module Animate.

Definition withMesh (m : Mesh) (p : Particle) : Particle :=
  {| mesh := m; basePosition := basePosition p;
     targetPosition := targetPosition p; velocity := velocity p;
     rotationSpeed := rotationSpeed p; scale := scale p;
     isPhoto := isPhoto p |}.

(** A write to [particle.mesh]. *)
Definition setMesh (r : Ref) (f : Mesh -> Mesh) : JS unit :=
  let* p := deref r in
  modify (fun s => set_heap (<[r := withMesh (f (mesh p)) p]> (heap s)) s).

(** [THREE.Vector3.lerp(v, alpha)] *)
Definition vlerp (u v : Vector3) (alpha : R) : Vector3 :=
  mkVector3 (vx u + (vx v - vx u) * alpha)
            (vy u + (vy v - vy u) * alpha)
            (vz u + (vz v - vz u) * alpha).

Definition animationSpeed (mobile : bool) : R := if mobile then 0.03 else 0.05.

(** One turn of the particle loop of [animate()]: [time] is the elapsed
    time of the clock and [id] gives [mesh.id] of the object behind a
    reference.  Of the mesh the model keeps the position and the y
    rotation; its scale and its other rotations, which the loop also
    writes, are not kept. *)
Definition animateParticle (level : Device.PerformanceLevel) (mobile : bool)
    (time : R) (id : Ref -> R) (particle : Ref) (index : nat) : JS unit :=
  if decide (level = Device.low /\ (index mod 3 = 0)%nat) then ret tt else
  let* p := deref particle in
  setMesh particle (fun m =>
    mkMesh (meshMap m)
           (vlerp (meshPosition m) (targetPosition p) (animationSpeed mobile))
           (meshRotationY m)) ;;
  let* m := gets mode in
  (if decide (m = SCATTER /\ isPhoto p = false) then
     setMesh particle (fun m =>
       mkMesh (meshMap m) (meshPosition m)
              (meshRotationY m + vy (rotationSpeed p)))
   else ret tt) ;;
  (if isPhoto p then ret tt else
     setMesh particle (fun m =>
       mkMesh (meshMap m)
              (mkVector3 (vx (meshPosition m))
                         (vy (meshPosition m) + sin (time + id particle) * 0.005)
                         (vz (meshPosition m)))
              (meshRotationY m))).

(** The particle loop of one frame. *)
Definition animateParticles (level : Device.PerformanceLevel)
    (time : R) (id : Ref -> R) : JS unit :=
  let* mobile := gets (fun s => isMobile (deviceInfo s)) in
  let* ps := gets particles in
  forEach (animateParticle level mobile time id) ps.

(** Frames in a row, at the given clock times. *)
Fixpoint animateFrames (level : Device.PerformanceLevel)
    (times : list R) (id : Ref -> R) : JS unit :=
  match times with
  | [] => ret tt
  | time :: rest =>
      animateParticles level time id ;; animateFrames level rest id
  end.

End Animate.

(** ** The handlers an event reaches *)

Module Session.

Record Controllers : Type := mkControllers {
  controls : Keys.Controls;
  recognizer : Gesture.GestureRecognizer
}.

Definition set_controls (v : Keys.Controls) (c : Controllers)
  : Controllers :=
  {| controls := v; recognizer := recognizer c |}.

(** State after the constructors. *)
Definition newControllers : Controllers :=
  {| controls := Keys.newControls;
     recognizer := Gesture.newGestureRecognizer |}.

(** The events [setupEventListeners], [TouchController.enable] and
    [predictWebcam] route to the modelled handlers. *)
Inductive Action : Type :=
  | ModeButton (m : Mode)
      (* click on a button of the mode controls *)
  | FileChosen (files : list Scene.File)
      (* change of the file input, the read completing at once *)
  | KeyDown (key : string)
  | Touched (e : Touch.Event)
  | HandSeen (now : Z) (landmarks : list Gesture.Landmark).
      (* a camera frame with a hand: the two calls of the try block *)

Definition perform (c : Controllers) (a : Action) : JS Controllers :=
  match a with
  | ModeButton m => Layout.setMode m ;; ret c
  | FileChosen files => Scene.upload files ;; ret c
  | KeyDown key =>
      let* k := Keys.handleKeyDown (controls c) key in
      ret (set_controls k c)
  | Touched (Touch.TouchEnd now) =>
      let '(t, ui) :=
        TouchUI.handleTouchEnd (Keys.touch (controls c)) now
          (Keys.uiHidden (controls c)) in
      ret (set_controls
             (Keys.set_uiHidden ui (Keys.set_touch t (controls c))) c)
  | Touched e =>
      let* t := Touch.handle (Keys.touch (controls c)) e in
      ret (set_controls (Keys.set_touch t (controls c)) c)
  | HandSeen now landmarks =>
      let* g := Gesture.processGestures (recognizer c) now landmarks in
      match Rotate.mapHandToRotation landmarks with
      | None => throw
      | Some d =>
          ret {| controls := Keys.set_gestureData d (controls c);
                 recognizer := g |}
      end
  end.

Fixpoint performAll (c : Controllers) (actions : list Action)
  : JS Controllers :=
  match actions with
  | [] => ret c
  | a :: rest => let* c' := perform c a in performAll c' rest
  end.

End Session.

(** ** Specification vocabulary *)

(** [wp m Q s]: run from [s], method [m] returns normally and its result and
    final state satisfy [Q]. *)
Definition wp {A : Type} (m : JS A) (Q : A -> App -> Prop) (s : App) : Prop :=
  match m s with
  | Some (a, s') => Q a s'
  | None => False
  end.

(** Two states that differ at most in the object store and in how many
    draws were consumed. *)
Definition shapeEq (s s' : App) : Prop :=
  deviceInfo s' = deviceInfo s /\ settings s' = settings s /\
  particles s' = particles s /\ photos s' = photos s /\
  mode s' = mode s /\ randomStream s' = randomStream s.

(** One loop iteration rewrites the single object [x], from [p] to a [p']
    related to it by [rel]. *)
Definition cellStep (rel : Particle -> Particle -> Prop) (x : Ref)
    (s s' : App) : Prop :=
  shapeEq s s' /\
  exists p p', heap s !! x = Some p /\ rel p p' /\
               heap s' = <[x := p']> (heap s).

Module LayoutSpec.
Import Layout.

(** Target of the decorative particle at index [i] of [n] in TREE mode. *)
Definition treeTarget (mobile : bool) (i n : nat) : Vector3 :=
  let t := INR i / INR n in
  mkVector3 (cos (t * 50 * PI) * treeRadius (treeMaxRadius mobile) i n)
            (t * treeHeight mobile - treeHeight mobile / 2)
            (sin (t * 50 * PI) * treeRadius (treeMaxRadius mobile) i n).

(** What a TREE iteration makes of the particle it visits. *)
Definition treeRel (mobile : bool) (n i : nat) (p p' : Particle) : Prop :=
  if isPhoto p then p' = p
  else p' = withScale (if mobile then 0.8 else 1)
              (withTargetPosition (treeTarget mobile i n) p).

(** Position of a decorative particle in a shell between [lo] and [hi],
    from the four draws in the order the code makes them; [f] scales the
    height. *)
Definition shellTarget (lo hi f : R) (u1 u2 u3 u4 : R) : Vector3 :=
  let radius := lo + u1 * (hi - lo) in
  let theta := u2 * PI * 2 in
  let phi := acos (2 * u3 - 1) in
  mkVector3 (radius * sin phi * cos theta)
            ((u4 - 0.5) * hi * f)
            (radius * sin phi * sin theta).

(** What a SCATTER iteration makes of the particle it visits, for some
    draws. *)
Definition scatterRel (mobile : bool) (p p' : Particle) : Prop :=
  if isPhoto p then p' = p
  else exists u1 u2 u3 u4 u5 : Unit01,
      p' = withScale (0.8 + u5 * 0.4)
             (withTargetPosition
                (shellTarget (scatterMinRadius mobile)
                   (scatterMaxRadius mobile) 1.5 u1 u2 u3 u4) p).

(** Position on the outer ring of a photo that is not the subject, from
    three draws. *)
Definition ringTarget (mobile : bool) (u1 u2 u3 : R) : Vector3 :=
  let angle := u1 * PI * 2 in
  let radius := focusPhotoRadius mobile + u2 * 10 in
  mkVector3 (cos angle * radius) ((u3 - 0.5) * 10) (sin angle * radius).

(** What a FOCUS iteration makes of the particle [x] it visits, for some
    draws, when the subject is [targetPhoto]. *)
Definition focusRel (mobile : bool) (targetPhoto x : Ref)
    (p p' : Particle) : Prop :=
  if decide (x = targetPhoto) then p' = p
  else if isPhoto p then
    exists u1 u2 u3 : Unit01,
      p' = withScale (if mobile then 0.8 else 1)
             (withTargetPosition (ringTarget mobile u1 u2 u3) p)
  else
    exists u1 u2 u3 u4 u5 : Unit01,
      p' = withScale (0.5 + u5 * 0.5)
             (withTargetPosition
                (shellTarget (focusMinRadius mobile)
                   (focusMaxRadius mobile) 1 u1 u2 u3 u4) p).

(** The references in [particles] are distinct and denote objects, and
    [photos] lists the photo particles of [particles], in the same order. *)
Record wf (s : App) : Prop := mkWf {
  wf_nodup : NoDup (particles s);
  wf_valid : forall x, x ∈ particles s -> is_Some (heap s !! x);
  wf_photos :
    photos s =
    filter (fun r => Photos.isPhotoRef (heap s) r = true) (particles s)
}.

(** State after a TREE pass started in [s]. *)
Definition treePost (s s' : App) : Prop :=
  shapeEq s s' /\
  (forall r, r ∉ particles s -> heap s' !! r = heap s !! r) /\
  (forall k x, particles s !! k = Some x ->
     exists p p', heap s !! x = Some p /\ heap s' !! x = Some p' /\
       treeRel (isMobile (deviceInfo s)) (length (particles s)) k p p').

(** State after a SCATTER pass started in [s]. *)
Definition scatterPost (s s' : App) : Prop :=
  shapeEq s s' /\
  (forall r, r ∉ particles s -> heap s' !! r = heap s !! r) /\
  (forall k x, particles s !! k = Some x ->
     exists p p', heap s !! x = Some p /\ heap s' !! x = Some p' /\
       scatterRel (isMobile (deviceInfo s)) p p').

(** The subject of a FOCUS pass after the two assignments before the loop. *)
Definition staged (mobile : bool) (p : Particle) : Particle :=
  withScale (focusScale mobile) (withTargetPosition (focusStage mobile) p).

(** State after a FOCUS pass started in [s] with at least one photo. *)
Definition focusPost (s s' : App) : Prop :=
  shapeEq s s' /\
  exists t pt,
    t ∈ photos s /\ heap s !! t = Some pt /\
    heap s' !! t = Some (staged (isMobile (deviceInfo s)) pt) /\
    (forall r, r ∉ particles s -> r <> t -> heap s' !! r = heap s !! r) /\
    (forall x, x ∈ particles s -> x <> t ->
       exists p p', heap s !! x = Some p /\ heap s' !! x = Some p' /\
         focusRel (isMobile (deviceInfo s)) t x p p').

(** Sample values: a draw, a decorative particle and a photo particle. *)
Definition half : Unit01 := mkUnit01 (1 / 2) ltac:(lra).

Definition origin : Vector3 := mkVector3 0 0 0.

Definition dust : Particle :=
  {| mesh := mkMesh None origin 0; basePosition := origin;
     targetPosition := origin; velocity := origin; rotationSpeed := origin;
     scale := 1; isPhoto := false |}.

Definition picture (texture : nat) : Particle :=
  {| mesh := mkMesh (Some texture) origin 0; basePosition := origin;
     targetPosition := origin; velocity := origin; rotationSpeed := origin;
     scale := 1; isPhoto := true |}.

(** A desktop scene with one decorative particle and one photo. *)
Definition sampleApp (m : Mode) : App :=
  {| deviceInfo := mkDeviceInfo false; settings := mkSettings 5;
     heap := <[1%nat := picture 7]> (<[0%nat := dust]> ∅);
     particles := [0%nat; 1%nat]; photos := [1%nat]; mode := m;
     randomStream := fun _ => half; randomCursor := 0 |}.

(** A desktop scene with one decorative particle and no photo. *)
Definition dustApp (m : Mode) (draws : nat -> Unit01) : App :=
  {| deviceInfo := mkDeviceInfo false; settings := mkSettings 5;
     heap := <[0%nat := dust]> ∅;
     particles := [0%nat]; photos := []; mode := m;
     randomStream := draws; randomCursor := 0 |}.

(** The fields a layout pass never writes. *)
Definition sameFrame (p p' : Particle) : Prop :=
  mesh p' = mesh p /\ basePosition p' = basePosition p /\
  velocity p' = velocity p /\ rotationSpeed p' = rotationSpeed p /\
  isPhoto p' = isPhoto p.

(** What a pass may change in the object store: nothing is created or
    dropped, and an object keeps the fields of [sameFrame]; with
    [keepPhotos], photo particles are not written at all. *)
Definition framed (keepPhotos : bool) (s s' : App) : Prop :=
  forall r,
    match heap s !! r with
    | None => heap s' !! r = None
    | Some p =>
        exists p', heap s' !! r = Some p' /\ sameFrame p p' /\
          (keepPhotos = true -> isPhoto p = true ->
           targetPosition p' = targetPosition p /\ scale p' = scale p)
    end.

(** Draws 3/4, 1/2, 1/2, 1/8 and then 1/2 for ever. *)
Definition farDraws (k : nat) : Unit01 :=
  match k with
  | 0%nat => mkUnit01 (3 / 4) ltac:(lra)
  | 3%nat => mkUnit01 (1 / 8) ltac:(lra)
  | _ => half
  end.

(** A photo particle of the collection. *)
Definition photoParticle (s : App) (x : Ref) (p : Particle) : Prop :=
  x ∈ particles s /\ heap s !! x = Some p /\ isPhoto p = true.

(** The subject of the FOCUS formation: on stage, enlarged. *)
Definition onStage (mobile : bool) (p : Particle) : Prop :=
  targetPosition p = focusStage mobile /\ scale p = focusScale mobile.

End LayoutSpec.

Module PhotosSpec.
Import Layout LayoutSpec Photos.

(** The textures on show, oldest first. *)
Definition photoTextures (s : App) : list (option nat) :=
  map (textureOf (heap s)) (photos s).

(** A queue of bounded length: pushing onto a full queue drops its head. *)
Definition fifoPush {A : Type} (limit : nat) (q : list A) (a : A) : list A :=
  (if decide (limit <= length q)%nat then tail q else q) ++ [a].

(** The particle collection once the oldest photo, if any is due, is out. *)
Definition evicted (limit : nat) (phs ps : list Ref) : list Ref :=
  if decide (limit <= length phs)%nat then
    match phs with
    | [] => ps
    | oldPhoto :: _ => filter (fun p => p <> oldPhoto) ps
    end
  else ps.

(** State after [addPhotoToScene texture] started in [s]. *)
Definition addPost (texture : nat) (s s' : App) : Prop :=
  wf s' /\
  deviceInfo s' = deviceInfo s /\ settings s' = settings s /\
  mode s' = mode s /\
  exists r,
    heap s !! r = None /\
    textureOf (heap s') r = Some texture /\
    isPhotoRef (heap s') r = true /\
    (forall x, x <> r -> heap s' !! x = heap s !! x) /\
    photos s' = fifoPush (maxPhotos (settings s)) (photos s) r /\
    particles s'
    = evicted (maxPhotos (settings s)) (photos s) (particles s) ++ [r].

End PhotosSpec.

Module GestureSpec.
Import Layout LayoutSpec Gesture.

(** The six landmarks [processGestures] reads. *)
Record Hand : Type := mkHand {
  thumbTip : Landmark; indexTip : Landmark; wrist : Landmark;
  middleTip : Landmark; ringTip : Landmark; pinkyTip : Landmark
}.

(** [None] when one of them is missing from the frame. *)
Definition handOf (landmarks : list Landmark) : option Hand :=
  match landmarks !! 4%nat, landmarks !! 8%nat, landmarks !! 0%nat,
        landmarks !! 12%nat, landmarks !! 16%nat, landmarks !! 20%nat with
  | Some t, Some i, Some w, Some m, Some r, Some p =>
      Some (mkHand t i w m r p)
  | _, _, _, _, _, _ => None
  end.

(** The two measures the thresholds are compared with. *)
Definition pinchOf (h : Hand) : R := pinchDistance (thumbTip h) (indexTip h).

Definition avgOf (h : Hand) : R :=
  avgDistance (indexTip h) (middleTip h) (ringTip h) (pinkyTip h) (wrist h).

(** A frame qualifies in mode [m] when it meets the threshold of a gesture
    whose mode is not [m]. *)
Definition qualifies (m : Mode) (h : Hand) : Prop :=
  (pinchOf h < 0.05 /\ m <> FOCUS) \/
  (avgOf h < 0.25 /\ m <> TREE) \/
  (0.4 < avgOf h /\ m <> SCATTER).

(** The mode the chain of tests in [processGestures] selects. *)
Definition selected (m : Mode) (h : Hand) : option Mode :=
  if decide (pinchOf h < 0.05 /\ m <> FOCUS) then Some FOCUS
  else if decide (avgOf h < 0.25 /\ m <> TREE) then Some TREE
  else if decide (0.4 < avgOf h /\ m <> SCATTER) then Some SCATTER
  else None.

(** A closed hand: the wrist in the middle of the image and the other 20
    landmarks together a tenth of the image width beside it, thumb tip on
    index tip. *)
Definition closedHand : list Landmark :=
  mkLandmark 0.5 0.5 0 :: replicate 20 (mkLandmark 0.6 0.5 0).

Definition closedHandKeypoints : Hand :=
  let w := mkLandmark 0.5 0.5 0 in
  let p := mkLandmark 0.6 0.5 0 in
  mkHand p p w p p p.

End GestureSpec.

Module TouchSpec.
Import Layout LayoutSpec Touch.

(** The x rotation is within a third of a half turn either way. *)
Definition xInRange (c : TouchController) : Prop :=
  - PI / 3 <= rotX (touchRotation c) <= PI / 3.

(** A controller in the middle of a two-finger gesture that started with
    the fingers 100 pixels apart. *)
Definition pinching : TouchController :=
  set_pinchStartDistance 100 newTouchController.

End TouchSpec.

Module DeviceSpec.
Import Device.

(** The tiers in increasing order. *)
Definition rank (l : PerformanceLevel) : nat :=
  match l with
  | low => 0
  | medium => 1
  | high => 2
  end.

End DeviceSpec.

Module SceneSpec.
Import Scene.

(** Whether the loop of [createParticles] builds a particle at index [i]. *)
Definition built (cfg : Device.PerformanceSettings) (mobile : bool) (i : nat)
  : Prop :=
  ~ (Device.settingsPerformanceLevel cfg = Device.low /\ (i mod 3 = 0)%nat) /\
  ~ ((i < Device.mainParticleCount cfg)%nat /\
     (i mod (if mobile then 4 else 5) = 4)%nat /\
     Device.settingsPerformanceLevel cfg = Device.low).

#[global] Instance built_dec cfg mobile i : Decision (built cfg mobile i).
Proof. unfold built. apply _. Defined.

(** A decorative particle as [createParticles] builds it: shown at the
    origin, without texture or with the candy-cane one, which only a
    desktop above the low tier gets. *)
Definition decoration (cfg : Device.PerformanceSettings) (mobile : bool)
    (candyCaneTexture : nat) (p : Particle) : Prop :=
  isPhoto p = false /\ meshPosition (mesh p) = Photos.zeroVector /\
  (meshMap (mesh p) = None \/
   (meshMap (mesh p) = Some candyCaneTexture /\
    Device.settingsPerformanceLevel cfg <> Device.low /\ mobile = false)).

(** The application after its constructor, before [init()]: no particle
    and no photo, in TREE mode. *)
Definition newApp (mobile : bool) (limit : nat) (draws : nat -> Unit01)
  : App :=
  {| deviceInfo := mkDeviceInfo mobile; settings := mkSettings limit;
     heap := ∅; particles := []; photos := []; mode := TREE;
     randomStream := draws; randomCursor := 0 |}.

(** State after [createParticles()] started in [s] with empty arrays. *)
Definition createPost (cfg : Device.PerformanceSettings) (candyCaneTexture : nat)
    (s s' : App) : Prop :=
  LayoutSpec.wf s' /\ photos s' = [] /\
  deviceInfo s' = deviceInfo s /\ settings s' = settings s /\
  mode s' = mode s /\ randomStream s' = randomStream s /\
  length (particles s')
  = length (filter (built cfg (isMobile (deviceInfo s)))
              (seq 0 (Device.particleCount cfg))) /\
  forall x, x ∈ particles s' ->
    exists p, heap s' !! x = Some p /\
      decoration cfg (isMobile (deviceInfo s)) candyCaneTexture p.

(** What the loop of [createParticles] holds after the indices [pre]. *)
Definition creating (cfg : Device.PerformanceSettings)
    (candyCaneTexture : nat) (s0 : App) (pre : list nat) (s : App) : Prop :=
  LayoutSpec.wf s /\ photos s = [] /\
  deviceInfo s = deviceInfo s0 /\ settings s = settings s0 /\
  mode s = mode s0 /\ randomStream s = randomStream s0 /\
  length (particles s)
  = length (filter (built cfg (isMobile (deviceInfo s0))) pre) /\
  forall x, x ∈ particles s ->
    exists p, heap s !! x = Some p /\
      decoration cfg (isMobile (deviceInfo s0)) candyCaneTexture p.

(** A scene as [createParticles()] and [createDefaultPhoto()] build it from
    empty arrays: the decorative particles, then one photo showing
    [defaultTexture]. *)
Definition freshScene (cfg : Device.PerformanceSettings)
    (candyCaneTexture defaultTexture : nat) (s s' : App) : Prop :=
  LayoutSpec.wf s' /\
  deviceInfo s' = deviceInfo s /\ settings s' = settings s /\
  mode s' = mode s /\
  exists decoratives r,
    particles s' = decoratives ++ [r] /\ photos s' = [r] /\
    Photos.textureOf (heap s') r = Some defaultTexture /\
    length decoratives
    = length (filter (built cfg (isMobile (deviceInfo s)))
                (seq 0 (Device.particleCount cfg))) /\
    forall x, x ∈ decoratives ->
      exists p, heap s' !! x = Some p /\
        decoration cfg (isMobile (deviceInfo s)) candyCaneTexture p.

End SceneSpec.

Module UploadSpec.
Import Photos.

(** A photo particle as [addPhotoToScene(texture)] builds it: shown where
    it was created, on a ring around the axis, with its target at the
    origin. *)
Definition placed (mobile : bool) (texture : nat) (p : Particle) : Prop :=
  isPhoto p = true /\ meshMap (mesh p) = Some texture /\
  meshPosition (mesh p) = basePosition p /\
  targetPosition p = zeroVector /\ velocity p = zeroVector /\
  rotationSpeed p = zeroVector /\ scale p = 1 /\
  (if mobile then 10 else 15) <= hlength (basePosition p)
    < (if mobile then 20 else 25) /\
  Rabs (vy (basePosition p)) <= 7.5 /\
  0 <= meshRotationY (mesh p) < 2 * PI.

End UploadSpec.

Module DragSpec.
Import Touch.

(** The [touchmove] events of one finger passing through the given
    points. *)
Definition drag (points : list TouchPoint) : list Event :=
  map (fun p => TouchMove [p]) points.

End DragSpec.

Module SessionSpec.
Import Session.

(** A camera frame with all 21 hand landmarks. *)
Definition complete (a : Action) : Prop :=
  match a with
  | HandSeen _ landmarks => (21 <= length landmarks)%nat
  | _ => True
  end.

(** What no handler undoes between [s] and [s']: the scene stays well
    formed, device and settings are kept, the photos stay within the
    configured maximum, and no decorative particle leaves the collection. *)
Definition preserved (s s' : App) : Prop :=
  LayoutSpec.wf s' /\
  deviceInfo s' = deviceInfo s /\ settings s' = settings s /\
  ((length (photos s) <= maxPhotos (settings s))%nat ->
   (length (photos s') <= maxPhotos (settings s))%nat) /\
  forall x, x ∈ particles s -> Photos.isPhotoRef (heap s) x = false ->
    x ∈ particles s' /\ Photos.isPhotoRef (heap s') x = false.

End SessionSpec.

Module AnimateSpec.
Import Animate.

(** Whether the loop of [animate] skips the particle at [index]. *)
Definition skipped (level : Device.PerformanceLevel) (index : nat) : Prop :=
  level = Device.low /\ (index mod 3 = 0)%nat.

(** The mesh of particle [p] after a turn of the loop that does not skip
    it. *)
Definition animatedMesh (mobile : bool) (m : Mode) (time phase : R)
    (p : Particle) : Mesh :=
  let pos := vlerp (meshPosition (mesh p)) (targetPosition p)
               (animationSpeed mobile) in
  mkMesh (meshMap (mesh p))
    (if isPhoto p then pos
     else mkVector3 (vx pos) (vy pos + sin (time + phase) * 0.005) (vz pos))
    (if decide (m = SCATTER /\ isPhoto p = false)
     then meshRotationY (mesh p) + vy (rotationSpeed p)
     else meshRotationY (mesh p)).

(** What a turn of the loop makes of the particle [x] at [index]. *)
Definition animateRel (level : Device.PerformanceLevel) (mobile : bool)
    (m : Mode) (time : R) (id : Ref -> R) (index : nat) (x : Ref)
    (p p' : Particle) : Prop :=
  if decide (skipped level index) then p' = p
  else p' = withMesh (animatedMesh mobile m time (id x) p) p.

(** Offset of the displayed position from the target. *)
Definition offset (p : Particle) : Vector3 :=
  mkVector3 (vx (meshPosition (mesh p)) - vx (targetPosition p))
            (vy (meshPosition (mesh p)) - vy (targetPosition p))
            (vz (meshPosition (mesh p)) - vz (targetPosition p)).

(** State after the particle loop of one frame started in [s]. *)
Definition animatePost (level : Device.PerformanceLevel) (time : R)
    (id : Ref -> R) (s s' : App) : Prop :=
  shapeEq s s' /\
  (forall r, r ∉ particles s -> heap s' !! r = heap s !! r) /\
  (forall k x, particles s !! k = Some x ->
     exists p p', heap s !! x = Some p /\ heap s' !! x = Some p' /\
       animateRel level (isMobile (deviceInfo s)) (mode s) time id k x p p').

(** What [n] frames make of the particle at [index]: the layout fields are
    kept; a skipped particle is not written; of any other the horizontal
    offset from the target has shrunk by [(1 - speed) ^ n], and so has the
    vertical one up to the floating of a decorative particle. *)
Definition settled (level : Device.PerformanceLevel) (mobile : bool)
    (n index : nat) (p p' : Particle) : Prop :=
  let q := 1 - animationSpeed mobile in
  targetPosition p' = targetPosition p /\ scale p' = scale p /\
  isPhoto p' = isPhoto p /\ basePosition p' = basePosition p /\
  meshMap (mesh p') = meshMap (mesh p) /\
  (skipped level index -> p' = p) /\
  (~ skipped level index ->
   vx (offset p') = q ^ n * vx (offset p) /\
   vz (offset p') = q ^ n * vz (offset p) /\
   (isPhoto p = true -> vy (offset p') = q ^ n * vy (offset p)) /\
   Rabs (vy (offset p'))
   <= q ^ n * Rabs (vy (offset p))
      + 0.005 * (1 - q ^ n) / animationSpeed mobile).

End AnimateSpec.

Module ScatterSpec.

(** A stream of draws that repeats 1/2, 1/2, 0, 1/2, 1/2: each decorative
    particle of a SCATTER pass then draws 0 for [phi] and 1/2 for the
    height. *)
Definition nearDraw (k : nat) : Unit01 :=
  if decide (k mod 5 = 2)%nat then mkUnit01 0 ltac:(lra)
  else LayoutSpec.half.

(** A desktop scene with one decorative particle and these draws. *)
Definition nearApp : App := LayoutSpec.dustApp SCATTER nearDraw.

(** Number of decorative particles among the references [l], in the scene
    [s]. *)
Definition decoratives (s : App) (l : list Ref) : nat :=
  length (filter (fun r => Photos.isPhotoRef (heap s) r = false) l).

(** Number of decorative particles before index [k] of the collection. *)
Definition decorativesBefore (s : App) (k : nat) : nat :=
  decoratives s (take k (particles s)).

(** What a SCATTER iteration makes of a decorative particle when the next
    draw is the one at position [c] of the stream [draws]. *)
Definition scatterAt (mobile : bool) (draws : nat -> Unit01) (c : nat)
    (p : Particle) : Particle :=
  withScale (0.8 + draws (c + 4)%nat * 0.4)
    (withTargetPosition
       (LayoutSpec.shellTarget (Layout.scatterMinRadius mobile)
          (Layout.scatterMaxRadius mobile) 1.5
          (draws c) (draws (c + 1)%nat) (draws (c + 2)%nat)
          (draws (c + 3)%nat)) p).

End ScatterSpec.

(** ** Reasoning about methods *)

Lemma wp_run {A : Type} (m : JS A) (Q : A -> App -> Prop) (s : App) :
  wp m Q s <-> exists a s', m s = Some (a, s') /\ Q a s'.
Proof.
  unfold wp. destruct (m s) as [[a s']|].
  - split; [eauto | intros (a' & s'' & [= -> ->] & HQ); exact HQ].
  - split; [tauto | intros (a' & s'' & [=] & _)].
Qed.

Lemma wp_mono {A : Type} (m : JS A) (Q Q' : A -> App -> Prop) (s : App) :
  (forall a s', Q a s' -> Q' a s') -> wp m Q s -> wp m Q' s.
Proof. unfold wp. destruct (m s) as [[a s']|]; auto. Qed.

Lemma wp_bind {A B : Type} (m : JS A) (k : A -> JS B) Q s :
  wp (bind m k) Q s <-> wp m (fun a s' => wp (k a) Q s') s.
Proof. unfold wp, bind. destruct (m s) as [[a s']|]; tauto. Qed.

Lemma wp_ret {A : Type} (a : A) (Q : A -> App -> Prop) s :
  wp (ret a) Q s <-> Q a s.
Proof. reflexivity. Qed.

Lemma wp_gets {A : Type} (f : App -> A) (Q : A -> App -> Prop) s :
  wp (gets f) Q s <-> Q (f s) s.
Proof. reflexivity. Qed.

Lemma wp_modify (f : App -> App) (Q : unit -> App -> Prop) s :
  wp (modify f) Q s <-> Q tt (f s).
Proof. reflexivity. Qed.

Lemma wp_random (Q : R -> App -> Prop) s :
  wp random Q s <->
  Q (uval (randomStream s (randomCursor s)))
    (set_randomCursor (S (randomCursor s)) s).
Proof. reflexivity. Qed.

Lemma wp_deref (r : Ref) (p : Particle) (Q : Particle -> App -> Prop) s :
  heap s !! r = Some p -> wp (deref r) Q s <-> Q p s.
Proof. intros H. unfold wp, deref. rewrite H. reflexivity. Qed.

Lemma wp_setTargetPosition r v p (Q : unit -> App -> Prop) s :
  heap s !! r = Some p ->
  wp (setTargetPosition r v) Q s <->
  Q tt (set_heap (<[r := withTargetPosition v p]> (heap s)) s).
Proof.
  intros H. unfold setTargetPosition, wp, bind, deref, modify.
  rewrite H. reflexivity.
Qed.

Lemma wp_setScale r c p (Q : unit -> App -> Prop) s :
  heap s !! r = Some p ->
  wp (setScale r c) Q s <->
  Q tt (set_heap (<[r := withScale c p]> (heap s)) s).
Proof.
  intros H. unfold setScale, wp, bind, deref, modify.
  rewrite H. reflexivity.
Qed.

Lemma shapeEq_refl s : shapeEq s s.
Proof. repeat split. Qed.

Lemma shapeEq_trans s1 s2 s3 : shapeEq s1 s2 -> shapeEq s2 s3 -> shapeEq s1 s3.
Proof.
  intros (?&?&?&?&?&?) (?&?&?&?&?&?). repeat split; congruence.
Qed.

(** What a whole [forEach] over distinct references does, given what each
    iteration does. *)
Lemma forEachFrom_spec (body : Ref -> nat -> JS unit)
    (rel : nat -> Ref -> Particle -> Particle -> Prop) :
  forall (l : list Ref) (i : nat) (s0 s : App),
    NoDup l ->
    shapeEq s0 s ->
    (forall x, x ∈ l -> is_Some (heap s !! x)) ->
    (forall k x s1, l !! k = Some x -> shapeEq s0 s1 ->
        is_Some (heap s1 !! x) ->
        wp (body x (i + k)%nat)
           (fun _ s2 => cellStep (rel (i + k)%nat x) x s1 s2) s1) ->
    wp (forEachFrom body l i)
       (fun _ s' =>
          shapeEq s0 s' /\
          (forall r, r ∉ l -> heap s' !! r = heap s !! r) /\
          (forall k x, l !! k = Some x ->
             exists p p', heap s !! x = Some p /\ heap s' !! x = Some p' /\
                          rel (i + k)%nat x p p')) s.
Proof.
  induction l as [|x l IH]; intros i s0 s Hnd Hsh Hdom Hbody.
  - apply wp_ret. split; [exact Hsh|]. split; [done|].
    intros k x Hk. by rewrite lookup_nil in Hk.
  - cbn [forEachFrom]. apply wp_bind.
    apply NoDup_cons in Hnd as [Hx Hnd].
    assert (Hx0 : is_Some (heap s !! x)) by (apply Hdom; left).
    pose proof (Hbody 0%nat x s eq_refl Hsh Hx0) as Hb.
    rewrite Nat.add_0_r in Hb. revert Hb.
    apply wp_mono. intros _ s1 (Hsh1 & p & p' & Hp & Hrel & Hheap).
    assert (Hsh01 : shapeEq s0 s1) by (eapply shapeEq_trans; eassumption).
    assert (Hdom1 : forall y, y ∈ l -> is_Some (heap s1 !! y)).
    { intros y Hy. rewrite Hheap.
      destruct (decide (x = y)) as [->|Hne]; [contradiction|].
      rewrite lookup_insert_ne by done. apply Hdom. by right. }
    assert (Hbody1 : forall k y s2, l !! k = Some y -> shapeEq s0 s2 ->
        is_Some (heap s2 !! y) ->
        wp (body y (S i + k)%nat)
           (fun _ s3 => cellStep (rel (S i + k)%nat y) y s2 s3) s2).
    { intros k y s2 Hk Hs2 Hy.
      replace (S i + k)%nat with (i + S k)%nat by lia.
      by apply Hbody. }
    generalize (IH (S i) s0 s1 Hnd Hsh01 Hdom1 Hbody1).
    apply wp_mono. intros _ s' (Hsh' & Hout & Hin).
    split; [exact Hsh'|]. split.
    + intros r Hr. apply not_elem_of_cons in Hr as [Hrx Hrl].
      rewrite (Hout r Hrl), Hheap. by rewrite lookup_insert_ne.
    + intros [|k] y Hk; cbn in Hk.
      * injection Hk as <-. exists p, p'.
        rewrite Nat.add_0_r. split; [done|]. split; [|done].
        rewrite (Hout x Hx), Hheap. by rewrite lookup_insert_eq.
      * destruct (Hin k y Hk) as (q & q' & Hq & Hq' & Hr).
        assert (Hy : y ∈ l) by (eapply list_elem_of_lookup_2; eassumption).
        assert (Hxy : x <> y) by (intros ->; contradiction).
        exists q, q'. rewrite Hheap, lookup_insert_ne in Hq by done.
        replace (i + S k)%nat with (S i + k)%nat by lia. done.
Qed.

(** Stepping through a method body. *)
Lemma wp_bind_intro {A B : Type} (m : JS A) (k : A -> JS B) Q s :
  wp m (fun a s' => wp (k a) Q s') s -> wp (bind m k) Q s.
Proof. apply wp_bind. Qed.

Lemma wp_ret_intro {A : Type} (a : A) (Q : A -> App -> Prop) s :
  Q a s -> wp (ret a) Q s.
Proof. apply wp_ret. Qed.

Lemma wp_gets_intro {A : Type} (f : App -> A) (Q : A -> App -> Prop) s :
  Q (f s) s -> wp (gets f) Q s.
Proof. apply wp_gets. Qed.

Lemma wp_modify_intro (f : App -> App) (Q : unit -> App -> Prop) s :
  Q tt (f s) -> wp (modify f) Q s.
Proof. apply wp_modify. Qed.

Lemma wp_random_intro (Q : R -> App -> Prop) s :
  Q (uval (randomStream s (randomCursor s)))
    (set_randomCursor (S (randomCursor s)) s) ->
  wp random Q s.
Proof. apply wp_random. Qed.

Lemma wp_deref_intro (r : Ref) (p : Particle) (Q : Particle -> App -> Prop) s :
  heap s !! r = Some p -> Q p s -> wp (deref r) Q s.
Proof. intros H HQ. by apply (wp_deref r p Q s H). Qed.

Lemma wp_setTargetPosition_intro r v p (Q : unit -> App -> Prop) s :
  heap s !! r = Some p ->
  Q tt (set_heap (<[r := withTargetPosition v p]> (heap s)) s) ->
  wp (setTargetPosition r v) Q s.
Proof. intros H HQ. by apply (wp_setTargetPosition r v p Q s H). Qed.

Lemma wp_setScale_intro r c p (Q : unit -> App -> Prop) s :
  heap s !! r = Some p ->
  Q tt (set_heap (<[r := withScale c p]> (heap s)) s) ->
  wp (setScale r c) Q s.
Proof. intros H HQ. by apply (wp_setScale r c p Q s H). Qed.

Ltac wp_simpl :=
  cbn [heap particles photos mode deviceInfo settings randomStream
       randomCursor set_heap set_particles set_photos set_mode
       set_randomCursor].

Ltac wp_lookup :=
  wp_simpl;
  first [ eassumption
        | apply lookup_insert_eq
        | (rewrite lookup_insert_ne by done; eassumption) ].

Ltac wp_step :=
  lazymatch goal with
  | |- wp (bind _ _) _ _ => apply wp_bind_intro
  | |- wp (ret _) _ _ => apply wp_ret_intro
  | |- wp (gets _) _ _ => apply wp_gets_intro
  | |- wp (modify _) _ _ => apply wp_modify_intro
  | |- wp random _ _ => apply wp_random_intro
  | |- wp (deref _) _ _ => eapply wp_deref_intro; [wp_lookup|]
  | |- wp (setTargetPosition _ _) _ _ =>
      eapply wp_setTargetPosition_intro; [wp_lookup|]
  | |- wp (setScale _ _) _ _ => eapply wp_setScale_intro; [wp_lookup|]
  end;
  wp_simpl.

(** A loop whose turns keep an invariant of the elements visited so far. *)
Lemma forEachFrom_inv {A : Type} (body : A -> nat -> JS unit)
    (I : list A -> App -> Prop) (l : list A) :
  forall (i : nat) (pre : list A) (s : App),
    I pre s ->
    (forall pre' x k s1, x ∈ l -> I pre' s1 ->
       wp (body x k) (fun _ s2 => I (pre' ++ [x]) s2) s1) ->
    wp (forEachFrom body l i) (fun _ s' => I (pre ++ l) s') s.
Proof.
  induction l as [|x l IH]; intros i pre s HI Hbody.
  - apply wp_ret_intro. by rewrite app_nil_r.
  - cbn [forEachFrom]. apply wp_bind_intro.
    generalize (Hbody pre x i s ltac:(by left) HI).
    apply wp_mono. intros _ s1 H1.
    assert (Hbody' : forall pre' y k s2, y ∈ l -> I pre' s2 ->
              wp (body y k) (fun _ s3 => I (pre' ++ [y]) s3) s2).
    { intros pre' y k s2 Hy. apply Hbody. by right. }
    generalize (IH (S i) (pre ++ [x]) s1 H1 Hbody').
    apply wp_mono. intros _ s2. by rewrite <- app_assoc.
Qed.

Lemma wp_conj {A : Type} (m : JS A) (Q1 Q2 : A -> App -> Prop) s :
  wp m Q1 s -> wp m Q2 s -> wp m (fun a s' => Q1 a s' /\ Q2 a s') s.
Proof. unfold wp. destruct (m s) as [[a s']|]; tauto. Qed.

(** The same, for an invariant that needs to know where in the list the
    loop is. *)
Lemma forEachFrom_prefix {A : Type} (body : A -> nat -> JS unit)
    (I : list A -> App -> Prop) (l : list A) :
  forall (i : nat) (pre : list A) (s : App),
    I pre s ->
    (forall pre' x post' k s1, pre ++ l = pre' ++ x :: post' -> I pre' s1 ->
       wp (body x k) (fun _ s2 => I (pre' ++ [x]) s2) s1) ->
    wp (forEachFrom body l i) (fun _ s' => I (pre ++ l) s') s.
Proof.
  induction l as [|x l IH]; intros i pre s HI Hbody.
  - apply wp_ret_intro. by rewrite app_nil_r.
  - cbn [forEachFrom]. apply wp_bind_intro.
    generalize (Hbody pre x l i s eq_refl HI).
    apply wp_mono. intros _ s1 H1.
    assert (Hbody' : forall pre' y post' k s2,
              (pre ++ [x]) ++ l = pre' ++ y :: post' -> I pre' s2 ->
              wp (body y k) (fun _ s3 => I (pre' ++ [y]) s3) s2).
    { intros pre' y post' k s2 Heq. apply (Hbody pre' y post' k s2).
      by rewrite <- Heq, <- app_assoc. }
    generalize (IH (S i) (pre ++ [x]) s1 H1 Hbody').
    apply wp_mono. intros _ s2. by rewrite <- app_assoc.
Qed.

(** ** Layout engine *)

Module LayoutThm.
Import Layout LayoutSpec.

(** *** What one iteration does to the object it visits *)

Lemma cellStep_skip rel x s p :
  heap s !! x = Some p -> rel p p -> cellStep rel x s s.
Proof.
  intros Hp Hrel. split; [apply shapeEq_refl|].
  exists p, p. by rewrite insert_id.
Qed.

Lemma cellStep_intro rel x s s' p p' :
  heap s !! x = Some p -> rel p p' -> shapeEq s s' ->
  heap s' = <[x := p']> (heap s) ->
  cellStep rel x s s'.
Proof. intros Hp Hrel Hsh Hh. split; [exact Hsh|]. by exists p, p'. Qed.

Lemma treeBody_spec mobile x i s :
  is_Some (heap s !! x) ->
  wp (treeBody mobile x i)
     (fun _ s' => cellStep (treeRel mobile (length (particles s)) i) x s s') s.
Proof.
  intros [p Hp]. unfold treeBody. do 2 wp_step.
  destruct (isPhoto p) eqn:Hph.
  - wp_step. apply (cellStep_skip _ _ _ p Hp). unfold treeRel. by rewrite Hph.
  - repeat wp_step.
    eapply cellStep_intro; [exact Hp | | repeat split |].
    + unfold treeRel. rewrite Hph. reflexivity.
    + wp_simpl. by rewrite insert_insert_eq.
Qed.

Lemma scatterBody_spec mobile x i s :
  is_Some (heap s !! x) ->
  wp (scatterBody mobile x i)
     (fun _ s' => cellStep (scatterRel mobile) x s s') s.
Proof.
  intros [p Hp]. unfold scatterBody. do 2 wp_step.
  destruct (isPhoto p) eqn:Hph.
  - wp_step. apply (cellStep_skip _ _ _ p Hp). unfold scatterRel.
    by rewrite Hph.
  - repeat wp_step.
    eapply cellStep_intro; [exact Hp | | repeat split |].
    + unfold scatterRel. rewrite Hph. do 5 eexists. reflexivity.
    + wp_simpl. by rewrite insert_insert_eq.
Qed.

Lemma focusBody_spec mobile targetPhoto x i s :
  is_Some (heap s !! x) ->
  wp (focusBody mobile targetPhoto x i)
     (fun _ s' => cellStep (focusRel mobile targetPhoto x) x s s') s.
Proof.
  intros [p Hp]. unfold focusBody.
  destruct (decide (x = targetPhoto)) as [Heq|Hne].
  - wp_step. apply (cellStep_skip _ _ _ p Hp). unfold focusRel.
    by rewrite decide_True.
  - do 2 wp_step. destruct (isPhoto p) eqn:Hph.
    + repeat wp_step.
      eapply cellStep_intro; [exact Hp | | repeat split |].
      * unfold focusRel. rewrite decide_False by done. rewrite Hph.
        do 3 eexists. reflexivity.
      * wp_simpl. by rewrite insert_insert_eq.
    + repeat wp_step.
      eapply cellStep_intro; [exact Hp | | repeat split |].
      * unfold focusRel. rewrite decide_False by done. rewrite Hph.
        do 5 eexists. unfold shellTarget.
        rewrite !Rmult_1_r. reflexivity.
      * wp_simpl. by rewrite insert_insert_eq.
Qed.

(** *** Well-formed application states *)

Lemma wf_photo_elem s x :
  wf s ->
  x ∈ photos s <->
  x ∈ particles s /\ exists p, heap s !! x = Some p /\ isPhoto p = true.
Proof.
  intros Hwf. rewrite (wf_photos s Hwf), list_elem_of_filter.
  unfold Photos.isPhotoRef. split.
  - intros [Hph Hx]. split; [done|].
    destruct (heap s !! x) as [p|]; [by exists p | done].
  - intros [Hx (p & Hp & Hph)]. by rewrite Hp.
Qed.

(** *** What a whole layout pass does *)

Lemma Math_floor_index (u : Unit01) (n : nat) :
  (0 < n)%nat ->
  exists k : nat, (k < n)%nat /\ Math_floor (u * INR n) = Z.of_nat k.
Proof.
  intros Hn. unfold Math_floor.
  destruct u as [u [Hu0 Hu1]]; cbn [uval].
  assert (HnR : 0 < INR n) by (apply lt_0_INR; lia).
  destruct (base_Int_part (u * INR n)) as [Hle Hgt].
  set (z := Int_part (u * INR n)) in *.
  assert (Hlo : (0 <= z)%Z).
  { apply Z.lt_succ_r, lt_IZR. rewrite succ_IZR. nra. }
  assert (Hhi : (z < Z.of_nat n)%Z).
  { apply lt_IZR. rewrite <- INR_IZR_INZ. nra. }
  exists (Z.to_nat z). split; [lia|]. by rewrite Z2Nat.id.
Qed.

Lemma forEach_particles (body : Ref -> nat -> JS unit)
    (rel : nat -> Ref -> Particle -> Particle -> Prop) (s0 s : App) :
  NoDup (particles s0) ->
  shapeEq s0 s ->
  (forall x, x ∈ particles s0 -> is_Some (heap s !! x)) ->
  (forall k x s1, shapeEq s0 s1 -> is_Some (heap s1 !! x) ->
      wp (body x k) (fun _ s2 => cellStep (rel k x) x s1 s2) s1) ->
  wp (forEach body (particles s0))
     (fun _ s' =>
        shapeEq s0 s' /\
        (forall r, r ∉ particles s0 -> heap s' !! r = heap s !! r) /\
        (forall k x, particles s0 !! k = Some x ->
           exists p p', heap s !! x = Some p /\ heap s' !! x = Some p' /\
                        rel k x p p')) s.
Proof.
  intros Hnd Hsh Hdom Hbody. unfold forEach.
  apply (forEachFrom_spec body rel (particles s0) 0 s0 s Hnd Hsh Hdom).
  intros k x s1 _ Hs1 Hx. by apply Hbody.
Qed.

Lemma tree_pass s :
  mode s = TREE -> wf s ->
  wp updateParticlePositions (fun _ s' => treePost s s') s.
Proof.
  intros Hmode Hwf. unfold updateParticlePositions.
  do 4 wp_step. rewrite Hmode. do 2 wp_step.
  apply (forEach_particles _
           (fun k _ => treeRel (isMobile (deviceInfo s))
                         (length (particles s)) k) s s
           (wf_nodup s Hwf) (shapeEq_refl s) (wf_valid s Hwf)).
  intros k x s1 Hs1 Hx.
  replace (length (particles s)) with (length (particles s1))
    by (destruct Hs1 as (_ & _ & -> & _); done).
  by apply treeBody_spec.
Qed.

Lemma scatter_pass s :
  mode s = SCATTER -> wf s ->
  wp updateParticlePositions (fun _ s' => scatterPost s s') s.
Proof.
  intros Hmode Hwf. unfold updateParticlePositions.
  do 4 wp_step. rewrite Hmode. do 2 wp_step.
  apply (forEach_particles _
           (fun _ _ => scatterRel (isMobile (deviceInfo s))) s s
           (wf_nodup s Hwf) (shapeEq_refl s) (wf_valid s Hwf)).
  intros k x s1 Hs1 Hx. by apply scatterBody_spec.
Qed.

Lemma focus_pass s :
  mode s = FOCUS -> wf s -> photos s <> [] ->
  wp updateParticlePositions (fun _ s' => focusPost s s') s.
Proof.
  intros Hmode Hwf Hne. unfold updateParticlePositions.
  do 4 wp_step. rewrite Hmode. do 2 wp_step.
  assert (Hlen : (0 < length (photos s))%nat).
  { destruct (photos s); [done | cbn; lia]. }
  rewrite decide_True by done. do 2 wp_step.
  destruct (Math_floor_index (randomStream s (randomCursor s))
              (length (photos s)) Hlen) as (k & Hk & Hfloor).
  rewrite Hfloor. unfold array_get.
  replace (Z.of_nat k <? 0)%Z with false by (symmetry; apply Z.ltb_ge; lia).
  rewrite Nat2Z.id.
  destruct (lookup_lt_is_Some_2 (photos s) k Hk) as [t Ht]. rewrite Ht.
  assert (Htphotos : t ∈ photos s)
    by (eapply list_elem_of_lookup_2; eassumption).
  destruct (proj1 (wf_photo_elem s t Hwf) Htphotos) as (Htp & pt & Hpt & Hph).
  repeat wp_step. rewrite insert_insert_eq.
  set (s1 := set_heap _ _).
  assert (Hs1 : shapeEq s s1) by (repeat split).
  assert (Hdom1 : forall x, x ∈ particles s -> is_Some (heap s1 !! x)).
  { intros x Hx. subst s1. wp_simpl.
    destruct (decide (t = x)) as [->|Hn].
    - rewrite lookup_insert_eq. by eexists.
    - rewrite lookup_insert_ne by done. by apply (wf_valid s Hwf). }
  generalize (forEach_particles _
           (fun _ x => focusRel (isMobile (deviceInfo s)) t x) s s1
           (wf_nodup s Hwf) Hs1 Hdom1
           (fun k x s2 _ Hx => focusBody_spec _ t x k s2 Hx)).
  apply wp_mono. intros _ s' (Hsh & Hout & Hin).
  split; [exact Hsh|]. exists t, pt.
  split; [done|]. split; [done|].
  assert (Hh1 : forall r, r <> t -> heap s1 !! r = heap s !! r).
  { intros r Hr. subst s1. wp_simpl. by rewrite lookup_insert_ne. }
  split; [|split].
  - apply list_elem_of_lookup_1 in Htp as [kt Hkt].
    destruct (Hin kt t Hkt) as (p & p' & Hp & Hp' & Hrel).
    unfold focusRel in Hrel. rewrite decide_True in Hrel by done.
    subst p'. rewrite Hp', <- Hp. subst s1. wp_simpl.
    unfold staged. by rewrite lookup_insert_eq.
  - intros r Hr Hrt. rewrite (Hout r Hr). by apply Hh1.
  - intros x Hx Hxt. apply list_elem_of_lookup_1 in Hx as [kx Hkx].
    destruct (Hin kx x Hkx) as (p & p' & Hp & Hp' & Hrel).
    exists p, p'. rewrite <- (Hh1 x Hxt). done.
Qed.

(** *** Geometry of the targets *)

Lemma sin_cos_sq (a : R) : sin a * sin a + cos a * cos a = 1.
Proof. pose proof (sin2_cos2 a) as H. unfold Rsqr in H. exact H. Qed.

Lemma hlength_polar (a r y : R) :
  0 <= r -> hlength (mkVector3 (cos a * r) y (sin a * r)) = r.
Proof.
  intros Hr. unfold hlength; cbn [vx vz].
  replace (cos a * r * (cos a * r) + sin a * r * (sin a * r))
    with ((sin a * sin a + cos a * cos a) * (r * r)) by ring.
  rewrite sin_cos_sq, Rmult_1_l. by apply sqrt_square.
Qed.


Lemma hlength_spherical (r phi theta y : R) :
  0 <= r ->
  hlength (mkVector3 (r * sin phi * cos theta) y (r * sin phi * sin theta))
  <= r.
Proof.
  intros Hr. unfold hlength; cbn [vx vz].
  apply Rle_trans with (sqrt (r * r)); [|by rewrite sqrt_square].
  apply sqrt_le_1_alt.
  pose proof (sin_cos_sq theta) as Ht. pose proof (sin_cos_sq phi) as Hp.
  replace (r * sin phi * cos theta * (r * sin phi * cos theta)
           + r * sin phi * sin theta * (r * sin phi * sin theta))
    with ((r * r) * (sin phi * sin phi)
          * (sin theta * sin theta + cos theta * cos theta)) by ring.
  rewrite Ht, Rmult_1_r. nra.
Qed.

Lemma vlength_bound (v : Vector3) (a b c : R) :
  0 <= a -> 0 <= b -> 0 <= c ->
  hlength v <= a -> Rabs (vy v) <= b -> a * a + b * b <= c * c ->
  vlength v <= c.
Proof.
  intros Ha Hb Hc Hh Hy Habc.
  rewrite <- (sqrt_square c Hc). unfold vlength. apply sqrt_le_1_alt.
  assert (Hh2 : vx v * vx v + vz v * vz v <= a * a).
  { unfold hlength in Hh.
    assert (H0 : 0 <= vx v * vx v + vz v * vz v) by nra.
    pose proof (sqrt_pos (vx v * vx v + vz v * vz v)) as Hs.
    rewrite <- (sqrt_sqrt _ H0). nra. }
  assert (Hy2 : vy v * vy v <= b * b).
  { pose proof (Rabs_pos (vy v)) as Hp.
    replace (vy v * vy v) with (Rabs (vy v) * Rabs (vy v)); [nra|].
    unfold Rabs. destruct (Rcase_abs (vy v)); ring. }
  lra.
Qed.

Lemma treeRadius_range (maxRadius : R) (i n : nat) :
  0 <= maxRadius -> (i < n)%nat ->
  0.2 * maxRadius <= treeRadius maxRadius i n <= maxRadius.
Proof.
  intros Hm Hin. unfold treeRadius.
  assert (Hn : 0 < INR n) by (apply lt_0_INR; lia).
  assert (Hi : 0 <= INR i / INR n < 1).
  { split.
    - apply Rmult_le_pos; [apply pos_INR | left; by apply Rinv_0_lt_compat].
    - apply (Rmult_lt_reg_r (INR n)); [done|].
      unfold Rdiv. rewrite Rmult_assoc, Rinv_l, Rmult_1_r, Rmult_1_l by lra.
      by apply lt_INR. }
  nra.
Qed.

Lemma treeRadius_antitone (maxRadius : R) (n i j : nat) :
  0 <= maxRadius -> (1 <= n)%nat -> (i <= j)%nat ->
  treeRadius maxRadius j n <= treeRadius maxRadius i n.
Proof.
  intros Hm Hn Hij. unfold treeRadius.
  assert (HnR : 0 < INR n) by (apply lt_0_INR; lia).
  assert (Hle : INR i / INR n <= INR j / INR n).
  { apply Rmult_le_compat_r; [left; by apply Rinv_0_lt_compat|].
    by apply le_INR. }
  nra.
Qed.

Lemma treeMaxRadius_pos (mobile : bool) : 0 < treeMaxRadius mobile.
Proof. destruct mobile; cbn; lra. Qed.

(** *** Sample states *)

(** The scene as the constructor leaves it is well-formed. *)
Lemma wf_empty s : particles s = [] -> photos s = [] -> wf s.
Proof.
  intros Hps Hphs. split; rewrite ?Hps, ?Hphs.
  - apply NoDup_nil_2.
  - intros x Hx. by apply elem_of_nil in Hx.
  - reflexivity.
Qed.

Lemma sampleApp_wf m : wf (sampleApp m).
Proof.
  split; cbn [sampleApp particles photos heap].
  - apply NoDup_cons. split; [|apply NoDup_singleton].
    intros Hx%list_elem_of_singleton. discriminate.
  - intros x Hx. apply elem_of_cons in Hx as [->|Hx].
    + rewrite lookup_insert_ne by done. rewrite lookup_insert_eq. by eexists.
    + apply list_elem_of_singleton in Hx as ->.
      rewrite lookup_insert_eq. by eexists.
  - rewrite filter_cons, decide_False, filter_cons, decide_True; [done| |].
    + unfold Photos.isPhotoRef. by rewrite lookup_insert_eq.
    + unfold Photos.isPhotoRef.
      rewrite lookup_insert_ne by done. by rewrite lookup_insert_eq.
Qed.

Lemma dustApp_wf m draws : wf (dustApp m draws).
Proof.
  split; cbn [dustApp particles photos heap].
  - apply NoDup_singleton.
  - intros x Hx. apply list_elem_of_singleton in Hx as ->.
    rewrite lookup_insert_eq. by eexists.
  - rewrite filter_cons, decide_False; [done|].
    unfold Photos.isPhotoRef. by rewrite lookup_insert_eq.
Qed.

(** *** TREE *)


(** The radius of the formula is the distance from the vertical axis of the
    target a TREE pass assigns. *)
Lemma tree_pass_radius s :
  mode s = TREE -> wf s ->
  wp updateParticlePositions
     (fun _ s' =>
        forall i x p, particles s' !! i = Some x -> heap s' !! x = Some p ->
          isPhoto p = false ->
          hlength (targetPosition p)
          = treeRadius (treeMaxRadius (isMobile (deviceInfo s'))) i
              (length (particles s'))) s.
Proof.
  intros Hmode Hwf. generalize (tree_pass s Hmode Hwf). apply wp_mono.
  intros _ s' (Hsh & _ & Hin) i x p Hi Hp Hph.
  destruct Hsh as (Hdev & _ & Hps & _). rewrite Hps in Hi |- *. rewrite Hdev.
  destruct (Hin i x Hi) as (q & q' & Hq & Hq' & Hrel).
  rewrite Hp in Hq'. injection Hq' as <-.
  unfold treeRel in Hrel. destruct (isPhoto q) eqn:Hqph.
  - subst p. congruence.
  - subst p. cbn [targetPosition withScale withTargetPosition].
    unfold treeTarget. apply hlength_polar.
    apply lookup_lt_Some in Hi.
    pose proof (treeRadius_range (treeMaxRadius (isMobile (deviceInfo s))) i
                  (length (particles s))
                  (Rlt_le _ _ (treeMaxRadius_pos _)) Hi) as Hr.
    pose proof (treeMaxRadius_pos (isMobile (deviceInfo s))). lra.
Qed.



(** *** Frame of a layout pass *)

Lemma sameFrame_refl p : sameFrame p p.
Proof. repeat split. Qed.

Lemma sameFrame_write c v p : sameFrame p (withScale c (withTargetPosition v p)).
Proof. repeat split. Qed.

Lemma treeRel_frame mobile n i p p' :
  treeRel mobile n i p p' -> sameFrame p p' /\ (isPhoto p = true -> p' = p).
Proof.
  unfold treeRel. destruct (isPhoto p); intros ->.
  - split; [apply sameFrame_refl | done].
  - split; [apply sameFrame_write | done].
Qed.

Lemma scatterRel_frame mobile p p' :
  scatterRel mobile p p' -> sameFrame p p' /\ (isPhoto p = true -> p' = p).
Proof.
  unfold scatterRel. destruct (isPhoto p).
  - intros ->. split; [apply sameFrame_refl | done].
  - intros (u1 & u2 & u3 & u4 & u5 & ->). split; [apply sameFrame_write | done].
Qed.

Lemma focusRel_frame mobile t x p p' :
  focusRel mobile t x p p' -> sameFrame p p'.
Proof.
  unfold focusRel. destruct (decide (x = t)); [intros ->; apply sameFrame_refl|].
  destruct (isPhoto p).
  - intros (u1 & u2 & u3 & ->). apply sameFrame_write.
  - intros (u1 & u2 & u3 & u4 & u5 & ->). apply sameFrame_write.
Qed.

Lemma pass_framed (s : App) :
  wf s ->
  wp updateParticlePositions
     (fun _ s' =>
        shapeEq s s' /\
        framed (if decide (mode s = FOCUS) then false else true) s s') s.
Proof.
  intros Hwf. destruct (mode s) eqn:Hmode.
  - generalize (tree_pass s Hmode Hwf). apply wp_mono.
    intros _ s' (Hsh & Hout & Hin). split; [exact Hsh|].
    rewrite decide_False by done. intros r.
    destruct (decide (r ∈ particles s)) as [Hr|Hr].
    + apply list_elem_of_lookup_1 in Hr as [k Hk].
      destruct (Hin k r Hk) as (p & p' & Hp & Hp' & Hrel).
      rewrite Hp. exists p'. split; [done|].
      destruct (treeRel_frame _ _ _ _ _ Hrel) as [Hf Hkeep].
      split; [done|]. intros _ Hph. by rewrite (Hkeep Hph).
    + rewrite (Hout r Hr). destruct (heap s !! r) as [p|]; [|done].
      exists p. split; [done|]. split; [apply sameFrame_refl | done].
  - generalize (scatter_pass s Hmode Hwf). apply wp_mono.
    intros _ s' (Hsh & Hout & Hin). split; [exact Hsh|].
    rewrite decide_False by done. intros r.
    destruct (decide (r ∈ particles s)) as [Hr|Hr].
    + apply list_elem_of_lookup_1 in Hr as [k Hk].
      destruct (Hin k r Hk) as (p & p' & Hp & Hp' & Hrel).
      rewrite Hp. exists p'. split; [done|].
      destruct (scatterRel_frame _ _ _ Hrel) as [Hf Hkeep].
      split; [done|]. intros _ Hph. by rewrite (Hkeep Hph).
    + rewrite (Hout r Hr). destruct (heap s !! r) as [p|]; [|done].
      exists p. split; [done|]. split; [apply sameFrame_refl | done].
  - rewrite decide_True by done.
    destruct (decide (photos s = [])) as [Hnil|Hne].
    + unfold updateParticlePositions. do 4 wp_step. rewrite Hmode.
      do 2 wp_step. rewrite Hnil. cbn [length].
      rewrite decide_False by lia. wp_step.
      split; [apply shapeEq_refl|]. intros r.
      destruct (heap s !! r) as [p|]; [|done].
      exists p. split; [done|]. split; [apply sameFrame_refl | done].
    + generalize (focus_pass s Hmode Hwf Hne). apply wp_mono.
      intros _ s' (Hsh & t & pt & Ht & Hpt & Hstaged & Hout & Hin).
      split; [exact Hsh|]. intros r.
      destruct (decide (r = t)) as [->|Hrt].
      * rewrite Hpt. eexists. split; [exact Hstaged|].
        split; [apply sameFrame_write | done].
      * destruct (decide (r ∈ particles s)) as [Hr|Hr].
        -- destruct (Hin r Hr Hrt) as (p & p' & Hp & Hp' & Hrel).
           rewrite Hp. exists p'. split; [done|].
           split; [by eapply focusRel_frame | done].
        -- rewrite (Hout r Hr Hrt). destruct (heap s !! r) as [p|]; [|done].
           exists p. split; [done|]. split; [apply sameFrame_refl | done].
Qed.

(** A layout pass keeps a well-formed state well-formed. *)
Lemma framed_isPhotoRef b s s' r :
  framed b s s' ->
  Photos.isPhotoRef (heap s') r = Photos.isPhotoRef (heap s) r.
Proof.
  intros Hf. specialize (Hf r). unfold Photos.isPhotoRef.
  destruct (heap s !! r) as [p|].
  - destruct Hf as (p' & -> & (_ & _ & _ & _ & Hph) & _). exact Hph.
  - by rewrite Hf.
Qed.

Lemma wf_framed b s s' : wf s -> shapeEq s s' -> framed b s s' -> wf s'.
Proof.
  intros Hwf (_ & _ & Hps & Hphs & _) Hf. split; rewrite ?Hps, ?Hphs.
  - apply (wf_nodup s Hwf).
  - intros x Hx. destruct (wf_valid s Hwf x Hx) as [p Hp].
    specialize (Hf x). rewrite Hp in Hf. destruct Hf as (p' & -> & _).
    by eexists.
  - rewrite (wf_photos s Hwf). apply list_filter_iff. intros x.
    by rewrite (framed_isPhotoRef b s s' x Hf).
Qed.

(** C9. A layout pass, in every mode, returns normally and changes nothing
    but the object store and the position in the stream of draws; in the
    store every particle keeps [mesh], [basePosition], [velocity],
    [rotationSpeed] and [isPhoto]; and in TREE and SCATTER mode a photo
    particle also keeps [targetPosition] and [scale]. *)
Theorem layout_pass_frame (s : App) :
  wf s ->
  wp updateParticlePositions
     (fun _ s' =>
        shapeEq s s' /\
        framed (if decide (mode s = FOCUS) then false else true) s s') s.
Proof. exact (pass_framed s). Qed.

Lemma layout_pass_frame_witness :
  wf (sampleApp SCATTER) /\
  wp updateParticlePositions
     (fun _ s' =>
        shapeEq (sampleApp SCATTER) s' /\
        framed (if decide (mode (sampleApp SCATTER) = FOCUS)
                then false else true) (sampleApp SCATTER) s')
     (sampleApp SCATTER).
Proof.
  split; [apply sampleApp_wf|].
  apply (layout_pass_frame (sampleApp SCATTER)), sampleApp_wf.
Defined.

(** *** SCATTER *)

Lemma scatterRadius_range mobile (u : Unit01) :
  scatterMinRadius mobile
  <= scatterMinRadius mobile
     + u * (scatterMaxRadius mobile - scatterMinRadius mobile)
  < scatterMaxRadius mobile.
Proof.
  destruct u as [u [H0 H1]]; cbn [uval].
  unfold scatterMinRadius, scatterMaxRadius. destruct mobile; nra.
Qed.

Lemma scatterTarget_bounds mobile (u1 u2 u3 u4 : Unit01) :
  let v := shellTarget (scatterMinRadius mobile) (scatterMaxRadius mobile)
             1.5 u1 u2 u3 u4 in
  hlength v < scatterMaxRadius mobile /\
  Rabs (vy v) <= 0.75 * scatterMaxRadius mobile /\
  vlength v <= 1.25 * scatterMaxRadius mobile.
Proof.
  intros v.
  pose proof (scatterRadius_range mobile u1) as Hr.
  assert (Hmin : 0 < scatterMinRadius mobile)
    by (unfold scatterMinRadius; destruct mobile; lra).
  assert (Hh : hlength v
               <= scatterMinRadius mobile
                  + u1 * (scatterMaxRadius mobile - scatterMinRadius mobile)).
  { subst v. unfold shellTarget. apply hlength_spherical. lra. }
  assert (Hy : Rabs (vy v) <= 0.75 * scatterMaxRadius mobile).
  { subst v. unfold shellTarget; cbn [vy].
    destruct u4 as [u [H0 H1]]; cbn [uval].
    apply Rabs_le. unfold scatterMaxRadius. destruct mobile; lra. }
  split; [lra|]. split; [exact Hy|].
  apply (vlength_bound v (scatterMaxRadius mobile)
           (0.75 * scatterMaxRadius mobile)); [lra | lra | lra | lra | exact Hy |].
  nra.
Qed.

Lemma near_mod (m j : nat) : (j < 5)%nat -> ((5 * m + j) mod 5 = j)%nat.
Proof.
  intros Hj. pose proof (Nat.div_mod_eq (5 * m + j) 5) as Hdiv.
  pose proof (Nat.mod_upper_bound (5 * m + j) 5 ltac:(lia)) as Hlt. lia.
Qed.

Lemma sin_acos_minus_one : sin (acos (2 * 0 - 1)) = 0.
Proof.
  replace (2 * 0 - 1) with (Ropp 1) by lra.
  rewrite acos_opp, acos_1, Rminus_0_r. apply sin_PI.
Qed.

Lemma sin_acos_range (u : Unit01) : 0 <= sin (acos (2 * u - 1)) <= 1.
Proof.
  destruct u as [u [H0 H1]]; cbn [uval].
  pose proof (acos_bound (2 * u - 1)) as [Hlo Hhi].
  split; [by apply sin_ge_0|]. apply SIN_bound.
Qed.

Lemma shell_hlength (r phi theta y : R) :
  0 <= r -> 0 <= sin phi ->
  hlength (mkVector3 (r * sin phi * cos theta) y (r * sin phi * sin theta))
  = r * sin phi.
Proof.
  intros Hr Hs.
  replace (r * sin phi * cos theta) with (cos theta * (r * sin phi)) by ring.
  replace (r * sin phi * sin theta) with (sin theta * (r * sin phi)) by ring.
  apply hlength_polar. by apply Rmult_le_pos.
Qed.

(** One SCATTER iteration under the draws of [nearDraw]. *)
Lemma scatterBody_near mobile x i s c0 m p :
  heap s !! x = Some p ->
  randomCursor s = (c0 + 5 * m)%nat ->
  (forall k, randomStream s (c0 + k)%nat = ScatterSpec.nearDraw k) ->
  wp (scatterBody mobile x i)
     (fun _ s' =>
        shapeEq s s' /\
        (exists m', randomCursor s' = (c0 + 5 * m')%nat) /\
        exists p', heap s' = <[x := p']> (heap s) /\
          isPhoto p' = isPhoto p /\
          (isPhoto p = false -> targetPosition p' = origin)) s.
Proof.
  intros Hp Hc Hstream. unfold scatterBody. do 2 wp_step.
  destruct (isPhoto p) eqn:Hph.
  - wp_step. split; [apply shapeEq_refl|]. split; [by exists m|].
    exists p. split; [by rewrite insert_id|]. by rewrite Hph.
  - repeat wp_step.
    split; [repeat split|]. split; [exists (S m); rewrite Hc; lia|].
    eexists. split; [by rewrite insert_insert_eq|].
    split; [exact Hph|]. intros _.
    cbn [targetPosition withScale withTargetPosition]. rewrite Hc.
    replace (S (S (S (c0 + 5 * m))))%nat with (c0 + (5 * m + 3))%nat by lia.
    replace (S (S (c0 + 5 * m)))%nat with (c0 + (5 * m + 2))%nat by lia.
    rewrite !Hstream. unfold ScatterSpec.nearDraw.
    rewrite (near_mod m 2), (near_mod m 3) by lia.
    destruct (decide (2 = 2)%nat) as [_|Hn]; [|done].
    destruct (decide (3 = 2)%nat) as [Hn|_]; [done|].
    cbn [uval half]. rewrite sin_acos_minus_one. unfold origin.
    f_equal; lra.
Qed.

(** A SCATTER pass under the draws of [nearDraw] sends every decorative
    particle to the origin. *)
Lemma scatter_pass_near s :
  mode s = SCATTER -> wf s ->
  (forall k, randomStream s (randomCursor s + k)%nat = ScatterSpec.nearDraw k) ->
  wp updateParticlePositions
     (fun _ s' =>
        forall x p, x ∈ particles s' -> heap s' !! x = Some p ->
          isPhoto p = false -> targetPosition p = origin) s.
Proof.
  intros Hmode Hwf Hstream. unfold updateParticlePositions.
  do 4 wp_step. rewrite Hmode. do 2 wp_step. unfold forEach.
  set (I := fun (pre : list Ref) (s1 : App) =>
              shapeEq s s1 /\
              (exists m, randomCursor s1 = (randomCursor s + 5 * m)%nat) /\
              forall r p, heap s !! r = Some p ->
                exists p1, heap s1 !! r = Some p1 /\
                  isPhoto p1 = isPhoto p /\
                  (r ∈ pre -> isPhoto p = false ->
                   targetPosition p1 = origin)).
  assert (H0 : I [] s).
  { split; [apply shapeEq_refl|]. split; [exists 0%nat; lia|].
    intros r p Hp. exists p. split; [done|]. split; [done|].
    intros Hr. by apply elem_of_nil in Hr. }
  generalize (forEachFrom_inv (scatterBody (isMobile (deviceInfo s))) I
                (particles s) 0 [] s H0).
  intros Hloop. eapply wp_mono; [|apply Hloop].
  - intros _ s' (Hsh & _ & Hall) x p Hx Hp Hph.
    destruct Hsh as (_ & _ & Hps & _). rewrite Hps in Hx.
    destruct (wf_valid s Hwf x Hx) as [p0 Hp0].
    destruct (Hall x p0 Hp0) as (p1 & Hp1 & Hflag & Htarget).
    rewrite Hp in Hp1. injection Hp1 as <-.
    apply Htarget; [done | congruence].
  - intros pre x k s1 Hx (Hsh & (m & Hc) & Hall).
    destruct (wf_valid s Hwf x Hx) as [p0 Hp0].
    destruct (Hall x p0 Hp0) as (p1 & Hp1 & Hflag & _).
    assert (Hstream1 : forall j, randomStream s1 (randomCursor s + j)%nat
                                 = ScatterSpec.nearDraw j).
    { intros j. destruct Hsh as (_ & _ & _ & _ & _ & ->). apply Hstream. }
    generalize (scatterBody_near (isMobile (deviceInfo s)) x k s1
                  (randomCursor s) m p1 Hp1 Hc Hstream1).
    apply wp_mono.
    intros _ s2 (Hsh2 & Hc2 & p' & Hheap & Hflag' & Htarget').
    split; [by eapply shapeEq_trans|]. split; [done|].
    intros r p Hp. destruct (decide (r = x)) as [->|Hne].
    + rewrite Hp0 in Hp. injection Hp as <-.
      exists p'. rewrite Hheap, lookup_insert_eq. split; [done|].
      split; [congruence|]. intros _ Hdecor. apply Htarget'. congruence.
    + destruct (Hall r p Hp) as (q & Hq & Hqflag & Hqtarget).
      exists q. rewrite Hheap, lookup_insert_ne by done. split; [done|].
      split; [done|].
      intros [Hr|Hr%list_elem_of_singleton]%elem_of_app; [auto | done].
Qed.

(** One SCATTER iteration, with the draws it takes. *)
Lemma scatterBody_at mobile x i s c p :
  heap s !! x = Some p -> randomCursor s = c ->
  wp (scatterBody mobile x i)
     (fun _ s' =>
        shapeEq s s' /\
        if isPhoto p then s' = s
        else randomCursor s' = (c + 5)%nat /\
             heap s' = <[x := ScatterSpec.scatterAt mobile (randomStream s) c p]>
                         (heap s)) s.
Proof.
  intros Hp Hc. unfold scatterBody. do 2 wp_step.
  destruct (isPhoto p) eqn:Hph.
  - wp_step. split; [apply shapeEq_refl | done].
  - repeat wp_step. split; [repeat split|]. split; [rewrite Hc; lia|].
    rewrite insert_insert_eq. unfold ScatterSpec.scatterAt, shellTarget.
    rewrite !Nat.add_succ_r, Nat.add_0_r, Hc. reflexivity.
Qed.

Lemma decoratives_snoc s l x p :
  heap s !! x = Some p ->
  ScatterSpec.decoratives s (l ++ [x])
  = (ScatterSpec.decoratives s l + (if isPhoto p then 0 else 1))%nat.
Proof.
  intros Hp. unfold ScatterSpec.decoratives.
  rewrite filter_app, length_app, filter_cons, filter_nil.
  unfold Photos.isPhotoRef. rewrite Hp.
  destruct (isPhoto p); [rewrite decide_False by done|rewrite decide_True by done];
    reflexivity.
Qed.

(** A SCATTER pass, with the draws each particle gets: the decorative
    particle at index [k] takes the five draws that follow those of the
    decorative particles before it. *)
Lemma scatter_pass_draws s :
  mode s = SCATTER -> wf s ->
  wp updateParticlePositions
     (fun _ s' =>
        shapeEq s s' /\
        forall k x, particles s !! k = Some x ->
          exists p, heap s !! x = Some p /\
            heap s' !! x
            = Some (if isPhoto p then p
                    else ScatterSpec.scatterAt (isMobile (deviceInfo s))
                           (randomStream s)
                           (randomCursor s
                            + 5 * ScatterSpec.decorativesBefore s k) p)) s.
Proof.
  intros Hmode Hwf. unfold updateParticlePositions.
  do 4 wp_step. rewrite Hmode. do 2 wp_step. unfold forEach.
  set (mobile := isMobile (deviceInfo s)).
  set (I := fun (pre : list Ref) (s1 : App) =>
              shapeEq s s1 /\
              randomCursor s1
              = (randomCursor s + 5 * ScatterSpec.decoratives s pre)%nat /\
              (forall r, r ∉ pre -> heap s1 !! r = heap s !! r) /\
              forall j x, pre !! j = Some x ->
                exists p, heap s !! x = Some p /\
                  heap s1 !! x
                  = Some (if isPhoto p then p
                          else ScatterSpec.scatterAt mobile (randomStream s)
                                 (randomCursor s
                                  + 5 * ScatterSpec.decoratives s (take j pre))
                                 p)).
  assert (H0 : I [] s).
  { split; [apply shapeEq_refl|]. split; [cbn; lia|]. split; [done|].
    intros j x Hj. by rewrite lookup_nil in Hj. }
  generalize (forEachFrom_prefix (scatterBody mobile) I (particles s) 0 [] s
                H0).
  intros Hloop. eapply wp_mono; [|apply Hloop].
  - intros _ s' (Hsh & _ & _ & Hall). split; [exact Hsh|].
    intros k x Hk. destruct (Hall k x Hk) as (p & Hp & Hp').
    exists p. split; [done|]. exact Hp'.
  - intros pre x post k s1 Heq HI. unfold I in HI.
    destruct HI as (Hsh & Hc & Hout & Hall). cbn [app] in Heq.
    pose proof (wf_nodup s Hwf) as Hnd. rewrite Heq in Hnd.
    apply NoDup_app in Hnd as (_ & Hdisj & _).
    assert (Hx : x ∉ pre).
    { intros Hin. apply (Hdisj x Hin). by left. }
    assert (Hxin : x ∈ particles s).
    { rewrite Heq. apply elem_of_app. right. by left. }
    destruct (wf_valid s Hwf x Hxin) as [p Hp].
    assert (Hp1 : heap s1 !! x = Some p) by (by rewrite Hout).
    generalize (scatterBody_at mobile x k s1 _ p Hp1 Hc).
    apply wp_mono. intros _ s2 [Hsh2 Hstep].
    assert (Hstream : randomStream s1 = randomStream s)
      by (by destruct Hsh as (_ & _ & _ & _ & _ & ->)).
    rewrite Hstream in Hstep.
    unfold I. rewrite (decoratives_snoc s pre x p Hp).
    split; [by eapply shapeEq_trans|].
    assert (Hheap2 : heap s2
              = <[x := if isPhoto p then p
                       else ScatterSpec.scatterAt mobile (randomStream s)
                              (randomCursor s
                               + 5 * ScatterSpec.decoratives s pre) p]>
                  (heap s1)).
    { destruct (isPhoto p); [subst s2; by rewrite insert_id|].
      by destruct Hstep as [_ ->]. }
    split; [|split].
    + destruct (isPhoto p); [subst s2; lia|].
      destruct Hstep as [-> _]. lia.
    + intros r [Hr Hrx]%not_elem_of_app.
      rewrite Hheap2, lookup_insert_ne; [by apply Hout|].
      intros ->. apply Hrx. by left.
    + intros j y Hj.
      destruct (decide (j < length pre)%nat) as [Hlt|Hge].
      * rewrite lookup_app_l in Hj by done.
        destruct (Hall j y Hj) as (q & Hq & Hq1).
        assert (Hyx : y <> x).
        { intros ->. apply Hx. by eapply list_elem_of_lookup_2. }
        exists q. split; [done|].
        rewrite Hheap2, lookup_insert_ne by done.
        rewrite take_app_le by lia. exact Hq1.
      * rewrite lookup_app_r in Hj by lia.
        destruct (j - length pre)%nat as [|n] eqn:Hn; [|by destruct n].
        cbn in Hj. injection Hj as <-.
        exists p. split; [done|].
        rewrite Hheap2, lookup_insert_eq.
        assert (Hj : j = length pre) by lia. subst j.
        rewrite take_app_length. reflexivity.
Qed.

(** C1, as the code has it.  After a SCATTER pass (which returns normally,
    whatever the draws are) the target of every decorative particle of the
    collection is the point the code computes from four draws of the
    random stream, those that follow the five draws of each decorative
    particle before it: it lies [radius * sin phi] away from the vertical
    axis, with the sampled [radius] from [minRadius] (6 on mobile, 8 on a
    desktop) to less than [maxRadius] (15 or 20) and [sin phi] between 0
    and 1, so less than [maxRadius]; its height is at most
    [0.75 * maxRadius] in absolute value, and so it is at most
    [1.25 * maxRadius] away from the origin.  The distance to the origin has
    no lower bound: under the draws of [nearDraw] every decorative target is
    the origin itself. *)
Theorem scatter_targets_bounded (s : App) :
  mode s = SCATTER -> wf s ->
  wp updateParticlePositions
     (fun _ s' =>
        forall k x p, particles s' !! k = Some x -> heap s' !! x = Some p ->
          isPhoto p = false ->
          let mobile := isMobile (deviceInfo s') in
          let minRadius : R := if mobile then 6 else 8 in
          let maxRadius : R := if mobile then 15 else 20 in
          let c := (randomCursor s
                    + 5 * ScatterSpec.decorativesBefore s k)%nat in
          let u1 : R := randomStream s c in
          let u2 : R := randomStream s (c + 1)%nat in
          let u3 : R := randomStream s (c + 2)%nat in
          let u4 : R := randomStream s (c + 3)%nat in
          let radius := minRadius + u1 * (maxRadius - minRadius) in
          let phi := acos (2 * u3 - 1) in
          targetPosition p
          = mkVector3 (radius * sin phi * cos (u2 * PI * 2))
                      ((u4 - 0.5) * maxRadius * 1.5)
                      (radius * sin phi * sin (u2 * PI * 2)) /\
          minRadius <= radius < maxRadius /\ 0 <= sin phi <= 1 /\
          hlength (targetPosition p) = radius * sin phi /\
          hlength (targetPosition p) < maxRadius /\
          Rabs (vy (targetPosition p)) <= 0.75 * maxRadius /\
          vlength (targetPosition p) <= 1.25 * maxRadius) s /\
  ((forall k,
      randomStream s (randomCursor s + k)%nat = ScatterSpec.nearDraw k) ->
   wp updateParticlePositions
      (fun _ s' =>
         forall x p, x ∈ particles s' -> heap s' !! x = Some p ->
           isPhoto p = false ->
           targetPosition p = mkVector3 0 0 0 /\
           vlength (targetPosition p) = 0 /\
           vlength (targetPosition p)
           < (if isMobile (deviceInfo s') then 6 else 8)) s).
Proof.
  intros Hmode Hwf. split.
  - generalize (scatter_pass_draws s Hmode Hwf). apply wp_mono.
    intros _ s' (Hsh & Hin) k x p Hk Hp Hph.
    destruct Hsh as (Hdev & _ & Hps & _). rewrite Hps in Hk.
    cbn zeta. rewrite Hdev.
    destruct (Hin k x Hk) as (q & Hq & Hq').
    rewrite Hp in Hq'. injection Hq' as Heq.
    destruct (isPhoto q) eqn:Hqph.
    { subst p. congruence. }
    subst p. unfold ScatterSpec.scatterAt.
    cbn [targetPosition withScale withTargetPosition].
    set (c := (randomCursor s + 5 * ScatterSpec.decorativesBefore s k)%nat).
    pose proof (scatterRadius_range (isMobile (deviceInfo s))
                  (randomStream s c)) as Hr.
    pose proof (sin_acos_range (randomStream s (c + 2)%nat)) as Hsin.
    pose proof (scatterTarget_bounds (isMobile (deviceInfo s))
                  (randomStream s c) (randomStream s (c + 1)%nat)
                  (randomStream s (c + 2)%nat) (randomStream s (c + 3)%nat))
      as (Hh & Hy & Hv).
    unfold shellTarget, scatterMinRadius, scatterMaxRadius in *.
    split; [reflexivity|]. split; [exact Hr|]. split; [exact Hsin|].
    split; [|by repeat split].
    apply shell_hlength; [destruct (isMobile (deviceInfo s)); lra | tauto].
  - intros Hstream. generalize (scatter_pass_near s Hmode Hwf Hstream).
    apply wp_mono. intros _ s' H x p Hx Hp Hph.
    rewrite (H x p Hx Hp Hph). unfold origin, vlength; cbn [vx vy vz].
    replace (0 * 0 + 0 * 0 + 0 * 0) with 0 by ring. rewrite sqrt_0.
    split; [done|]. split; [done|]. destruct (isMobile _); lra.
Qed.

Lemma scatter_targets_bounded_witness :
  mode ScatterSpec.nearApp = SCATTER /\ wf ScatterSpec.nearApp /\
  (forall k,
     randomStream ScatterSpec.nearApp (randomCursor ScatterSpec.nearApp + k)%nat
     = ScatterSpec.nearDraw k) /\
  wp updateParticlePositions
     (fun _ s' =>
        forall x p, x ∈ particles s' -> heap s' !! x = Some p ->
          isPhoto p = false ->
          targetPosition p = mkVector3 0 0 0 /\
          vlength (targetPosition p) = 0)
     ScatterSpec.nearApp.
Proof.
  assert (Hstream : forall k,
            randomStream ScatterSpec.nearApp
              (randomCursor ScatterSpec.nearApp + k)%nat
            = ScatterSpec.nearDraw k) by reflexivity.
  split; [reflexivity|]. split; [apply dustApp_wf|].
  split; [exact Hstream|].
  destruct (scatter_targets_bounded ScatterSpec.nearApp eq_refl
              (dustApp_wf SCATTER ScatterSpec.nearDraw)) as [_ Hnear].
  generalize (Hnear Hstream). apply wp_mono.
  intros _ s' H x p Hx Hp Hph. destruct (H x p Hx Hp Hph) as (H1 & H2 & _).
  by split.
Defined.

(** C1, as stated, fails.  On a desktop scene with one decorative particle
    and the draws 3/4, 1/2, 1/2, 1/8 the SCATTER pass puts the target at
    (-17, -11.25, 0), further than [maxRadius] = 20 from the origin. *)
Lemma scatter_target_outside_shell :
  exists s' p,
    updateParticlePositions (dustApp SCATTER farDraws) = Some (tt, s') /\
    0%nat ∈ particles s' /\ heap s' !! 0%nat = Some p /\
    isPhoto p = false /\
    targetPosition p = mkVector3 (-17) (-11.25) 0 /\
    ~ (scatterMinRadius false <= vlength (targetPosition p)
       <= scatterMaxRadius false).
Proof.
  assert (Hwp : wp updateParticlePositions
            (fun _ s' => exists p,
               0%nat ∈ particles s' /\ heap s' !! 0%nat = Some p /\
               isPhoto p = false /\
               targetPosition p = mkVector3 (-17) (-11.25) 0)
            (dustApp SCATTER farDraws)).
  { unfold updateParticlePositions. do 4 wp_step.
    cbn [dustApp mode deviceInfo isMobile]. do 2 wp_step.
    cbn [dustApp particles]. unfold forEach. cbn [forEachFrom].
    wp_step. unfold scatterBody. do 2 wp_step.
    cbn [dust isPhoto]. repeat wp_step.
    eexists. split; [by apply list_elem_of_singleton|].
    split; [apply lookup_insert_eq|]. split; [reflexivity|].
    cbn [targetPosition withScale withTargetPosition dustApp randomStream
         randomCursor farDraws uval half].
    unfold scatterMinRadius, scatterMaxRadius.
    replace (2 * (1 / 2) - 1) with 0 by lra.
    replace (1 / 2 * PI * 2) with PI by lra.
    rewrite acos_0, sin_PI2, cos_PI, sin_PI. f_equal; lra. }
  apply wp_run in Hwp as ([] & s' & Hrun & p & Hin & Hp & Hph & Htarget).
  exists s', p. repeat (split; [assumption|]).
  rewrite Htarget. unfold vlength, scatterMaxRadius; cbn [vx vy vz].
  intros [_ Hle].
  assert (Hlt : sqrt (20 * 20) < sqrt (-17 * -17 + -11.25 * -11.25 + 0 * 0)).
  { apply sqrt_lt_1_alt. lra. }
  rewrite sqrt_square in Hlt by lra. lra.
Qed.

(** *** FOCUS *)

(** C4. With no photo particle in the collection, a FOCUS pass returns
    normally and leaves the whole state as it was: no target, no scale and
    no draw is touched. *)
Theorem focus_without_photos_noop (s : App) :
  mode s = FOCUS -> wf s ->
  (forall x p, x ∈ particles s -> heap s !! x = Some p -> isPhoto p = false) ->
  updateParticlePositions s = Some (tt, s).
Proof.
  intros Hmode Hwf Hnone.
  assert (Hnil : photos s = []).
  { apply elem_of_nil_inv. intros x Hx.
    apply (wf_photo_elem s x Hwf) in Hx as (Hx & p & Hp & Hph).
    rewrite (Hnone x p Hx Hp) in Hph. discriminate. }
  unfold updateParticlePositions, bind, gets. rewrite Hmode, Hnil.
  cbn [length]. by rewrite decide_False by lia.
Qed.

Lemma focus_without_photos_noop_witness :
  updateParticlePositions (dustApp FOCUS (fun _ => half))
  = Some (tt, dustApp FOCUS (fun _ => half)).
Proof.
  apply focus_without_photos_noop.
  - reflexivity.
  - apply dustApp_wf.
  - intros x p Hx Hp. cbn [dustApp particles heap] in Hx, Hp.
    apply list_elem_of_singleton in Hx. subst x.
    rewrite lookup_insert_eq in Hp. by injection Hp as <-.
Defined.

Lemma ringTarget_hlength mobile (u1 u2 u3 : Unit01) :
  hlength (ringTarget mobile u1 u2 u3) = focusPhotoRadius mobile + u2 * 10.
Proof.
  unfold ringTarget. apply hlength_polar.
  destruct u2 as [u [H0 H1]]; cbn [uval].
  unfold focusPhotoRadius. destruct mobile; lra.
Qed.

Lemma focusScale_distinct (mobile : bool) :
  (if mobile then 0.8 else 1 : R) <> focusScale mobile.
Proof. unfold focusScale. destruct mobile; lra. Qed.



End LayoutThm.

(** ** Photo collection *)

Module PhotosThm.
Import Layout LayoutSpec Photos PhotosSpec LayoutThm.

Lemma fifoPush_length {A : Type} (limit : nat) (q : list A) (a : A) :
  (1 <= limit)%nat -> (length q <= limit)%nat ->
  (length (fifoPush limit q a) <= limit)%nat.
Proof.
  intros Hl Hq. unfold fifoPush. rewrite length_app. cbn [length].
  destruct (decide (limit <= length q)%nat).
  - destruct q; cbn [tail length] in *; lia.
  - lia.
Qed.

Lemma foldl_fifoPush {A : Type} (limit : nat) (ts q : list A) :
  (1 <= limit)%nat -> (length q <= limit)%nat ->
  foldl (fifoPush limit) q ts
  = drop (length (q ++ ts) - limit) (q ++ ts).
Proof.
  intros Hl. revert q. induction ts as [|t ts IH]; intros q Hq.
  - cbn [foldl]. rewrite app_nil_r.
    replace (length q - limit)%nat with 0%nat by lia. done.
  - cbn [foldl]. rewrite IH by (by apply fifoPush_length).
    unfold fifoPush. destruct (decide (limit <= length q)%nat) as [Hfull|Hroom].
    + destruct q as [|a q']; [cbn in Hfull; lia|].
      cbn [tail]. rewrite <- app_assoc. cbn [app].
      set (L := q' ++ t :: ts).
      assert (HL : (limit <= length L)%nat).
      { subst L. rewrite length_app. cbn [length] in *. lia. }
      cbn [length].
      replace (S (length L) - limit)%nat
        with (S (length L - limit))%nat by lia.
      done.
    + rewrite <- app_assoc. done.
Qed.

Lemma wp_alloc_intro (p : Particle) (Q : Ref -> App -> Prop) s :
  (forall r, heap s !! r = None -> Q r (set_heap (<[r := p]> (heap s)) s)) ->
  wp (alloc p) Q s.
Proof.
  intros H. unfold wp, alloc. apply H.
  apply not_elem_of_dom, is_fresh.
Qed.

Lemma filter_ne_notin (a : Ref) (l : list Ref) :
  a ∉ l -> filter (fun p => p <> a) l = l.
Proof.
  induction l as [|x l IH]; [done|].
  intros [Hax Hal]%not_elem_of_cons.
  rewrite filter_cons, decide_True by done. by rewrite IH.
Qed.

Lemma filter_ne_head (a : Ref) (l : list Ref) :
  a ∉ l -> filter (fun p => p <> a) (a :: l) = l.
Proof.
  intros Ha. rewrite filter_cons, decide_False by (intros H; by apply H).
  by apply filter_ne_notin.
Qed.

Lemma isPhotoRef_insert_ne h r p x :
  x <> r -> isPhotoRef (<[r := p]> h) x = isPhotoRef h x.
Proof. intros Hne. unfold isPhotoRef. by rewrite lookup_insert_ne. Qed.

Lemma filter_isPhotoRef_insert h r p (l : list Ref) :
  r ∉ l ->
  filter (fun x => isPhotoRef (<[r := p]> h) x = true) l
  = filter (fun x => isPhotoRef h x = true) l.
Proof.
  induction l as [|x l IH]; [done|].
  intros [Hrx Hrl]%not_elem_of_cons.
  rewrite !filter_cons, isPhotoRef_insert_ne by done. by rewrite IH.
Qed.

Lemma wf_photos_nodup s : wf s -> NoDup (photos s).
Proof.
  intros Hwf. rewrite (wf_photos s Hwf). apply NoDup_filter, (wf_nodup s Hwf).
Qed.

Lemma wf_evict s old rest :
  wf s -> photos s = old :: rest ->
  wf (set_particles (filter (fun p => p <> old) (particles s))
        (set_photos rest s)).
Proof.
  intros Hwf Hph. split; wp_simpl.
  - apply NoDup_filter, (wf_nodup s Hwf).
  - intros x [_ Hx]%list_elem_of_filter. by apply (wf_valid s Hwf).
  - pose proof (wf_photos_nodup s Hwf) as Hnd. rewrite Hph in Hnd.
    apply NoDup_cons in Hnd as [Hold _].
    rewrite list_filter_filter.
    rewrite (list_filter_iff _
               (fun a => a <> old /\ isPhotoRef (heap s) a = true))
      by (intros a; tauto).
    rewrite <- list_filter_filter, <- (wf_photos s Hwf), Hph.
    symmetry. by apply filter_ne_head.
Qed.

Lemma wf_push s s' r p :
  wf s -> heap s !! r = None -> isPhoto p = true ->
  heap s' = <[r := p]> (heap s) ->
  particles s' = particles s ++ [r] ->
  photos s' = photos s ++ [r] ->
  wf s'.
Proof.
  intros Hwf Hr Hp Hh Hps Hphs.
  assert (Hnotin : r ∉ particles s).
  { intros Hin. apply (wf_valid s Hwf) in Hin as [q Hq]. congruence. }
  split; rewrite ?Hh, ?Hps, ?Hphs.
  - apply NoDup_app. split; [apply (wf_nodup s Hwf)|].
    split; [|apply NoDup_singleton].
    intros x Hx Hxr%list_elem_of_singleton. by subst x.
  - intros x [Hx|Hx%list_elem_of_singleton]%elem_of_app.
    + rewrite lookup_insert_ne by (intros ->; contradiction).
      by apply (wf_valid s Hwf).
    + subst x. rewrite lookup_insert_eq. by eexists.
  - rewrite filter_app, filter_isPhotoRef_insert by done.
    rewrite <- (wf_photos s Hwf). f_equal.
    rewrite filter_cons, decide_True; [done|].
    unfold isPhotoRef. by rewrite lookup_insert_eq.
Qed.

(** One call of [addPhotoToScene]. *)
Lemma addPhotoToScene_spec (texture : nat) (s : App) :
  wf s -> (1 <= maxPhotos (settings s))%nat ->
  wp (addPhotoToScene texture) (fun _ s' => addPost texture s s') s.
Proof.
  intros Hwf Hlimit. unfold addPhotoToScene. do 5 wp_step.
  assert (Hevict :
    exists s1, wf s1 /\ heap s1 = heap s /\ deviceInfo s1 = deviceInfo s /\
      settings s1 = settings s /\ mode s1 = mode s /\
      photos s1 = (if decide (maxPhotos (settings s) <= length (photos s))%nat
                   then tail (photos s) else photos s) /\
      particles s1
      = evicted (maxPhotos (settings s)) (photos s) (particles s) /\
      forall Q : unit -> App -> Prop, Q tt s1 ->
        wp (if decide (maxPhotos (settings s) <= length (photos s))%nat
            then match photos s with
                 | [] => throw
                 | oldPhoto :: rest =>
                     modify (set_photos rest) ;;
                     modify (fun s0 =>
                       set_particles
                         (filter (fun p => p <> oldPhoto) (particles s0)) s0)
                 end
            else ret tt) Q s).
  { unfold evicted.
    destruct (decide (maxPhotos (settings s) <= length (photos s))%nat)
      as [Hfull|Hroom].
    - destruct (photos s) as [|old rest] eqn:Hph; [cbn in Hfull; lia|].
      exists (set_particles (filter (fun p => p <> old) (particles s))
                (set_photos rest s)).
      split; [by apply wf_evict|]. repeat (split; [reflexivity|]).
      intros Q HQ. by repeat wp_step.
    - exists s. split; [done|]. repeat (split; [reflexivity|]).
      intros Q HQ. by wp_step. }
  destruct Hevict as (s1 & Hwf1 & Hheap1 & Hdev1 & Hset1 & Hmode1 & Hph1
                      & Hps1 & Hrun).
  apply Hrun. clear Hrun. repeat wp_step.
  apply wp_alloc_intro. intros r Hr. cbn [heap set_randomCursor] in Hr.
  wp_simpl. repeat wp_step.
  split; [|split; [|split; [|split]]]; wp_simpl; try done.
  - eapply (wf_push s1 _ r);
      [exact Hwf1 | exact Hr | | wp_simpl; reflexivity ..]; reflexivity.
  - exists r. rewrite <- Hheap1. split; [done|].
    split; [unfold textureOf; by rewrite lookup_insert_eq|].
    split; [unfold isPhotoRef; by rewrite lookup_insert_eq|].
    split; [intros x Hx; by rewrite lookup_insert_ne|].
    split; [by rewrite Hph1 | by rewrite Hps1].
Qed.

Lemma photoCount_wf s : wf s -> photoCount s = length (photos s).
Proof. intros Hwf. unfold photoCount. by rewrite <- (wf_photos s Hwf). Qed.

Lemma addPost_textures texture s s' :
  wf s -> addPost texture s s' ->
  photoTextures s'
  = fifoPush (maxPhotos (settings s)) (photoTextures s) (Some texture).
Proof.
  intros Hwf (_ & _ & _ & _ & r & Hr & Htex & _ & Hother & Hphs & _).
  unfold photoTextures. rewrite Hphs. unfold fifoPush.
  rewrite length_map, map_app. cbn [map]. rewrite Htex. f_equal.
  assert (Hold : forall l : list Ref, l ⊆ photos s ->
            map (textureOf (heap s')) l = map (textureOf (heap s)) l).
  { intros l Hl. apply map_ext_in. intros x Hx%list_elem_of_In.
    unfold textureOf. rewrite Hother; [done|].
    intros ->. apply Hl in Hx.
    apply (wf_photo_elem s r Hwf) in Hx as (_ & p & Hp & _). congruence. }
  destruct (decide (maxPhotos (settings s) <= length (photos s))%nat).
  - destruct (photos s) as [|old rest]; [done|]. cbn [tail map].
    apply Hold. intros x Hx. by right.
  - by apply Hold.
Qed.

Lemma addPhotos_spec (textures : list nat) :
  forall s : App,
    wf s -> (1 <= maxPhotos (settings s))%nat ->
    (length (photos s) <= maxPhotos (settings s))%nat ->
    wp (addPhotos textures)
       (fun _ s' =>
          wf s' /\ settings s' = settings s /\
          (length (photos s') <= maxPhotos (settings s))%nat /\
          photoTextures s'
          = foldl (fifoPush (maxPhotos (settings s))) (photoTextures s)
              (map Some textures)) s.
Proof.
  induction textures as [|t ts IH]; intros s Hwf Hlimit Hlen.
  - cbn [addPhotos]. wp_step. done.
  - cbn [addPhotos]. wp_step.
    generalize (addPhotoToScene_spec t s Hwf Hlimit). apply wp_mono.
    intros _ s1 Hpost.
    pose proof (addPost_textures t s s1 Hwf Hpost) as Htex.
    destruct Hpost as (Hwf1 & _ & Hset & _ & r & _ & _ & _ & _ & Hphs & _).
    assert (Hlen1 : (length (photos s1) <= maxPhotos (settings s))%nat).
    { rewrite Hphs. by apply fifoPush_length. }
    rewrite <- Hset in Hlen1, Hlimit.
    generalize (IH s1 Hwf1 Hlimit Hlen1). apply wp_mono.
    intros _ s' (Hwf' & Hset' & Hlen' & Htex').
    rewrite Hset in *. split; [done|]. split; [congruence|]. split; [done|].
    rewrite Htex', Htex. done.
Qed.

(** The references behind a sequence of uploads: the new photo particles
    are new objects, queued behind the photos held before, and the objects
    held before are not written. *)
Lemma addPhotos_refs (textures : list nat) :
  forall s : App,
    wf s -> (1 <= maxPhotos (settings s))%nat ->
    (length (photos s) <= maxPhotos (settings s))%nat ->
    wp (addPhotos textures)
       (fun _ s' =>
          exists fresh : list Ref,
            length fresh = length textures /\
            (forall r, r ∈ fresh -> heap s !! r = None) /\
            photos s'
            = foldl (fifoPush (maxPhotos (settings s))) (photos s) fresh /\
            forall x, is_Some (heap s !! x) -> heap s' !! x = heap s !! x) s.
Proof.
  induction textures as [|t ts IH]; intros s Hwf Hlimit Hlen.
  - cbn [addPhotos]. wp_step. exists []. split; [done|].
    split; [intros r Hr; by apply elem_of_nil in Hr|]. done.
  - cbn [addPhotos]. wp_step.
    generalize (addPhotoToScene_spec t s Hwf Hlimit). apply wp_mono.
    intros _ s1 (Hwf1 & _ & Hset & _ & r & Hr & _ & Hisphoto & Hother & Hphs
                 & _).
    assert (Hlen1 : (length (photos s1) <= maxPhotos (settings s))%nat).
    { rewrite Hphs. by apply fifoPush_length. }
    rewrite <- Hset in Hlen1, Hlimit.
    generalize (IH s1 Hwf1 Hlimit Hlen1). apply wp_mono.
    intros _ s' (fresh & Hflen & Hfresh & Hphotos & Hkept).
    rewrite Hset in *.
    assert (Hr1 : is_Some (heap s1 !! r)).
    { unfold isPhotoRef in Hisphoto. destruct (heap s1 !! r); [by eexists|done]. }
    exists (r :: fresh). split; [cbn [length]; by rewrite Hflen|].
    split; [|split].
    + intros x [->|Hx]%elem_of_cons; [done|].
      assert (Hxr : x <> r).
      { intros ->. rewrite (Hfresh r Hx) in Hr1. by destruct Hr1. }
      rewrite <- (Hother x Hxr). by apply Hfresh.
    + cbn [foldl]. by rewrite Hphotos, Hphs.
    + intros x Hx.
      assert (Hxr : x <> r).
      { intros ->. rewrite Hr in Hx. by destruct Hx. }
      rewrite Hkept by (by rewrite Hother). by apply Hother.
Qed.

(** C3. Starting from a scene that holds at most [maxPhotos] photos, any
    sequence of uploads returns normally and leaves a well-formed scene.
    The photos held afterwards are the last [maxPhotos] of the photo
    particles held before followed by the new ones, in upload order, and so
    are the textures on show: each upload onto a full collection dropped the
    oldest photo.  A photo dropped from [photos] is gone from the particle
    collection too, whose photo particles are exactly [photos]; their
    number never exceeds [maxPhotos]. *)
Theorem photo_fifo_eviction (textures : list nat) (s : App) :
  wf s -> (1 <= maxPhotos (settings s))%nat ->
  (length (photos s) <= maxPhotos (settings s))%nat ->
  wp (addPhotos textures)
     (fun _ s' =>
        let all := photoTextures s ++ map Some textures in
        photoTextures s' = drop (length all - maxPhotos (settings s)) all /\
        photoCount s' = length (photos s') /\
        (photoCount s' <= maxPhotos (settings s))%nat /\
        wf s' /\
        filter (fun r => isPhotoRef (heap s') r = true) (particles s')
        = photos s' /\
        (exists fresh : list Ref,
           length fresh = length textures /\
           (forall r, r ∈ fresh -> heap s !! r = None) /\
           photos s'
           = drop (length (photos s ++ fresh) - maxPhotos (settings s))
               (photos s ++ fresh)) /\
        (forall r, r ∈ photos s -> r ∉ photos s' -> r ∉ particles s')) s.
Proof.
  intros Hwf Hlimit Hlen.
  generalize (wp_conj _ _ _ s (addPhotos_spec textures s Hwf Hlimit Hlen)
                (addPhotos_refs textures s Hwf Hlimit Hlen)).
  apply wp_mono.
  intros _ s' ((Hwf' & Hset' & Hlen' & Htex')
               & fresh & Hflen & Hfresh & Hphotos & Hkept). cbn zeta.
  rewrite (photoCount_wf s' Hwf').
  split; [|split; [done|split; [done|split; [done|split; [|split]]]]].
  - rewrite Htex'. apply foldl_fifoPush; [done|].
    unfold photoTextures. by rewrite length_map.
  - symmetry. apply (wf_photos s' Hwf').
  - exists fresh. split; [done|]. split; [done|].
    rewrite Hphotos. by apply foldl_fifoPush.
  - intros r Hr Hgone Hin.
    apply (wf_photo_elem s r Hwf) in Hr as (_ & p & Hp & Hph).
    apply Hgone. apply (wf_photo_elem s' r Hwf'). split; [done|].
    exists p. split; [|done]. rewrite Hkept; [done|]. by eexists.
Qed.

(** Six uploads into the sample scene, which shows one photo and allows
    five. *)
Lemma photo_fifo_eviction_witness :
  wf (sampleApp TREE) /\
  wp (addPhotos [1; 2; 3; 4; 5; 6]%nat)
     (fun _ s' =>
        let all := photoTextures (sampleApp TREE)
                   ++ map Some [1; 2; 3; 4; 5; 6]%nat in
        photoTextures s'
        = drop (length all - maxPhotos (settings (sampleApp TREE))) all /\
        photoCount s' = length (photos s') /\
        (photoCount s' <= maxPhotos (settings (sampleApp TREE)))%nat /\
        wf s' /\
        (forall r, r ∈ photos (sampleApp TREE) -> r ∉ photos s' ->
                   r ∉ particles s'))
     (sampleApp TREE).
Proof.
  split; [apply sampleApp_wf|].
  generalize (photo_fifo_eviction [1; 2; 3; 4; 5; 6]%nat (sampleApp TREE)
                (sampleApp_wf TREE) ltac:(cbn; lia) ltac:(cbn; lia)).
  apply wp_mono. intros _ s' H. cbn zeta in H |- *.
  destruct H as (H1 & H2 & H3 & H4 & _ & _ & H7). done.
Defined.

(** One upload onto a full collection: the oldest photo leaves both arrays
    and the new one is appended. *)
Lemma addPhoto_evicts_oldest (texture : nat) (s : App) old rest :
  wf s -> (1 <= maxPhotos (settings s))%nat ->
  photos s = old :: rest ->
  (maxPhotos (settings s) <= length (photos s))%nat ->
  wp (addPhotoToScene texture)
     (fun _ s' =>
        exists r, photos s' = rest ++ [r] /\
                  (old ∉ particles s') /\ r ∈ particles s' /\
                  textureOf (heap s') r = Some texture) s.
Proof.
  intros Hwf Hlimit Hph Hfull.
  generalize (addPhotoToScene_spec texture s Hwf Hlimit). apply wp_mono.
  intros _ s' (_ & _ & _ & _ & r & Hr & Htex & _ & _ & Hphs & Hps).
  exists r. unfold fifoPush in Hphs. unfold evicted in Hps.
  rewrite decide_True in Hphs, Hps by done. rewrite Hph in Hphs, Hps.
  split; [exact Hphs|]. rewrite Hps. split; [|split; [|done]].
  - intros [[Hne _]%list_elem_of_filter|Hin%list_elem_of_singleton]%elem_of_app.
    + by apply Hne.
    + subst r. assert (Hold : old ∈ photos s) by (rewrite Hph; left).
      apply (wf_photo_elem s old Hwf) in Hold as (_ & p & Hp & _). congruence.
  - apply elem_of_app. right. by apply list_elem_of_singleton.
Qed.

(** The copy without performance tiers: the new photo joins the queue, and
    on mobile the head leaves once the queue is longer than five, so that a
    queue of at most five stays one; on desktop it only grows. *)
Lemma part001_addPhotoToScene_spec (texture : nat) (s : App) :
  wf s ->
  wp (Part001.addPhotoToScene texture)
     (fun _ s' =>
        wf s' /\
        exists r,
          heap s !! r = None /\ textureOf (heap s') r = Some texture /\
          photos s'
          = (if decide (isMobile (deviceInfo s) = true
                        /\ 5 < length (photos s ++ [r]))%nat
             then tail (photos s ++ [r]) else photos s ++ [r]) /\
          (isMobile (deviceInfo s) = true -> (length (photos s) <= 5)%nat ->
           (length (photos s') <= 5)%nat)) s.
Proof.
  intros Hwf. unfold Part001.addPhotoToScene. repeat wp_step.
  apply wp_alloc_intro. intros r Hr. cbn [heap set_randomCursor] in Hr.
  wp_simpl. repeat wp_step.
  match goal with
  | |- wp _ _ ?s2 => set (S2 := s2)
  end.
  assert (Hwf2 : wf S2).
  { eapply (wf_push s S2 r);
      [exact Hwf | exact Hr | | subst S2; wp_simpl; reflexivity ..];
      reflexivity. }
  assert (Htex : textureOf (heap S2) r = Some texture).
  { subst S2. wp_simpl. unfold textureOf. by rewrite lookup_insert_eq. }
  assert (Hph2 : photos S2 = photos s ++ [r]) by reflexivity.
  destruct (decide (isMobile (deviceInfo s) = true
                    /\ 5 < length (photos s ++ [r]))%nat) as [[Hm Hlen]|Hno].
  - destruct (photos s ++ [r]) as [|old rest] eqn:Hpushed;
      [cbn in Hlen; lia|].
    repeat wp_step. split.
    + apply (wf_evict S2 old rest Hwf2). by rewrite Hph2.
    + exists r. split; [done|]. split; [done|].
      rewrite Hpushed, decide_True by done. split; [done|].
      intros _ Hle. cbn [tail].
      assert (Hl : length (old :: rest) = S (length (photos s)))
        by (rewrite <- Hpushed, length_app; cbn; lia).
      cbn [length] in Hl. lia.
  - wp_step. split; [done|]. exists r. split; [done|]. split; [done|].
    rewrite decide_False by done. split; [done|].
    intros Hm Hle. rewrite Hph2.
    rewrite length_app in *. cbn [length] in *.
    destruct (decide (5 < length (photos s) + 1)%nat); [tauto | lia].
Qed.

End PhotosThm.

(** ** Mode changes *)

Module ModeThm.
Import Layout LayoutSpec LayoutThm.

Lemma wf_set_mode m s : wf s -> wf (set_mode m s).
Proof. intros [H1 H2 H3]. by split. Qed.

(** [setMode(m)] returns normally on a well-formed scene, which stays
    well-formed, and the mode is [m] afterwards. *)
Lemma setMode_spec (m : Mode) (s : App) :
  wf s ->
  wp (setMode m)
     (fun _ s' => wf s' /\ mode s' = m /\ shapeEq (set_mode m s) s') s.
Proof.
  intros Hwf. unfold setMode. do 2 wp_step.
  pose proof (wf_set_mode m s Hwf) as Hwfm.
  generalize (pass_framed (set_mode m s) Hwfm). apply wp_mono.
  intros _ s' [Hsh Hf]. split; [by eapply wf_framed|].
  split; [|exact Hsh]. by destruct Hsh as (_ & _ & _ & _ & -> & _).
Qed.

End ModeThm.

(** ** Hand gestures *)

Module GestureThm.
Import Layout LayoutSpec ModeThm Gesture GestureSpec LayoutThm.

Lemma selected_qualifies m h :
  qualifies m h -> exists m', selected m h = Some m' /\ m' <> m.
Proof.
  unfold qualifies, selected. intros Hq.
  destruct (decide (pinchOf h < 0.05 /\ m <> FOCUS)) as [[_ H1]|N1].
  { exists FOCUS. split; [done|]. congruence. }
  destruct (decide (avgOf h < 0.25 /\ m <> TREE)) as [[_ H2]|N2].
  { exists TREE. split; [done|]. congruence. }
  destruct (decide (0.4 < avgOf h /\ m <> SCATTER)) as [[_ H3]|N3].
  { exists SCATTER. split; [done|]. congruence. }
  tauto.
Qed.

(** An evaluation outside the debounce window follows [selected]. *)
Lemma processGestures_selected g now landmarks h s :
  wf s ->
  ~ (now - lastGestureTime g < debounceTime g)%Z ->
  handOf landmarks = Some h ->
  wp (processGestures g now landmarks)
     (fun g' s' =>
        match selected (mode s) h with
        | Some m' =>
            mode s' = m' /\ wf s' /\ g' = set_lastGestureTime now g /\
            shapeEq (set_mode m' s) s'
        | None => g' = g /\ s' = s
        end) s.
Proof.
  intros Hwf Hout Hhand. unfold processGestures.
  rewrite decide_False by done.
  unfold handOf in Hhand.
  destruct (landmarks !! 4%nat) as [t|]; [|done].
  destruct (landmarks !! 8%nat) as [i|]; [|done].
  destruct (landmarks !! 0%nat) as [w|]; [|done].
  destruct (landmarks !! 12%nat) as [m|]; [|done].
  destruct (landmarks !! 16%nat) as [r|]; [|done].
  destruct (landmarks !! 20%nat) as [p|]; [|done].
  injection Hhand as <-. do 2 wp_step.
  unfold selected, pinchOf, avgOf;
    cbn [thumbTip indexTip wrist middleTip ringTip pinkyTip].
  repeat case_decide.
  all: try (wp_step; done).
  all: wp_step;
    match goal with
    | |- wp (setMode ?m') _ _ =>
        generalize (setMode_spec m' s Hwf); apply wp_mono;
        intros _ s' (Hwf' & Hm' & Hsh'); wp_step; done
    end.
Qed.

Lemma closedHand_hand : handOf closedHand = Some closedHandKeypoints.
Proof. reflexivity. Qed.

Lemma hypot_zero (a b : R) : hypot (a - a) (b - b) (0 - 0) = 0.
Proof.
  unfold hypot.
  replace ((a - a) * (a - a) + (b - b) * (b - b) + (0 - 0) * (0 - 0))
    with 0 by ring.
  apply sqrt_0.
Qed.

Lemma hypot_tenth : hypot (0.6 - 0.5) (0.5 - 0.5) (0 - 0) = 0.1.
Proof.
  unfold hypot.
  replace ((0.6 - 0.5) * (0.6 - 0.5) + (0.5 - 0.5) * (0.5 - 0.5)
           + (0 - 0) * (0 - 0)) with (0.1 * 0.1) by lra.
  apply sqrt_square. lra.
Qed.

Lemma closedHand_pinch : pinchOf closedHandKeypoints = 0.
Proof.
  unfold pinchOf, pinchDistance, closedHandKeypoints.
  cbn [thumbTip indexTip lx ly lz]. apply hypot_zero.
Qed.

Lemma closedHand_avg : avgOf closedHandKeypoints = 0.1.
Proof.
  unfold avgOf, avgDistance, wristDistance, closedHandKeypoints.
  cbn [indexTip middleTip ringTip pinkyTip wrist lx ly lz].
  rewrite hypot_tenth. lra.
Qed.

(** C2, as the code has it.  Outside the debounce window, on a frame whose
    pinch distance and mean fingertip distance are both below their
    thresholds, the handler returns normally and the mode is FOCUS
    afterwards, provided the mode was not FOCUS before. *)
Theorem pinch_before_fist (g : GestureRecognizer) (now : Z)
    (landmarks : list Landmark) (h : Hand) (s : App) :
  wf s ->
  ~ (now - lastGestureTime g < debounceTime g)%Z ->
  handOf landmarks = Some h ->
  pinchOf h < 0.05 -> avgOf h < 0.25 ->
  mode s <> FOCUS ->
  wp (processGestures g now landmarks) (fun _ s' => mode s' = FOCUS) s.
Proof.
  intros Hwf Hout Hhand Hpinch Havg Hmode.
  generalize (processGestures_selected g now landmarks h s Hwf Hout Hhand).
  apply wp_mono. intros g' s'. unfold selected.
  rewrite decide_True by done. tauto.
Qed.

Lemma pinch_before_fist_witness :
  wf (sampleApp TREE) /\
  ~ (1000 - lastGestureTime newGestureRecognizer
     < debounceTime newGestureRecognizer)%Z /\
  handOf closedHand = Some closedHandKeypoints /\
  pinchOf closedHandKeypoints < 0.05 /\ avgOf closedHandKeypoints < 0.25 /\
  mode (sampleApp TREE) <> FOCUS /\
  wp (processGestures newGestureRecognizer 1000 closedHand)
     (fun _ s' => mode s' = FOCUS) (sampleApp TREE).
Proof.
  assert (H1 : wf (sampleApp TREE)) by apply sampleApp_wf.
  assert (H2 : ~ (1000 - lastGestureTime newGestureRecognizer
                  < debounceTime newGestureRecognizer)%Z) by (cbn; lia).
  assert (H3 : pinchOf closedHandKeypoints < 0.05)
    by (rewrite closedHand_pinch; lra).
  assert (H4 : avgOf closedHandKeypoints < 0.25)
    by (rewrite closedHand_avg; lra).
  assert (H5 : mode (sampleApp TREE) <> FOCUS) by (cbn; congruence).
  repeat (split; [assumption || reflexivity|]).
  exact (pinch_before_fist newGestureRecognizer 1000 closedHand
           closedHandKeypoints (sampleApp TREE) H1 H2 closedHand_hand
           H3 H4 H5).
Defined.

(** C2, as stated, fails when the current mode is FOCUS: the pinch test is
    skipped and the same frame, outside the debounce window, selects TREE. *)
Lemma pinch_and_fist_in_focus_selects_tree :
  exists g' s',
    handOf closedHand = Some closedHandKeypoints /\
    pinchOf closedHandKeypoints < 0.05 /\
    avgOf closedHandKeypoints < 0.25 /\
    ~ (1000 - lastGestureTime newGestureRecognizer
       < debounceTime newGestureRecognizer)%Z /\
    mode (sampleApp FOCUS) = FOCUS /\
    processGestures newGestureRecognizer 1000 closedHand (sampleApp FOCUS)
    = Some (g', s') /\
    mode s' = TREE.
Proof.
  assert (Hout : ~ (1000 - lastGestureTime newGestureRecognizer
                    < debounceTime newGestureRecognizer)%Z) by (cbn; lia).
  pose proof (processGestures_selected newGestureRecognizer 1000 closedHand
                closedHandKeypoints (sampleApp FOCUS)
                (sampleApp_wf FOCUS) Hout closedHand_hand) as Hwp.
  apply wp_run in Hwp as (g' & s' & Hrun & Hsel).
  unfold selected in Hsel. cbn [sampleApp mode] in Hsel.
  rewrite decide_False in Hsel by tauto.
  rewrite decide_True in Hsel
    by (split; [rewrite closedHand_avg; lra | congruence]).
  exists g', s'. split; [reflexivity|].
  split; [rewrite closedHand_pinch; lra|].
  split; [rewrite closedHand_avg; lra|].
  split; [exact Hout|]. split; [reflexivity|]. split; [exact Hrun|]. tauto.
Qed.

(** Whatever the state of the recognizer, of two frames less than the
    debounce window apart at most one changes anything: if processing the
    first changed the recognizer or the application, processing the second
    changes neither. *)
Lemma debounce_at_most_one (g : GestureRecognizer) (t1 t2 : Z)
    (frame1 frame2 : list Landmark) (s : App) g1 s1 :
  (Z.abs (t2 - t1) < debounceTime g)%Z ->
  processGestures g t1 frame1 s = Some (g1, s1) ->
  (g1 = g /\ s1 = s) \/ processGestures g1 t2 frame2 s1 = Some (g1, s1).
Proof.
  intros Hnear Hrun. unfold processGestures in Hrun.
  case_decide; [injection Hrun as <- <-; by left|].
  destruct (frame1 !! 4%nat) as [t|]; [|done].
  destruct (frame1 !! 8%nat) as [i|]; [|done].
  destruct (frame1 !! 0%nat) as [w|]; [|done].
  destruct (frame1 !! 12%nat) as [m|]; [|done].
  destruct (frame1 !! 16%nat) as [r|]; [|done].
  destruct (frame1 !! 20%nat) as [p|]; [|done].
  unfold bind, gets in Hrun.
  assert (Hsuppressed : forall s', processGestures (set_lastGestureTime t1 g)
                          t2 frame2 s' = Some (set_lastGestureTime t1 g, s')).
  { intros s'. unfold processGestures.
    cbn [lastGestureTime debounceTime set_lastGestureTime].
    by rewrite decide_True by lia. }
  repeat case_decide.
  all: try (injection Hrun as <- <-; by left).
  all: match type of Hrun with
       | context [setMode ?m' ?s0] =>
           destruct (setMode m' s0) as [[[] s']|]; [|done]
       end; injection Hrun as <- <-; right; apply Hsuppressed.
Qed.

(** C7, as the code has it.  Take a first frame that is evaluated (it does
    not fall into the debounce window of an earlier transition) and
    qualifies in the current mode, and any second frame whose timestamp is
    less than the debounce window away from the first.  Processing the first
    returns normally, changes the mode and records its timestamp;
    processing the second then returns with the recognizer and the whole
    application state unchanged: one transition, not two. *)
Theorem debounce_single_transition (g : GestureRecognizer) (t1 t2 : Z)
    (frame1 frame2 : list Landmark) (h1 : Hand) (s : App) :
  wf s ->
  ~ (t1 - lastGestureTime g < debounceTime g)%Z ->
  handOf frame1 = Some h1 -> qualifies (mode s) h1 ->
  (Z.abs (t2 - t1) < debounceTime g)%Z ->
  wp (processGestures g t1 frame1)
     (fun g1 s1 =>
        mode s1 <> mode s /\ lastGestureTime g1 = t1 /\
        processGestures g1 t2 frame2 s1 = Some (g1, s1)) s.
Proof.
  intros Hwf Hout Hhand Hq Hnear.
  generalize (processGestures_selected g t1 frame1 h1 s Hwf Hout Hhand).
  apply wp_mono. intros g1 s1.
  destruct (selected_qualifies (mode s) h1 Hq) as (m' & -> & Hm').
  intros (Hmode & _ & -> & _).
  split; [congruence|]. split; [reflexivity|].
  unfold processGestures. cbn [lastGestureTime debounceTime set_lastGestureTime].
  rewrite decide_True by lia. reflexivity.
Qed.

Lemma debounce_single_transition_witness :
  wf (sampleApp TREE) /\
  ~ (1000 - lastGestureTime newGestureRecognizer
     < debounceTime newGestureRecognizer)%Z /\
  qualifies (mode (sampleApp TREE)) closedHandKeypoints /\
  (Z.abs (1100 - 1000) < debounceTime newGestureRecognizer)%Z /\
  wp (processGestures newGestureRecognizer 1000 closedHand)
     (fun g1 s1 =>
        mode s1 <> mode (sampleApp TREE) /\ lastGestureTime g1 = 1000%Z /\
        processGestures g1 1100 closedHand s1 = Some (g1, s1))
     (sampleApp TREE).
Proof.
  assert (H1 : wf (sampleApp TREE)) by apply sampleApp_wf.
  assert (H2 : ~ (1000 - lastGestureTime newGestureRecognizer
                  < debounceTime newGestureRecognizer)%Z) by (cbn; lia).
  assert (H3 : qualifies (mode (sampleApp TREE)) closedHandKeypoints).
  { left. split; [rewrite closedHand_pinch; lra | cbn; congruence]. }
  assert (H4 : (Z.abs (1100 - 1000) < debounceTime newGestureRecognizer)%Z)
    by (cbn; lia).
  repeat (split; [assumption|]).
  exact (debounce_single_transition newGestureRecognizer 1000 1100
           closedHand closedHand closedHandKeypoints (sampleApp TREE)
           H1 H2 closedHand_hand H3 H4).
Defined.

(** C7, as stated, fails for a pair of frames that both fall into the
    window of an earlier transition.  A fresh recognizer in SCATTER mode
    sees the closed hand at time 1000 and switches to FOCUS; the same hand
    at 1100 and at 1200 qualifies again (fist, and the mode is not TREE),
    the two timestamps are 100 ms apart, and neither frame changes
    anything: no transition instead of one. *)
Lemma debounce_pair_inside_window_no_transition :
  exists g1 s1,
    processGestures newGestureRecognizer 1000 closedHand (sampleApp SCATTER)
    = Some (g1, s1) /\
    handOf closedHand = Some closedHandKeypoints /\
    qualifies (mode s1) closedHandKeypoints /\
    (Z.abs (1200 - 1100) < debounceTime g1)%Z /\
    processGestures g1 1100 closedHand s1 = Some (g1, s1) /\
    processGestures g1 1200 closedHand s1 = Some (g1, s1).
Proof.
  assert (Hout : ~ (1000 - lastGestureTime newGestureRecognizer
                    < debounceTime newGestureRecognizer)%Z) by (cbn; lia).
  pose proof (processGestures_selected newGestureRecognizer 1000 closedHand
                closedHandKeypoints (sampleApp SCATTER)
                (sampleApp_wf SCATTER) Hout closedHand_hand) as Hwp.
  apply wp_run in Hwp as (g1 & s1 & Hrun & Hsel).
  unfold selected in Hsel. cbn [sampleApp mode] in Hsel.
  rewrite decide_True in Hsel
    by (split; [rewrite closedHand_pinch; lra | congruence]).
  destruct Hsel as (Hmode & _ & -> & _).
  exists (set_lastGestureTime 1000 newGestureRecognizer), s1.
  split; [exact Hrun|]. split; [reflexivity|]. split.
  { right. left. rewrite Hmode.
    split; [rewrite closedHand_avg; lra | congruence]. }
  split; [cbn; lia|].
  unfold processGestures.
  cbn [lastGestureTime debounceTime set_lastGestureTime newGestureRecognizer].
  rewrite !decide_True by lia. done.
Qed.

End GestureThm.

(** ** Touch input *)

Module TouchThm.
Import Layout LayoutSpec ModeThm Touch TouchSpec LayoutThm.

Lemma clamp_range (x : R) : - PI / 3 <= Rmax (- PI / 3) (Rmin (PI / 3) x) <= PI / 3.
Proof.
  pose proof PI_RGT_0 as Hpi. split.
  - apply Rmax_l.
  - apply Rmax_lub; [lra | apply Rmin_l].
Qed.

Lemma clearLongPress_rotation c :
  touchRotation (clearLongPress c) = touchRotation c.
Proof. unfold clearLongPress. by destruct (longPressTimer c). Qed.

(** A single-finger move never throws and never touches the application. *)
Lemma handleTouchMove_single c touch s :
  exists c', handleTouchMove c [touch] s = Some (c', s) /\
    (startX (touchStartPos c) <> 0 ->
       xInRange c' /\
       rotY (touchRotation c')
       = rotY (touchRotation c)
         + (clientX touch - startX (touchStartPos c)) * sensitivity c) /\
    (startX (touchStartPos c) = 0 -> c' = c).
Proof.
  unfold handleTouchMove. cbn [length lookup list_lookup].
  destruct (decide (startX (touchStartPos c) = 0)) as [H0|Hne].
  - rewrite decide_False by tauto.
    rewrite decide_False by (intros [[=] _]).
    exists c. split; [done|]. split; [tauto | done].
  - rewrite decide_True by done. eexists. split; [reflexivity|].
    split; [|tauto]. intros _. unfold xInRange.
    rewrite clearLongPress_rotation. cbn [touchRotation set_touchStartPos
      set_touchRotation rotX rotY].
    split; [apply clamp_range | reflexivity].
Qed.

(** Every handler keeps the x rotation within range. *)
Lemma handle_xInRange c e s c' s' :
  handle c e s = Some (c', s') -> xInRange c -> xInRange c'.
Proof.
  unfold xInRange. destruct e as [touches now timer|touches|now|];
    cbn [handle]; intros Hrun Hc.
  - unfold handleTouchStart in Hrun. repeat case_decide.
    + destruct (touches !! 0%nat); [|done]. by injection Hrun as <- <-.
    + destruct (touches !! 0%nat); [|done].
      destruct (touches !! 1%nat); [|done]. injection Hrun as <- <-.
      by rewrite clearLongPress_rotation.
    + by injection Hrun as <- <-.
  - unfold handleTouchMove in Hrun. repeat case_decide.
    + destruct (touches !! 0%nat); [|done]. injection Hrun as <- <-.
      rewrite clearLongPress_rotation. apply clamp_range.
    + destruct (touches !! 0%nat); [|done].
      destruct (touches !! 1%nat); [|done].
      unfold bind, gets in Hrun. case_decide.
      * destruct (setMode FOCUS s) as [[[] s1]|]; [|done].
        by injection Hrun as <- <-.
      * by injection Hrun as <- <-.
    + by injection Hrun as <- <-.
  - injection Hrun as <- <-. cbn [touchRotation set_pinchStartDistance
      set_lastTapTime]. by rewrite clearLongPress_rotation.
  - unfold handleLongPress, bind, gets in Hrun.
    destruct (setMode (nextMode (mode s)) s) as [[[] s1]|]; [|done].
    by injection Hrun as <- <-.
Qed.

Lemma handleAll_xInRange es :
  forall c s c' s',
    handleAll c es s = Some (c', s') -> xInRange c -> xInRange c'.
Proof.
  induction es as [|e es IH]; intros c s c' s' Hrun Hc.
  - by injection Hrun as <- <-.
  - cbn [handleAll] in Hrun. unfold bind in Hrun.
    destruct (handle c e s) as [[c1 s1]|] eqn:He; [|done].
    eapply IH; [exact Hrun|]. by eapply handle_xInRange.
Qed.

Lemma newTouchController_xInRange : xInRange newTouchController.
Proof.
  unfold xInRange. cbn. pose proof PI_RGT_0. lra.
Qed.

(** C10. A single-finger move returns normally and leaves the x rotation
    within [-PI/3, PI/3], whenever it was within it before or the drag
    branch runs; starting from the constructor state the x rotation is
    within that range after every sequence of events.  The y rotation has no
    bound: for every [B] some touch-start followed by one move brings it
    above [B], and some other below [-B]. *)
Theorem touch_rotation_x_clamped :
  (forall c touch s,
     exists c', handleTouchMove c [touch] s = Some (c', s) /\
       (xInRange c \/ startX (touchStartPos c) <> 0 -> xInRange c')) /\
  (forall es s c' s',
     handleAll newTouchController es s = Some (c', s') -> xInRange c') /\
  (forall (B : R) s,
     (exists es c', handleAll newTouchController es s = Some (c', s) /\
                    B < rotY (touchRotation c')) /\
     (exists es c', handleAll newTouchController es s = Some (c', s) /\
                    rotY (touchRotation c') < - B)).
Proof.
  split; [|split].
  - intros c touch s.
    destruct (handleTouchMove_single c touch s) as (c' & Hrun & Hdrag & Hskip).
    exists c'. split; [exact Hrun|]. intros Hc.
    destruct (decide (startX (touchStartPos c) = 0)) as [H0|Hne].
    + rewrite (Hskip H0). tauto.
    + by apply Hdrag.
  - intros es s c' s' Hrun.
    eapply handleAll_xInRange; [exact Hrun | apply newTouchController_xInRange].
  - intros B s.
    assert (Hmove : forall d : R,
      exists c', handleAll newTouchController
                   [TouchStart [mkTouchPoint 1 0] 0 1;
                    TouchMove [mkTouchPoint (1 + d) 0]] s = Some (c', s) /\
                 rotY (touchRotation c') = d * 0.005).
    { intros d. cbn [handleAll handle]. unfold bind at 1.
      unfold handleTouchStart. cbn [length lookup list_lookup].
      rewrite decide_True by done. unfold ret at 1. unfold bind at 1.
      match goal with
      | |- context [handleTouchMove ?c0 [?t]] =>
          destruct (handleTouchMove_single c0 t s) as (c' & Hrun & Hdrag & _)
      end.
      rewrite Hrun. exists c'. split; [reflexivity|].
      destruct Hdrag as [_ Hy]; [cbn; lra|]. rewrite Hy.
      cbn [newTouchController set_longPressTimer set_touchStartPos
           touchRotation touchStartPos sensitivity rotY startX clientX].
      ring. }
    split.
    + destruct (Hmove ((Rabs B + 1) * 200)) as (c' & Hrun & Hy).
      eexists _, c'. split; [exact Hrun|]. rewrite Hy.
      pose proof (Rle_abs B). lra.
    + destruct (Hmove (- (Rabs B + 1) * 200)) as (c' & Hrun & Hy).
      eexists _, c'. split; [exact Hrun|]. rewrite Hy.
      pose proof (Rle_abs B). lra.
Qed.


Lemma touch_distance_on_axis (d : R) :
  0 <= d -> getTouchDistance (mkTouchPoint 0 0) (mkTouchPoint d 0) = d.
Proof.
  intros Hd. unfold getTouchDistance; cbn.
  replace ((0 - d) * (0 - d) + (0 - 0) * (0 - 0)) with (d * d) by ring.
  by apply sqrt_square.
Qed.


End TouchThm.

(** ** Device detection and performance tiers *)

Module DeviceThm.
Import Device DeviceSpec.

Lemma performanceLevelOf_monotone (mobile : bool) (m1 c1 m2 c2 : R) :
  m1 <= m2 -> c1 <= c2 ->
  (rank (performanceLevelOf mobile m1 c1)
   <= rank (performanceLevelOf mobile m2 c2))%nat /\
  (rank (performanceLevelOf false m1 c1)
   <= rank (performanceLevelOf true m1 c1))%nat.
Proof.
  intros Hm Hc. unfold performanceLevelOf.
  split; [destruct mobile|]; repeat case_decide; cbn [rank]; try lia;
    exfalso; intuition lra.
Qed.

(** X1. The tier [DeviceDetector.detect()] computes never drops when the
    memory and the cores it works with, the fields [memory] and [cores] of
    its result, do not drop; for reported values other than 0 these are the
    reported values.  A mobile device is rated at least as high as a
    desktop that reports the same.  In the reported values themselves the
    tier is not monotone: a report of 0 counts as 4, so that a desktop
    reporting 0 for its memory is rated medium and one reporting 2 low. *)
Theorem performance_level_monotone
    (uaMobile touch1 touch2 ios1 ios2 android1 android2 : bool)
    (deviceMemory1 deviceMemory2 : option R)
    (hardwareConcurrency1 hardwareConcurrency2 : option R) :
  let d1 := detect uaMobile touch1 ios1 android1 deviceMemory1
              hardwareConcurrency1 in
  let d2 := detect uaMobile touch2 ios2 android2 deviceMemory2
              hardwareConcurrency2 in
  memory d1 <= memory d2 -> cores d1 <= cores d2 ->
  (rank (performanceLevel d1) <= rank (performanceLevel d2))%nat /\
  (forall m1 m2 c1 c2 : R,
     deviceMemory1 = Some m1 -> deviceMemory2 = Some m2 ->
     hardwareConcurrency1 = Some c1 -> hardwareConcurrency2 = Some c2 ->
     m1 <> 0 -> m2 <> 0 -> c1 <> 0 -> c2 <> 0 ->
     memory d1 = m1 /\ memory d2 = m2 /\ cores d1 = c1 /\ cores d2 = c2) /\
  (rank (performanceLevel
           (detect false touch1 ios1 android1 deviceMemory1
              hardwareConcurrency1))
   <= rank (performanceLevel
              (detect true touch1 ios1 android1 deviceMemory1
                 hardwareConcurrency1)))%nat /\
  performanceLevel (detect false touch1 ios1 android1 (Some 0) (Some 4))
  = medium /\
  performanceLevel (detect false touch1 ios1 android1 (Some 2) (Some 4))
  = low.
Proof.
  cbn zeta. unfold detect. cbn [memory cores performanceLevel isMobile].
  intros Hm Hc. split; [|split; [|split; [|split]]].
  - by apply performanceLevelOf_monotone.
  - intros m1 m2 c1 c2 -> -> -> -> H1 H2 H3 H4. unfold orFour.
    by rewrite !decide_False by done.
  - by apply (performanceLevelOf_monotone false _ _ _ _ (Rle_refl _)
                (Rle_refl _)).
  - unfold orFour, performanceLevelOf.
    repeat case_decide; try done; try lra; exfalso; intuition lra.
  - unfold orFour, performanceLevelOf.
    repeat case_decide; try done; try lra; exfalso; intuition lra.
Qed.

Lemma performance_level_monotone_witness :
  let d1 := detect true true false true (Some 3) (Some 4) in
  let d2 := detect true false true false (Some 6) (Some 8) in
  memory d1 <= memory d2 /\ cores d1 <= cores d2 /\
  (rank (performanceLevel d1) <= rank (performanceLevel d2))%nat.
Proof.
  cbn zeta.
  assert (H3 : (3 : R) <> 0) by lra. assert (H6 : (6 : R) <> 0) by lra.
  assert (H4 : (4 : R) <> 0) by lra. assert (H8 : (8 : R) <> 0) by lra.
  assert (Hm : memory (detect true true false true (Some 3) (Some 4))
               <= memory (detect true false true false (Some 6) (Some 8))).
  { unfold detect, orFour. cbn [memory]. rewrite !decide_False by done. lra. }
  assert (Hc : cores (detect true true false true (Some 3) (Some 4))
               <= cores (detect true false true false (Some 6) (Some 8))).
  { unfold detect, orFour. cbn [cores]. rewrite !decide_False by done. lra. }
  split; [exact Hm|]. split; [exact Hc|].
  exact (proj1 (performance_level_monotone true true false false true true
                  false (Some 3) (Some 6) (Some 4) (Some 8) Hm Hc)).
Defined.

(** X2. When the browser reports neither memory nor cores (or reports 0),
    [detect()] takes 4 and 4 and rates the device medium, mobile or not. *)
Theorem unreported_hardware_is_medium
    (uaMobile touch uaIOS uaAndroid : bool)
    (deviceMemory hardwareConcurrency : option R) :
  (deviceMemory = None \/ deviceMemory = Some 0) ->
  (hardwareConcurrency = None \/ hardwareConcurrency = Some 0) ->
  let d := detect uaMobile touch uaIOS uaAndroid deviceMemory
             hardwareConcurrency in
  memory d = 4 /\ cores d = 4 /\ performanceLevel d = medium.
Proof.
  intros Hm Hc.
  assert (Hm4 : orFour deviceMemory = 4).
  { destruct Hm as [->| ->]; cbn; [done|]. by rewrite decide_True. }
  assert (Hc4 : orFour hardwareConcurrency = 4).
  { destruct Hc as [->| ->]; cbn; [done|]. by rewrite decide_True. }
  cbn [detect memory cores performanceLevel]. rewrite Hm4, Hc4.
  split; [done|]. split; [done|].
  unfold performanceLevelOf.
  destruct uaMobile; repeat case_decide; try done; exfalso; intuition lra.
Qed.

Lemma unreported_hardware_is_medium_witness :
  let d := detect true true false true None (Some 0) in
  memory d = 4 /\ cores d = 4 /\ performanceLevel d = medium.
Proof.
  apply (unreported_hardware_is_medium true true false true None (Some 0));
    [by left | by right].
Defined.

(** X3. Every table [getPerformanceSettings()] can return allows at least
    five photos, has fewer main particles than particles and a pixel ratio
    of at most 2, and switches bloom and shadows off on the low tier and on
    a mobile device of the medium tier; the number of particles and of
    photos does not decrease with the tier.  The lightweight mode keeps the
    photo limit and the tier. *)
Theorem performance_settings_sound (level : PerformanceLevel)
    (mobile : bool) (devicePixelRatio : R) :
  let p := getPerformanceSettings level mobile devicePixelRatio in
  (5 <= maxPhotos p)%nat /\
  (mainParticleCount p < particleCount p)%nat /\
  pixelRatio p <= 2 /\
  (level = low \/ (level = medium /\ mobile = true) ->
   enableBloom p = false /\ enableShadows p = false) /\
  (forall level', (rank level <= rank level')%nat ->
     let p' := getPerformanceSettings level' mobile devicePixelRatio in
     (particleCount p <= particleCount p')%nat /\
     (maxPhotos p <= maxPhotos p')%nat) /\
  maxPhotos (lightweight p) = maxPhotos p /\
  settingsPerformanceLevel (lightweight p) = level /\
  (mainParticleCount (lightweight p) < particleCount (lightweight p))%nat.
Proof.
  cbn zeta. split; [destruct level; cbn; lia|].
  split; [destruct level; cbn; lia|].
  split.
  { pose proof (Rmin_l 2.0 devicePixelRatio).
    destruct level, mobile; cbn [getPerformanceSettings pixelRatio]; lra. }
  split.
  { intros [->|[-> ->]]; done. }
  split.
  { intros level' Hr. destruct level, level'; cbn in Hr |- *; lia. }
  split; [done|]. split; [by destruct level|]. cbn. lia.
Qed.

End DeviceThm.

(** ** Frame-rate monitor *)

Module MonitorThm.
Import Monitor.

Lemma checkPerformance_history m :
  fpsHistory (fst (checkPerformance m)) = fpsHistory m.
Proof. unfold checkPerformance. by repeat case_decide. Qed.

Lemma checkPerformance_warnings m :
  (lowFPSWarnings m <= lowFPSWarnings (fst (checkPerformance m)))%nat.
Proof. unfold checkPerformance. repeat case_decide; cbn; lia. Qed.

Lemma update_history m t :
  fpsHistory (fst (update m t)) = fpsHistory m \/
  exists f,
    fpsHistory (fst (update m t))
    = (if decide (60 < length (fpsHistory m ++ [f]))%nat
       then tail (fpsHistory m ++ [f]) else fpsHistory m ++ [f]).
Proof.
  unfold update. case_decide; [|by left].
  right. eexists. rewrite checkPerformance_history. reflexivity.
Qed.

Lemma update_history_length m t :
  (length (fpsHistory m) <= 60)%nat ->
  (length (fpsHistory (fst (update m t))) <= 60)%nat.
Proof.
  intros Hm. destruct (update_history m t) as [->|[f ->]]; [done|].
  case_decide as Hlen.
  - rewrite length_app in Hlen. cbn [length] in Hlen.
    destruct (fpsHistory m ++ [f]) as [|x l] eqn:E.
    + cbn. lia.
    + cbn [tail].
      assert (length (x :: l) = length (fpsHistory m) + 1)%nat
        by (rewrite <- E, length_app; cbn; lia).
      cbn [length] in *. lia.
  - lia.
Qed.

Lemma updates_history_length times :
  forall m, (length (fpsHistory m) <= 60)%nat ->
            (length (fpsHistory (updates m times)) <= 60)%nat.
Proof.
  induction times as [|t ts IH]; intros m Hm; [done|].
  cbn [updates]. apply IH. by apply update_history_length.
Qed.

(** X4. The monitor never keeps more than 60 one-second samples: from the
    constructor state the history has at most 60 entries after any run of
    frames, and a call of [update()] either leaves a history of at most 60
    as it is or appends the new sample and, if that makes 61, drops the
    oldest one. *)
Theorem fps_history_bounded :
  (forall (now : R) (times : list R),
     (length (fpsHistory (updates (newPerformanceMonitor now) times))
      <= 60)%nat) /\
  (forall m t,
     (length (fpsHistory m) <= 60)%nat ->
     fpsHistory (fst (update m t)) = fpsHistory m \/
     exists f,
       fpsHistory (fst (update m t))
       = drop (length (fpsHistory m ++ [f]) - 60) (fpsHistory m ++ [f])).
Proof.
  split.
  - intros now times. apply updates_history_length. cbn. lia.
  - intros m t Hm. destruct (update_history m t) as [->|[f Hf]]; [by left|].
    right. exists f. rewrite Hf. clear Hf.
    assert (Hl : length (fpsHistory m ++ [f]) = S (length (fpsHistory m)))
      by (rewrite length_app; cbn; lia).
    rewrite Hl. case_decide as Hlen.
    + replace (S (length (fpsHistory m)) - 60)%nat with 1%nat by lia.
      destruct (fpsHistory m ++ [f]); reflexivity.
    + replace (S (length (fpsHistory m)) - 60)%nat with 0%nat by lia.
      reflexivity.
Qed.

Lemma Math_round_bounds (x : R) (k : Z) :
  0 <= x <= IZR k -> (0 <= Math_round x <= k)%Z.
Proof.
  intros [H0 Hk]. unfold Math_round.
  destruct (base_Int_part (x + 0.5)) as [Hle Hgt].
  set (z := Int_part (x + 0.5)) in *. split.
  - apply Z.lt_succ_r, lt_IZR. rewrite succ_IZR. lra.
  - apply Z.lt_succ_r, lt_IZR. rewrite succ_IZR. lra.
Qed.

Lemma Math_round_integer (k : Z) : Math_round (IZR k) = k.
Proof.
  unfold Math_round. symmetry. apply Int_part_spec. lra.
Qed.

(** X5. When [update()] closes an interval of at least one second, the
    frame rate it records is between 0 and the number of frames counted in
    the interval, this call included, and it is exactly that number when
    the interval lasted 1000 ms. *)
Theorem fps_at_most_frames (m : PerformanceMonitor) (currentTime : R) :
  (0 <= frameCount m)%Z -> 1000 <= currentTime - lastTime m ->
  let m' := fst (update m currentTime) in
  (0 <= fps m' <= frameCount m + 1)%Z /\
  frameCount m' = 0%Z /\ lastTime m' = currentTime /\
  (currentTime - lastTime m = 1000 -> fps m' = (frameCount m + 1)%Z).
Proof.
  intros Hf He. cbn zeta. unfold update. rewrite decide_True by done.
  set (e := currentTime - lastTime m) in *.
  set (k := (frameCount m + 1)%Z).
  assert (Hk : 0 <= IZR k) by (apply IZR_le; lia).
  assert (Hx : 0 <= IZR k * 1000 / e <= IZR k).
  { split.
    - apply Rmult_le_pos; [nra | left; apply Rinv_0_lt_compat; lra].
    - apply (Rmult_le_reg_r e); [lra|].
      unfold Rdiv. rewrite Rmult_assoc, Rinv_l, Rmult_1_r by lra. nra. }
  assert (Hfields : forall m0,
            fps (fst (checkPerformance m0)) = fps m0 /\
            frameCount (fst (checkPerformance m0)) = frameCount m0 /\
            lastTime (fst (checkPerformance m0)) = lastTime m0).
  { intros m0. unfold checkPerformance. by repeat case_decide. }
  match goal with
  | |- context [checkPerformance ?m0] =>
      destruct (Hfields m0) as (-> & -> & ->)
  end.
  cbn [fps frameCount lastTime].
  split; [by apply Math_round_bounds|]. split; [done|]. split; [done|].
  intros E. subst k. rewrite E.
  replace (IZR (frameCount m + 1) * 1000 / 1000)
    with (IZR (frameCount m + 1)) by (field).
  apply Math_round_integer.
Qed.

Lemma fps_at_most_frames_witness :
  let m := {| fps := 60; frameCount := 29; lastTime := 0;
              fpsHistory := []; lowFPSWarnings := 0 |} in
  (0 <= frameCount m)%Z /\ 1000 <= 1000 - lastTime m /\
  (0 <= fps (fst (update m 1000)) <= 30)%Z /\
  fps (fst (update m 1000)) = 30%Z.
Proof.
  cbn zeta.
  set (m := {| fps := 60; frameCount := 29; lastTime := 0;
               fpsHistory := []; lowFPSWarnings := 0 |}).
  assert (H1 : (0 <= frameCount m)%Z) by (cbn; lia).
  assert (H2 : 1000 <= 1000 - lastTime m) by (cbn; lra).
  destruct (fps_at_most_frames m 1000 H1 H2) as (Hb & _ & _ & He).
  split; [exact H1|]. split; [exact H2|]. split; [exact Hb|].
  apply He. cbn. lra.
Defined.

Lemma update_warnings m t :
  (lowFPSWarnings m <= lowFPSWarnings (fst (update m t)))%nat.
Proof.
  unfold update. case_decide; [|done].
  etransitivity; [|apply checkPerformance_warnings]. done.
Qed.

Lemma updates_warnings times :
  forall m, (lowFPSWarnings m <= lowFPSWarnings (updates m times))%nat.
Proof.
  induction times as [|t ts IH]; intros m; [done|].
  cbn [updates]. etransitivity; [apply update_warnings | apply IH].
Qed.

Lemma checkPerformance_status m :
  (snd (checkPerformance m) = Some critical ->
   (3 <= lowFPSWarnings (fst (checkPerformance m)))%nat) /\
  ((3 <= lowFPSWarnings m)%nat ->
   snd (checkPerformance m) <> Some warning).
Proof.
  unfold checkPerformance.
  repeat case_decide; cbn [fst snd lowFPSWarnings] in *;
    split; intros; try done; lia.
Qed.

(** X6. The count of slow seconds is never reset: along any run of frames
    it does not decrease.  [update()] reports critical only with at least
    three slow seconds counted, and once three are counted it never reports
    a mere warning again, however well the frame rate did in between.  With
    fewer than ten samples [checkPerformance()] reports nothing and changes
    nothing. *)
Theorem low_fps_warnings_never_reset :
  (forall m times,
     (lowFPSWarnings m <= lowFPSWarnings (updates m times))%nat) /\
  (forall m t,
     snd (update m t) = Some critical ->
     (3 <= lowFPSWarnings (fst (update m t)))%nat) /\
  (forall m times t,
     (3 <= lowFPSWarnings m)%nat ->
     snd (update (updates m times) t) <> Some warning) /\
  (forall m,
     (length (fpsHistory m) < 10)%nat -> checkPerformance m = (m, None)).
Proof.
  split; [intros m times; apply updates_warnings|].
  split; [|split].
  - intros m t. unfold update. case_decide; [|done].
    apply checkPerformance_status.
  - intros m times t Hm.
    pose proof (updates_warnings times m) as Hmono.
    unfold update. case_decide; [|done].
    apply checkPerformance_status. cbn [lowFPSWarnings]. lia.
  - intros m Hlen. unfold checkPerformance. by rewrite decide_True.
Qed.

Lemma foldl_add_bounds (lo hi : Z) (l : list Z) :
  forall a : Z,
    Forall (fun x => (lo <= x <= hi)%Z) l ->
    (a + lo * Z.of_nat (length l) <= foldl Z.add a l
     <= a + hi * Z.of_nat (length l))%Z.
Proof.
  induction l as [|x l IH]; intros a Hall.
  - cbn. lia.
  - apply Forall_cons in Hall as [Hx Hl]. cbn [foldl length].
    specialize (IH (a + x)%Z Hl). lia.
Qed.

(** X7. [getAverageFPS()] returns the current [fps] while there is no
    sample, and otherwise a value between the smallest and the largest
    sample of the history. *)
Theorem average_fps_within_samples (m : PerformanceMonitor) (lo hi : Z) :
  Forall (fun x => (lo <= x <= hi)%Z) (fpsHistory m) ->
  (fpsHistory m = [] -> getAverageFPS m = IZR (fps m)) /\
  (fpsHistory m <> [] -> IZR lo <= getAverageFPS m <= IZR hi).
Proof.
  intros Hall. unfold getAverageFPS. split.
  - intros ->. by rewrite decide_True.
  - intros Hne. destruct (fpsHistory m) as [|x l] eqn:E; [done|].
    rewrite decide_False by (cbn; lia). unfold average.
    apply Forall_cons in Hall as [Hx Hl].
    pose proof (foldl_add_bounds lo hi l x Hl) as Hsum.
    set (total := foldl Z.add x l) in *.
    cbn [length]. rewrite S_INR, INR_IZR_INZ.
    set (n := Z.of_nat (length l)) in *.
    assert (Hn : (0 <= n)%Z) by (subst n; lia).
    assert (HnR : 0 < IZR n + 1) by (apply IZR_le in Hn; lra).
    assert (H1 : IZR lo * (IZR n + 1) <= IZR total).
    { rewrite <- (plus_IZR n 1), <- mult_IZR. apply IZR_le. nia. }
    assert (H2 : IZR total <= IZR hi * (IZR n + 1)).
    { rewrite <- (plus_IZR n 1), <- mult_IZR. apply IZR_le. nia. }
    split.
    + apply (Rmult_le_reg_r (IZR n + 1)); [done|].
      unfold Rdiv. rewrite Rmult_assoc, Rinv_l, Rmult_1_r by lra. done.
    + apply (Rmult_le_reg_r (IZR n + 1)); [done|].
      unfold Rdiv. rewrite Rmult_assoc, Rinv_l, Rmult_1_r by lra. done.
Qed.

Lemma average_fps_within_samples_witness :
  let m := {| fps := 60; frameCount := 0; lastTime := 0;
              fpsHistory := [58; 60; 59]%Z; lowFPSWarnings := 0 |} in
  Forall (fun x => (58 <= x <= 60)%Z) (fpsHistory m) /\
  IZR 58 <= getAverageFPS m <= IZR 60.
Proof.
  cbn zeta.
  set (m := {| fps := 60; frameCount := 0; lastTime := 0;
               fpsHistory := [58; 60; 59]%Z; lowFPSWarnings := 0 |}).
  assert (H : Forall (fun x => (58 <= x <= 60)%Z) (fpsHistory m)).
  { cbn. repeat (constructor; [lia|]). constructor. }
  split; [exact H|].
  apply (average_fps_within_samples m 58 60 H). discriminate.
Defined.

End MonitorThm.

(** ** Rotation from the hand and from touch *)

Module RotateThm.
Import Gesture Touch Rotate TouchSpec.

(** X8. For a palm centre inside the image (normalised coordinates between
    0 and 1) [mapHandToRotation] returns, the y rotation lies in [-1, 1] and
    the x rotation in [-0.75, 0.75]; the centre of the image gives no
    rotation, and the corners give the extreme values.  A frame with fewer
    than ten landmarks makes it throw. *)
Theorem hand_rotation_range (landmarks : list Landmark) (palmCenter : Landmark) :
  landmarks !! 9%nat = Some palmCenter ->
  0 <= lx palmCenter <= 1 -> 0 <= ly palmCenter <= 1 ->
  exists d,
    mapHandToRotation landmarks = Some d /\
    -1 <= rotationY d <= 1 /\ -0.75 <= rotationX d <= 0.75 /\
    (lx palmCenter = 0.5 -> rotationY d = 0) /\
    (ly palmCenter = 0.5 -> rotationX d = 0) /\
    (lx palmCenter = 1 -> rotationY d = 1) /\
    (ly palmCenter = 0 -> rotationX d = 0.75) /\
    forall shorter : list Landmark,
      (length shorter <= 9)%nat -> mapHandToRotation shorter = None.
Proof.
  intros H9 Hx Hy. unfold mapHandToRotation. rewrite H9.
  eexists. split; [reflexivity|]. cbn [rotationX rotationY].
  repeat split; try lra.
  intros shorter Hlen. by rewrite lookup_ge_None_2.
Qed.

Lemma hand_rotation_range_witness :
  exists d,
    mapHandToRotation (replicate 21 (mkLandmark 0.75 0.25 0)) = Some d /\
    -1 <= rotationY d <= 1 /\ -0.75 <= rotationX d <= 0.75.
Proof.
  destruct (hand_rotation_range (replicate 21 (mkLandmark 0.75 0.25 0))
              (mkLandmark 0.75 0.25 0)) as (d & Hd & Hy & Hx & _).
  - reflexivity.
  - cbn [lx]. lra.
  - cbn [ly]. lra.
  - exists d. auto.
Defined.

Lemma lerp_offset (x y t : R) : lerp x y t - y = (1 - t) * (x - y).
Proof. unfold lerp. ring. Qed.

Lemma update_offset c r :
  rotY (update c r) - rotY (touchRotation c)
  = 0.9 * (rotY r - rotY (touchRotation c)) /\
  rotX (update c r) - rotX (touchRotation c)
  = 0.9 * (rotX r - rotX (touchRotation c)).
Proof.
  unfold update. cbn [rotX rotY]. rewrite !lerp_offset.
  unfold rotationSpeed. split; lra.
Qed.

Lemma updateN_offset c n :
  forall r,
    rotY (updateN c n r) - rotY (touchRotation c)
    = 0.9 ^ n * (rotY r - rotY (touchRotation c)) /\
    rotX (updateN c n r) - rotX (touchRotation c)
    = 0.9 ^ n * (rotX r - rotX (touchRotation c)).
Proof.
  induction n as [|n IH]; intros r.
  - cbn [updateN pow]. split; ring.
  - cbn [updateN]. destruct (IH (update c r)) as [HY HX].
    destruct (update_offset c r) as [Hy Hx].
    rewrite HY, HX, Hy, Hx. rewrite <- !tech_pow_Rmult. split; ring.
Qed.

Lemma updateN_xrange c n :
  forall r,
    xInRange c -> - PI / 3 <= rotX r <= PI / 3 ->
    - PI / 3 <= rotX (updateN c n r) <= PI / 3.
Proof.
  unfold xInRange. induction n as [|n IH]; intros r Hc Hr; [exact Hr|].
  cbn [updateN]. apply IH; [exact Hc|].
  unfold update, lerp, rotationSpeed. cbn [rotX]. lra.
Qed.

(** X9. [update()] eases the rotation of the main group towards the touch
    rotation: each frame leaves nine tenths of the remaining difference on
    either axis, so after [n] frames without a touch event the difference is
    0.9^n times the initial one, it never grows and never changes sign.  The
    x rotation of the group stays within a third of a half turn either way
    when it started there and the touch rotation is in that range. *)
Theorem touch_rotation_eases (c : TouchController) (n : nat) (r : Rotation) :
  rotY (updateN c n r) - rotY (touchRotation c)
  = 0.9 ^ n * (rotY r - rotY (touchRotation c)) /\
  rotX (updateN c n r) - rotX (touchRotation c)
  = 0.9 ^ n * (rotX r - rotX (touchRotation c)) /\
  Rabs (rotY (updateN c n r) - rotY (touchRotation c))
  <= Rabs (rotY r - rotY (touchRotation c)) /\
  (xInRange c -> - PI / 3 <= rotX r <= PI / 3 ->
   - PI / 3 <= rotX (updateN c n r) <= PI / 3).
Proof.
  destruct (updateN_offset c n r) as [HY HX].
  split; [exact HY|]. split; [exact HX|]. split.
  - rewrite HY, Rabs_mult.
    assert (Hp : 0 <= 0.9 ^ n <= 1).
    { split; [apply pow_le; lra|].
      rewrite <- (pow1 n). apply pow_incr. lra. }
    rewrite (Rabs_pos_eq (0.9 ^ n)) by tauto.
    pose proof (Rabs_pos (rotY r - rotY (touchRotation c))). nra.
  - apply updateN_xrange.
Qed.

End RotateThm.

(** ** Taps and the visibility of the interface *)

Module TouchUIThm.
Import Touch TouchUI.

Lemma clearLongPress_timer c : longPressTimer (clearLongPress c) = None.
Proof. unfold clearLongPress. by destruct (longPressTimer c) eqn:E. Qed.

(** X10. Two [touchend] events in a row toggle the visibility of the
    interface exactly when the second comes more than 50 ms and less than
    300 ms after the first, whatever the controller held before; a third one
    inside the window of the second toggles it back.  The controller itself
    ends up as [handleTouchEnd] of the touch model leaves it. *)
Theorem double_tap_window (c : TouchController) (t1 t2 : Z) (ui : bool) :
  let r1 := handleTouchEnd c t1 ui in
  let r2 := handleTouchEnd (fst r1) t2 (snd r1) in
  (snd r2 = negb (snd r1) <-> (50 < t2 - t1 < 300)%Z) /\
  (snd r2 = snd r1 <-> ~ (50 < t2 - t1 < 300)%Z) /\
  (forall t3,
     (50 < t2 - t1 < 300)%Z -> (50 < t3 - t2 < 300)%Z ->
     snd (handleTouchEnd (fst r2) t3 (snd r2)) = snd r1) /\
  (forall s, Touch.handleTouchEnd c t1 s = Some (fst r1, s)) /\
  lastTapTime (fst r2) = t2 /\ pinchStartDistance (fst r2) = 0 /\
  longPressTimer (fst r2) = None.
Proof.
  cbn zeta. unfold handleTouchEnd, handleDoubleTap, Touch.handleTouchEnd.
  cbn [fst snd].
  assert (Hlast : forall t d, lastTapTime (clearLongPress
            (set_pinchStartDistance 0 (set_lastTapTime t d))) = t).
  { intros t d. unfold clearLongPress. cbn. by destruct (longPressTimer d). }
  assert (Hlast' : forall t d, lastTapTime (set_pinchStartDistance 0
            (set_lastTapTime t d)) = t) by done.
  rewrite !Hlast.
  set (ui1 := if decide (_ /\ _)%Z then negb ui else ui).
  split; [|split; [|split; [|split; [|split; [|split]]]]].
  - case_decide; [split; [lia|done]|].
    split; [destruct ui1; done | lia].
  - case_decide; [split; [destruct ui1; done | lia]|].
    split; [lia|done].
  - intros t3 H12 H23.
    rewrite !decide_True by lia. by destruct ui1.
  - done.
  - done.
  - done.
  - cbn [fst longPressTimer set_pinchStartDistance set_lastTapTime].
    apply clearLongPress_timer.
Qed.

End TouchUIThm.

(** ** Building the scene *)

Module SceneThm.
Import Layout LayoutSpec Photos PhotosSpec Scene SceneSpec.

Lemma wf_push_decorative s s' r p :
  wf s -> heap s !! r = None -> isPhoto p = false ->
  heap s' = <[r := p]> (heap s) ->
  particles s' = particles s ++ [r] ->
  photos s' = photos s ->
  wf s'.
Proof.
  intros Hwf Hr Hp Hh Hps Hphs.
  assert (Hnotin : r ∉ particles s).
  { intros Hin. apply (wf_valid s Hwf) in Hin as [q Hq]. congruence. }
  split; rewrite ?Hh, ?Hps, ?Hphs.
  - apply NoDup_app. split; [apply (wf_nodup s Hwf)|].
    split; [|apply NoDup_singleton].
    intros x Hx Hxr%list_elem_of_singleton. by subst x.
  - intros x [Hx|Hx%list_elem_of_singleton]%elem_of_app.
    + rewrite lookup_insert_ne by (intros ->; contradiction).
      by apply (wf_valid s Hwf).
    + subst x. rewrite lookup_insert_eq. by eexists.
  - rewrite filter_app, PhotosThm.filter_isPhotoRef_insert by done.
    rewrite <- (wf_photos s Hwf).
    rewrite filter_cons, decide_False; [by rewrite filter_nil, app_nil_r|].
    unfold isPhotoRef. rewrite lookup_insert_eq, Hp. done.
Qed.

Lemma creating_skip cfg candy s0 pre i s :
  ~ built cfg (isMobile (deviceInfo s0)) i ->
  creating cfg candy s0 pre s -> creating cfg candy s0 (pre ++ [i]) s.
Proof.
  intros Hb (Hwf & Hph & Hd & Hs & Hm & Hr & Hlen & Hdec).
  repeat (split; [done|]). split; [|done].
  rewrite filter_app, filter_cons, decide_False by done.
  by rewrite filter_nil, app_nil_r.
Qed.

Lemma pushDecorative_creating cfg candy s0 pre i map s :
  built cfg (isMobile (deviceInfo s0)) i ->
  (map = None \/
   (map = Some candy /\ Device.settingsPerformanceLevel cfg <> Device.low
    /\ isMobile (deviceInfo s0) = false)) ->
  creating cfg candy s0 pre s ->
  wp (pushDecorative map)
     (fun _ s' => creating cfg candy s0 (pre ++ [i]) s') s.
Proof.
  intros Hb Hmap (Hwf & Hph & Hd & Hs & Hm & Hr & Hlen & Hdec).
  unfold pushDecorative. do 13 wp_step.
  apply PhotosThm.wp_alloc_intro. intros r Hfresh.
  cbn [heap set_randomCursor] in Hfresh. wp_simpl. wp_step.
  assert (Hnotin : r ∉ particles s).
  { intros Hin. apply (wf_valid s Hwf) in Hin as [q Hq]. congruence. }
  split.
  { eapply (wf_push_decorative s _ r);
      [exact Hwf | exact Hfresh | | wp_simpl; reflexivity ..]; reflexivity. }
  repeat (split; [done|]). wp_simpl. split.
  - rewrite length_app, filter_app, length_app, Hlen.
    rewrite filter_cons, decide_True by done. done.
  - intros x [Hx|Hx%list_elem_of_singleton]%elem_of_app.
    + rewrite lookup_insert_ne by (intros ->; contradiction). by apply Hdec.
    + subst x. rewrite lookup_insert_eq. eexists. split; [reflexivity|].
      split; [reflexivity|]. split; [reflexivity|]. exact Hmap.
Qed.

Lemma mod_lt_4 (i : nat) : (i mod 4 <> 4)%nat.
Proof. pose proof (Nat.mod_upper_bound i 4). lia. Qed.

Lemma createParticle_creating cfg candy s0 pre i s :
  creating cfg candy s0 pre s ->
  wp (createParticle cfg candy i)
     (fun _ s' => creating cfg candy s0 (pre ++ [i]) s') s.
Proof.
  intros Hc. pose proof Hc as (_ & _ & Hd & _).
  unfold createParticle. case_decide as Hlow.
  { wp_step. apply creating_skip; [|done]. unfold built. tauto. }
  case_decide as Hmain.
  - do 2 wp_step. rewrite Hd. case_decide as Hshape.
    + case_decide as Hlevel.
      * apply pushDecorative_creating; [unfold built; tauto| |done].
        right. split; [done|]. split; [done|].
        destruct (isMobile (deviceInfo s0)); [|done].
        by apply mod_lt_4 in Hshape.
      * wp_step. apply creating_skip; [|done]. unfold built.
        destruct (decide (Device.settingsPerformanceLevel cfg = Device.low));
          tauto.
    + apply pushDecorative_creating; [unfold built; tauto | by left | done].
  - do 2 wp_step.
    apply pushDecorative_creating; [unfold built; tauto | by left |].
    destruct Hc as (Hwf & Hph & Hd' & Hs & Hm & Hr & Hlen & Hdec).
    split; [|done]. split; [apply Hwf | apply Hwf | apply Hwf].
Qed.

Lemma createParticles_spec cfg candy s :
  particles s = [] -> photos s = [] ->
  wp (createParticles cfg candy) (fun _ s' => createPost cfg candy s s') s.
Proof.
  intros Hps Hphs. unfold createParticles, forEach. wp_step.
  assert (H0 : creating cfg candy s [] s).
  { split; [by apply LayoutThm.wf_empty|]. repeat (split; [done|]).
    rewrite Hps. split; [done|]. intros x Hx. by apply elem_of_nil in Hx. }
  generalize (forEachFrom_inv (fun i _ => createParticle cfg candy i)
                (creating cfg candy s) (seq 0 (Device.particleCount cfg))
                0 [] s H0
                (fun pre x _ s1 _ =>
                   createParticle_creating cfg candy s pre x s1)).
  apply wp_mono. intros _ s1 (Hwf & Hph & Hd & Hs & Hm & Hr & Hlen & Hdec).
  generalize (LayoutThm.pass_framed s1 Hwf).
  apply wp_mono.
  intros _ s' ((Hd' & Hs' & Hps' & Hphs' & Hm' & Hr') & Hframed).
  split; [eapply LayoutThm.wf_framed; [exact Hwf | | exact Hframed]; done|].
  split; [congruence|]. split; [congruence|]. split; [congruence|].
  split; [congruence|]. split; [congruence|]. rewrite Hps'.
  split; [exact Hlen|].
  intros x [p [Hp [Hphoto [Hpos Hmap]]]]%Hdec.
  specialize (Hframed x). rewrite Hp in Hframed.
  destruct Hframed as (p' & Hp' & (Hmesh & _ & _ & _ & Hisphoto) & _).
  exists p'. split; [done|]. split; [congruence|]. by rewrite Hmesh.
Qed.

Lemma filter_length_mono {A : Type} (P Q : A -> Prop)
    `{!forall x, Decision (P x)} `{!forall x, Decision (Q x)} (l : list A) :
  (forall x, P x -> Q x) ->
  (length (filter P l) <= length (filter Q l))%nat.
Proof.
  intros HPQ. induction l as [|x l IH]; [done|].
  rewrite !filter_cons.
  destruct (decide (P x)) as [HP|HP].
  - rewrite decide_True by auto. cbn [length]. lia.
  - destruct (decide (Q x)); cbn [length]; lia.
Qed.

Lemma filter_all {A : Type} (P : A -> Prop) `{!forall x, Decision (P x)}
    (l : list A) :
  (forall x, P x) -> filter P l = l.
Proof.
  intros HP. induction l as [|x l IH]; [done|].
  rewrite filter_cons, decide_True by done. by rewrite IH.
Qed.

Lemma mod3_cases (n : nat) :
  ((n mod 3 = 0 /\ S n mod 3 = 1) \/ (n mod 3 = 1 /\ S n mod 3 = 2) \/
   (n mod 3 = 2 /\ S n mod 3 = 0))%nat.
Proof.
  pose proof (Nat.div_mod_eq n 3). pose proof (Nat.mod_upper_bound n 3).
  pose proof (Nat.div_mod_eq (S n) 3).
  pose proof (Nat.mod_upper_bound (S n) 3). lia.
Qed.

Lemma count_mod3 (n : nat) :
  (3 * length (filter (fun i => i mod 3 <> 0) (seq 0 n))
   + (match n mod 3 with 0 => 0 | 1 => 2 | _ => 1 end) = 2 * n)%nat.
Proof.
  induction n as [|n IH]; [done|].
  rewrite seq_S, filter_app, length_app. cbn [plus].
  rewrite filter_cons, filter_nil.
  destruct (mod3_cases n) as [[H HS]|[[H HS]|[H HS]]];
    rewrite H in *; rewrite HS.
  - rewrite decide_False by lia. cbn [length]. lia.
  - rewrite decide_True by lia. cbn [length]. lia.
  - rewrite decide_True by lia. cbn [length]. lia.
Qed.

Lemma built_count cfg mobile (n : nat) :
  (Device.settingsPerformanceLevel cfg <> Device.low ->
   length (filter (built cfg mobile) (seq 0 n)) = n) /\
  (Device.settingsPerformanceLevel cfg = Device.low ->
   (3 * length (filter (built cfg mobile) (seq 0 n)) <= 2 * n)%nat).
Proof.
  split.
  - intros Hlevel. rewrite filter_all; [by rewrite length_seq|].
    intros i. unfold built. tauto.
  - intros Hlevel.
    pose proof (filter_length_mono (built cfg mobile)
                  (fun i => i mod 3 <> 0)%nat (seq 0 n)) as Hle.
    pose proof (count_mod3 n) as Hcount.
    assert (Himp : forall i, built cfg mobile i -> (i mod 3 <> 0)%nat).
    { intros i [Hb _] Hi. apply Hb. by split. }
    specialize (Hle Himp). lia.
Qed.

(** X11. Started with empty arrays, as [init()] and [reinitialize()] start
    it, [createParticles()] returns and leaves a well-formed scene without
    photos.  Above the low tier it holds exactly [particleCount] particles;
    on the low tier at most two thirds of that.  Every particle is
    decorative, and only a desktop above the low tier has textured ones,
    showing the candy-cane texture; all of them are shown at the origin,
    from where the animation moves them. *)
Theorem createParticles_population (cfg : Device.PerformanceSettings)
    (candyCaneTexture : nat) (s : App) :
  particles s = [] -> photos s = [] ->
  wp (createParticles cfg candyCaneTexture)
     (fun _ s' =>
        wf s' /\ photos s' = [] /\
        settings s' = settings s /\ mode s' = mode s /\
        (Device.settingsPerformanceLevel cfg <> Device.low ->
         length (particles s') = Device.particleCount cfg) /\
        (Device.settingsPerformanceLevel cfg = Device.low ->
         (3 * length (particles s') <= 2 * Device.particleCount cfg)%nat) /\
        forall x, x ∈ particles s' ->
          exists p, heap s' !! x = Some p /\
            decoration cfg (isMobile (deviceInfo s)) candyCaneTexture p) s.
Proof.
  intros Hps Hphs.
  generalize (createParticles_spec cfg candyCaneTexture s Hps Hphs).
  apply wp_mono.
  intros _ s' (Hwf & Hph & Hd & Hs & Hm & Hr & Hlen & Hdec).
  destruct (built_count cfg (isMobile (deviceInfo s))
              (Device.particleCount cfg)) as [Hall Hlow].
  repeat (split; [done|]). rewrite Hlen. auto.
Qed.

Lemma createParticles_population_witness :
  let cfg := Device.getPerformanceSettings Device.low true 2 in
  let s := newApp true 5 (fun _ => half) in
  wp (createParticles cfg 0)
     (fun _ s' =>
        wf s' /\ photos s' = [] /\
        (3 * length (particles s') <= 2 * Device.particleCount cfg)%nat) s.
Proof.
  cbn zeta.
  generalize (createParticles_population
                (Device.getPerformanceSettings Device.low true 2) 0
                (newApp true 5 (fun _ => half)) eq_refl eq_refl).
  apply wp_mono. intros _ s' (Hwf & Hph & _ & _ & _ & Hlow & _).
  split; [done|]. split; [done|]. by apply Hlow.
Defined.

Lemma rebuild_spec cfg candy dflt s :
  particles s = [] -> photos s = [] -> (1 <= maxPhotos (settings s))%nat ->
  wp (createParticles cfg candy ;; createDefaultPhoto dflt)
     (fun _ s' => freshScene cfg candy dflt s s') s.
Proof.
  intros Hps Hphs Hmax. wp_step.
  generalize (createParticles_spec cfg candy s Hps Hphs).
  apply wp_mono.
  intros _ s1 (Hwf & Hph & Hd & Hs & Hm & Hr & Hlen & Hdec).
  unfold createDefaultPhoto.
  assert (Hmax1 : (1 <= maxPhotos (settings s1))%nat) by (by rewrite Hs).
  generalize (PhotosThm.addPhotoToScene_spec dflt s1 Hwf Hmax1).
  apply wp_mono.
  intros _ s' (Hwf' & Hd' & Hs' & Hm' & r & Hfresh & Htex & _ & Hsame
               & Hphotos & Hparts).
  split; [done|]. split; [congruence|]. split; [congruence|].
  split; [congruence|].
  unfold fifoPush in Hphotos. unfold evicted in Hparts.
  rewrite Hph in Hphotos, Hparts. cbn [length] in Hphotos, Hparts.
  rewrite decide_False in Hphotos by lia.
  rewrite decide_False in Hparts by lia.
  exists (particles s1), r. repeat (split; [done|]).
  intros x Hx. destruct (Hdec x Hx) as (p & Hp & Hdecor).
  exists p. split; [|done]. rewrite Hsame; [done|]. congruence.
Qed.

Lemma dispose_throws (l : list Ref) :
  forall i s x p,
    x ∈ l -> heap s !! x = Some p -> isPhoto p = true ->
    forEachFrom disposeParticle l i s = None.
Proof.
  induction l as [|a l IH]; intros i s x p Hx Hp Hphoto.
  - by apply elem_of_nil in Hx.
  - cbn [forEachFrom]. unfold bind at 1.
    unfold disposeParticle at 1, bind, deref.
    destruct (heap s !! a) as [q|] eqn:Hq; [|done].
    destruct (isPhoto q) eqn:Hqp; [done|]. cbn [ret].
    apply elem_of_cons in Hx as [->|Hx]; [congruence|].
    by apply (IH (S i) s x p).
Qed.

Lemma dispose_returns (l : list Ref) :
  forall i s,
    (forall x, x ∈ l -> exists p, heap s !! x = Some p /\ isPhoto p = false) ->
    forEachFrom disposeParticle l i s = Some (tt, s).
Proof.
  induction l as [|a l IH]; intros i s Hall; [done|].
  cbn [forEachFrom]. unfold bind at 1.
  unfold disposeParticle at 1, bind, deref.
  destruct (Hall a) as (q & Hq & Hqp); [by left|].
  rewrite Hq, Hqp. cbn [ret]. apply IH.
  intros x Hx. apply Hall. by right.
Qed.

Lemma reinitialize_throws cfg candy dflt s :
  wf s -> photos s <> [] -> reinitialize cfg candy dflt s = None.
Proof.
  intros Hwf Hne. destruct (photos s) as [|r rest] eqn:Hph; [done|].
  assert (Hr : r ∈ photos s) by (rewrite Hph; by left).
  apply (LayoutThm.wf_photo_elem s r Hwf) in Hr as (Hin & p & Hp & Hphoto).
  unfold reinitialize, forEach. unfold bind at 1. unfold gets.
  unfold bind at 1. by rewrite (dispose_throws _ 0 s r p Hin Hp Hphoto).
Qed.

Lemma freshScene_photos cfg candy dflt s s' :
  freshScene cfg candy dflt s s' ->
  photoTextures s' = [Some dflt] /\ photoCount s' = 1%nat /\
  photos s' <> [].
Proof.
  intros (Hwf & _ & _ & _ & ds & r & Hps & Hphs & Htex & _).
  unfold photoTextures. rewrite (PhotosThm.photoCount_wf s' Hwf), Hphs.
  cbn [map length]. by rewrite Htex.
Qed.

(** X12. The scene [init()] builds, [createParticles()] followed by
    [createDefaultPhoto()] from empty arrays with room for at least one
    photo, is well formed and ends with exactly one photo, the default one,
    after the decorative particles.  On that scene [reinitialize()], and so
    [enableLightweightMode()], throws: its clean-up loop reaches the photo
    particle, whose mesh is a group without geometry. *)
Theorem init_scene (cfg : Device.PerformanceSettings)
    (candyCaneTexture defaultTexture : nat) (s : App) :
  particles s = [] -> photos s = [] -> (1 <= maxPhotos (settings s))%nat ->
  wp (createParticles cfg candyCaneTexture ;;
      createDefaultPhoto defaultTexture)
     (fun _ s' =>
        freshScene cfg candyCaneTexture defaultTexture s s' /\
        photoTextures s' = [Some defaultTexture] /\
        photoCount s' = 1%nat /\
        forall cfg' candy' default',
          reinitialize cfg' candy' default' s' = None /\
          enableLightweightMode cfg' candy' default' s' = None) s.
Proof.
  intros Hps Hphs Hmax.
  generalize (rebuild_spec cfg candyCaneTexture defaultTexture s Hps Hphs Hmax).
  apply wp_mono. intros _ s' Hfresh.
  destruct (freshScene_photos _ _ _ _ _ Hfresh) as (Htex & Hcount & Hne).
  repeat (split; [done|]). intros cfg' candy' default'.
  destruct Hfresh as (Hwf & _). unfold enableLightweightMode.
  split; by apply reinitialize_throws.
Qed.

Lemma init_scene_witness :
  let cfg := Device.getPerformanceSettings Device.high false 1 in
  let s := newApp false 15 (fun _ => half) in
  wp (createParticles cfg 0 ;; createDefaultPhoto 1)
     (fun _ s' =>
        photoTextures s' = [Some 1%nat] /\
        enableLightweightMode cfg 0 1 s' = None) s.
Proof.
  cbn zeta.
  generalize (init_scene (Device.getPerformanceSettings Device.high false 1)
                0 1 (newApp false 15 (fun _ => half)) eq_refl eq_refl
                ltac:(cbn; lia)).
  apply wp_mono. intros _ s' (_ & Htex & _ & Hthrow).
  split; [done|]. apply Hthrow.
Defined.

(** X13. On a well-formed scene [reinitialize()] throws as soon as one
    photo is held; on a scene without
    photos, with room for at least one, it returns and leaves the freshly
    built scene of [init()], whatever particles were there before. *)
Theorem reinitialize_only_without_photos (cfg : Device.PerformanceSettings)
    (candyCaneTexture defaultTexture : nat) (s : App) :
  wf s ->
  (photos s <> [] ->
   reinitialize cfg candyCaneTexture defaultTexture s = None) /\
  (photos s = [] -> (1 <= maxPhotos (settings s))%nat ->
   wp (reinitialize cfg candyCaneTexture defaultTexture)
      (fun _ s' =>
         freshScene cfg candyCaneTexture defaultTexture s s' /\
         photoTextures s' = [Some defaultTexture]) s).
Proof.
  intros Hwf. split; [by apply reinitialize_throws|].
  intros Hphs Hmax. unfold reinitialize, forEach. do 3 wp_step.
  assert (Hloop : forEachFrom disposeParticle (particles s) 0 s
                  = Some (tt, s)).
  { apply dispose_returns. intros x Hx.
    destruct (wf_valid s Hwf x Hx) as [p Hp]. exists p. split; [done|].
    destruct (isPhoto p) eqn:Hphoto; [|done].
    assert (Hin : x ∈ photos s)
      by (apply (LayoutThm.wf_photo_elem s x Hwf); eauto).
    rewrite Hphs in Hin. by apply elem_of_nil in Hin. }
  unfold wp at 1. rewrite Hloop. do 4 wp_step.
  generalize (rebuild_spec cfg candyCaneTexture defaultTexture
                (set_photos [] (set_particles [] s)) eq_refl eq_refl Hmax).
  apply wp_mono. intros _ s' Hfresh.
  destruct (freshScene_photos _ _ _ _ _ Hfresh) as (Htex & _ & _).
  split; [exact Hfresh | exact Htex].
Qed.

Lemma reinitialize_only_without_photos_witness :
  wf (sampleApp TREE) /\
  reinitialize (Device.getPerformanceSettings Device.high false 1) 0 1
    (sampleApp TREE) = None.
Proof.
  split; [apply LayoutThm.sampleApp_wf|].
  apply (reinitialize_only_without_photos _ 0 1 (sampleApp TREE)
           (LayoutThm.sampleApp_wf TREE)).
  discriminate.
Defined.

(** X14. An upload with no file, or on a mobile device with a first file
    of more than 5 MiB, changes nothing.  Any other upload, so any size on
    a desktop and up to exactly 5 MiB on mobile, adds the first file of
    the selection, and only that one, as the newest photo. *)
Theorem upload_size_limit (files : list File) (s : App) :
  wf s -> (1 <= maxPhotos (settings s))%nat ->
  wp (upload files)
     (fun _ s' =>
        match files with
        | [] => s' = s
        | file :: _ =>
            if decide (isMobile (deviceInfo s) = true
                       /\ (5 * 1024 * 1024 < size file)%N)
            then s' = s
            else addPost (image file) s s'
        end) s.
Proof.
  intros Hwf Hmax. unfold upload, handleFileUpload.
  destruct files as [|file rest]; cbn [lookup list_lookup].
  - by do 2 wp_step.
  - do 3 wp_step. case_decide.
    + by wp_step.
    + wp_step. unfold onload. by apply PhotosThm.addPhotoToScene_spec.
Qed.

Lemma upload_size_limit_witness :
  wf (sampleApp TREE) /\
  wp (upload [mkFile (6 * 1024 * 1024) 9; mkFile 10 8])
     (fun _ s' => addPost 9 (sampleApp TREE) s') (sampleApp TREE).
Proof.
  split; [apply LayoutThm.sampleApp_wf|].
  generalize (upload_size_limit [mkFile (6 * 1024 * 1024) 9; mkFile 10 8]
                (sampleApp TREE) (LayoutThm.sampleApp_wf TREE)
                ltac:(cbn; lia)).
  apply wp_mono. intros _ s'. rewrite decide_False; [done|].
  intros [Hmobile _]. discriminate Hmobile.
Defined.

End SceneThm.

(** ** The three formations *)

Module FormationThm.
Import Layout LayoutSpec.

Lemma set_heap_self s : set_heap (heap s) s = s.
Proof. by destruct s. Qed.

(** A TREE iteration writes the object store only. *)
Lemma treeBody_heap_only mobile x i s :
  is_Some (heap s !! x) ->
  wp (treeBody mobile x i)
     (fun _ s' =>
        exists h, s' = set_heap h s /\
          forall y, is_Some (h !! y) <-> is_Some (heap s !! y)) s.
Proof.
  intros [p Hp]. unfold treeBody. do 2 wp_step.
  destruct (isPhoto p).
  - wp_step. exists (heap s). by rewrite set_heap_self.
  - repeat wp_step. eexists. split; [reflexivity|].
    intros y. destruct (decide (x = y)) as [->|Hne].
    + rewrite lookup_insert_eq, Hp. split; intros _; by eexists.
    + by rewrite !lookup_insert_ne.
Qed.

Lemma tree_pass_heap_only s :
  mode s = TREE -> wf s ->
  wp updateParticlePositions (fun _ s' => exists h, s' = set_heap h s) s.
Proof.
  intros Hmode Hwf. unfold updateParticlePositions.
  do 4 wp_step. rewrite Hmode. do 2 wp_step. unfold forEach.
  set (I := fun (_ : list Ref) (s1 : App) =>
              exists h, s1 = set_heap h s /\
                forall y, is_Some (h !! y) <-> is_Some (heap s !! y)).
  assert (H0 : I [] s).
  { exists (heap s). by rewrite set_heap_self. }
  generalize (forEachFrom_inv
                (treeBody (isMobile (deviceInfo s))) I (particles s) 0 [] s H0).
  intros Hloop. eapply wp_mono; [|apply Hloop].
  - intros _ s' (h & -> & _). by exists h.
  - intros pre x k s1 Hx (h & -> & Hdom).
    assert (Hsome : is_Some (heap (set_heap h s) !! x)).
    { wp_simpl. apply Hdom. by apply (wf_valid s Hwf). }
    generalize (treeBody_heap_only (isMobile (deviceInfo s)) x k _ Hsome).
    apply wp_mono. intros _ s2 (h2 & -> & Hdom2).
    exists h2. split; [reflexivity|].
    intros y. rewrite Hdom2. wp_simpl. apply Hdom.
Qed.

Lemma treeRel_twice mobile n k p0 p1 p2 :
  treeRel mobile n k p0 p1 -> treeRel mobile n k p1 p2 -> p2 = p1.
Proof.
  unfold treeRel. destruct (isPhoto p0) eqn:H0.
  - intros ->. by rewrite H0.
  - intros ->. cbn [isPhoto withScale withTargetPosition]. rewrite H0.
    by intros ->.
Qed.

(** X15. A TREE pass draws no random number and writes nothing but the
    object store, and the formation it leaves is a fixed point: a second
    TREE pass returns the very same state. *)
Theorem tree_pass_idempotent (s : App) :
  mode s = TREE -> wf s ->
  wp updateParticlePositions
     (fun _ s' =>
        randomCursor s' = randomCursor s /\
        updateParticlePositions s' = Some (tt, s')) s.
Proof.
  intros Hmode Hwf.
  generalize (wp_conj _ _ _ s (LayoutThm.tree_pass s Hmode Hwf)
                (wp_conj _ _ _ s (tree_pass_heap_only s Hmode Hwf)
                   (LayoutThm.pass_framed s Hwf))).
  apply wp_mono.
  intros _ s' (Hpost & (h & Hs') & Hsh & Hframed).
  split; [by rewrite Hs'|].
  assert (Hwf' : wf s') by (eapply LayoutThm.wf_framed; eassumption).
  assert (Hmode' : mode s' = TREE).
  { destruct Hsh as (_ & _ & _ & _ & -> & _). exact Hmode. }
  pose proof (wp_conj _ _ _ s' (LayoutThm.tree_pass s' Hmode' Hwf')
                (tree_pass_heap_only s' Hmode' Hwf')) as Hsecond.
  apply wp_run in Hsecond as ([] & s'' & Hrun & Hpost' & h' & Hs'').
  rewrite Hrun. f_equal. f_equal.
  rewrite Hs''. rewrite <- (set_heap_self s') at 2. f_equal.
  destruct Hpost as (Hshape & Hout & Hin).
  destruct Hpost' as (Hshape' & Hout' & Hin').
  assert (Hh' : heap s'' = h') by (rewrite Hs''; reflexivity).
  rewrite <- Hh'. apply map_eq. intros r.
  destruct Hshape as (Hdev & _ & Hps & _).
  destruct (decide (r ∈ particles s')) as [Hr|Hr]; [|by apply Hout'].
  apply list_elem_of_lookup_1 in Hr as [k Hk].
  destruct (Hin' k r Hk) as (p1 & p2 & Hp1 & Hp2 & Hrel').
  rewrite Hps in Hk. destruct (Hin k r Hk) as (p0 & p1' & _ & Hp1' & Hrel).
  rewrite Hp1 in Hp1'. injection Hp1' as <-.
  rewrite Hdev, Hps in Hrel'.
  rewrite Hp2, Hp1. f_equal. eapply treeRel_twice; eassumption.
Qed.

Lemma tree_pass_idempotent_witness :
  wp updateParticlePositions
     (fun _ s' => updateParticlePositions s' = Some (tt, s'))
     (sampleApp TREE).
Proof.
  generalize (tree_pass_idempotent (sampleApp TREE) eq_refl
                (LayoutThm.sampleApp_wf TREE)).
  apply wp_mono. intros _ s' [_ H]. exact H.
Defined.

Lemma unit_fraction (i n : nat) : (i < n)%nat -> 0 <= INR i / INR n < 1.
Proof.
  intros Hi. assert (Hn : 0 < INR n) by (apply lt_0_INR; lia).
  pose proof (pos_INR i) as H0. apply lt_INR in Hi. split.
  - apply Rmult_le_pos; [done|]. apply Rlt_le. by apply Rinv_0_lt_compat.
  - apply (Rmult_lt_reg_r (INR n)); [done|].
    unfold Rdiv. rewrite Rmult_assoc, Rinv_l by lra. lra.
Qed.

Lemma fraction_increasing (i j n : nat) :
  (i < j)%nat -> (j < n)%nat -> INR i / INR n < INR j / INR n.
Proof.
  intros Hij Hj. assert (Hn : 0 < INR n) by (apply lt_0_INR; lia).
  apply lt_INR in Hij. unfold Rdiv.
  apply Rmult_lt_compat_r; [by apply Rinv_0_lt_compat | done].
Qed.

Lemma treeHeight_pos (mobile : bool) : 0 < treeHeight mobile.
Proof. unfold treeHeight. destruct mobile; lra. Qed.

Lemma tree_decorative s s' i x p :
  treePost s s' -> particles s' !! i = Some x -> heap s' !! x = Some p ->
  isPhoto p = false ->
  targetPosition p
  = treeTarget (isMobile (deviceInfo s')) i (length (particles s')) /\
  scale p = (if isMobile (deviceInfo s') then 0.8 else 1).
Proof.
  intros (Hsh & _ & Hin) Hi Hp Hph.
  destruct Hsh as (Hdev & _ & Hps & _). rewrite Hps in Hi |- *. rewrite Hdev.
  destruct (Hin i x Hi) as (q & q' & Hq & Hq' & Hrel).
  rewrite Hp in Hq'. injection Hq' as <-.
  unfold treeRel in Hrel. destruct (isPhoto q) eqn:Hqph.
  - subst p. congruence.
  - by subst p.
Qed.

(** X16. After a TREE pass the decorative particle at index [i] of the [n]
    particles has the target [treeTarget i n] and the scale of the device:
    its height lies in [-H/2, H/2), its distance from the axis is the cone
    radius at [i], between a fifth of the maximal radius and that radius.
    A decorative particle at a larger index sits strictly higher and no
    farther from the axis.  The indices count the photo particles too. *)
Theorem tree_targets_in_cone (s : App) :
  mode s = TREE -> wf s ->
  wp updateParticlePositions
     (fun _ s' =>
        forall i x p, particles s' !! i = Some x -> heap s' !! x = Some p ->
          isPhoto p = false ->
          let mobile := isMobile (deviceInfo s') in
          let n := length (particles s') in
          targetPosition p = treeTarget mobile i n /\
          scale p = (if mobile then 0.8 else 1) /\
          - treeHeight mobile / 2 <= vy (targetPosition p)
            < treeHeight mobile / 2 /\
          hlength (targetPosition p) = treeRadius (treeMaxRadius mobile) i n /\
          0.2 * treeMaxRadius mobile <= hlength (targetPosition p)
            <= treeMaxRadius mobile /\
          forall j y q, (i < j)%nat ->
            particles s' !! j = Some y -> heap s' !! y = Some q ->
            isPhoto q = false ->
            vy (targetPosition p) < vy (targetPosition q) /\
            hlength (targetPosition q) <= hlength (targetPosition p)) s.
Proof.
  intros Hmode Hwf. generalize (LayoutThm.tree_pass s Hmode Hwf).
  apply wp_mono. intros _ s' Hpost i x p Hi Hp Hph. cbn zeta.
  destruct (tree_decorative s s' i x p Hpost Hi Hp Hph) as [Ht Hs].
  set (mobile := isMobile (deviceInfo s')) in *.
  set (n := length (particles s')) in *.
  assert (Hin : (i < n)%nat) by (by apply lookup_lt_Some in Hi).
  pose proof (unit_fraction i n Hin) as Hfrac.
  pose proof (treeHeight_pos mobile) as HH.
  pose proof (LayoutThm.treeMaxRadius_pos mobile) as HR.
  pose proof (LayoutThm.treeRadius_range (treeMaxRadius mobile) i n
                (Rlt_le _ _ HR) Hin) as Hrange.
  assert (Hh : hlength (targetPosition p)
               = treeRadius (treeMaxRadius mobile) i n).
  { rewrite Ht. unfold treeTarget. apply LayoutThm.hlength_polar. lra. }
  split; [done|]. split; [done|]. split; [|split; [done|split]].
  - rewrite Ht. unfold treeTarget; cbn [vy]. split; nra.
  - rewrite Hh. lra.
  - intros j y q Hij Hj Hq Hqph.
    destruct (tree_decorative s s' j y q Hpost Hj Hq Hqph) as [Htq _].
    fold mobile n in Htq.
    assert (Hjn : (j < n)%nat) by (by apply lookup_lt_Some in Hj).
    pose proof (fraction_increasing i j n Hij Hjn) as Hinc.
    pose proof (LayoutThm.treeRadius_range (treeMaxRadius mobile) j n
                  (Rlt_le _ _ HR) Hjn) as Hrangej.
    split.
    + rewrite Ht, Htq. unfold treeTarget; cbn [vy]. nra.
    + rewrite Hh, Htq. unfold treeTarget.
      rewrite LayoutThm.hlength_polar by lra.
      apply LayoutThm.treeRadius_antitone; [lra | lia | lia].
Qed.

Lemma tree_targets_in_cone_witness :
  mode (sampleApp TREE) = TREE /\ wf (sampleApp TREE) /\
  wp updateParticlePositions
     (fun _ s' =>
        forall i x p, particles s' !! i = Some x -> heap s' !! x = Some p ->
          isPhoto p = false ->
          targetPosition p
          = treeTarget (isMobile (deviceInfo s')) i (length (particles s')))
     (sampleApp TREE).
Proof.
  split; [reflexivity|]. split; [apply LayoutThm.sampleApp_wf|].
  generalize (tree_targets_in_cone (sampleApp TREE) eq_refl
                (LayoutThm.sampleApp_wf TREE)).
  apply wp_mono. intros _ s' H i x p Hi Hp Hph.
  apply (H i x p Hi Hp Hph).
Defined.

Lemma focusShell_bounds mobile (u1 u2 u3 u4 : Unit01) :
  let v := shellTarget (focusMinRadius mobile) (focusMaxRadius mobile)
             1 u1 u2 u3 u4 in
  hlength v < focusMaxRadius mobile /\
  Rabs (vy v) <= 0.5 * focusMaxRadius mobile.
Proof.
  intros v.
  assert (Hr : 0 <= focusMinRadius mobile
                    + u1 * (focusMaxRadius mobile - focusMinRadius mobile)
               < focusMaxRadius mobile).
  { destruct u1 as [u [H0 H1]]; cbn [uval].
    unfold focusMinRadius, focusMaxRadius. destruct mobile; nra. }
  split.
  - eapply Rle_lt_trans; [|apply Hr].
    subst v. unfold shellTarget. apply LayoutThm.hlength_spherical. lra.
  - subst v. unfold shellTarget; cbn [vy].
    destruct u4 as [u [H0 H1]]; cbn [uval].
    apply Rabs_le. unfold focusMaxRadius. destruct mobile; lra.
Qed.

Lemma ringTarget_bounds mobile (u1 u2 u3 : Unit01) :
  focusPhotoRadius mobile <= hlength (ringTarget mobile u1 u2 u3)
    < focusPhotoRadius mobile + 10 /\
  Rabs (vy (ringTarget mobile u1 u2 u3)) <= 5.
Proof.
  rewrite LayoutThm.ringTarget_hlength.
  destruct u2 as [u2 [H0 H1]], u3 as [u3 [H2 H3]]; cbn [uval].
  split; [lra|]. unfold ringTarget; cbn [vy]. apply Rabs_le. lra.
Qed.

(** X17. After a FOCUS pass over a scene with a photo, every particle of
    the collection is accounted for.  A photo particle is the subject, on
    stage, or it keeps the ordinary scale and has its target on the ring:
    from [focusPhotoRadius] to less than ten more from the axis, at most 5
    above or below the centre.  A decorative particle has its target less
    than [focusMaxRadius] from the axis and at most half of that above or
    below the centre, and a scale from 0.5 to less than 1. *)
Theorem focus_formation_bounded (s : App) :
  mode s = FOCUS -> wf s -> photos s <> [] ->
  wp updateParticlePositions
     (fun _ s' =>
        forall x p, x ∈ particles s' -> heap s' !! x = Some p ->
          let mobile := isMobile (deviceInfo s') in
          if isPhoto p then
            onStage mobile p \/
            (focusPhotoRadius mobile <= hlength (targetPosition p)
               < focusPhotoRadius mobile + 10 /\
             Rabs (vy (targetPosition p)) <= 5 /\
             scale p = (if mobile then 0.8 else 1))
          else
            hlength (targetPosition p) < focusMaxRadius mobile /\
            Rabs (vy (targetPosition p)) <= 0.5 * focusMaxRadius mobile /\
            0.5 <= scale p < 1) s.
Proof.
  intros Hmode Hwf Hne. generalize (LayoutThm.focus_pass s Hmode Hwf Hne).
  apply wp_mono.
  intros _ s' (Hsh & t & pt & Ht & Hpt & Hstaged & Hout & Hin) x p Hx Hp.
  destruct Hsh as (Hdev & _ & Hps & _). cbn zeta. rewrite Hdev.
  rewrite Hps in Hx.
  apply (LayoutThm.wf_photo_elem s t Hwf) in Ht as (Htp & pt' & Hpt' & Hph).
  rewrite Hpt in Hpt'. injection Hpt' as <-.
  destruct (decide (x = t)) as [->|Hxt].
  - rewrite Hstaged in Hp. injection Hp as <-.
    cbn [isPhoto staged withScale withTargetPosition]. rewrite Hph.
    left. split; reflexivity.
  - destruct (Hin x Hx Hxt) as (q & q' & Hq & Hq' & Hrel).
    rewrite Hp in Hq'. injection Hq' as <-.
    unfold focusRel in Hrel. rewrite decide_False in Hrel by done.
    destruct (isPhoto q) eqn:Hqph.
    + destruct Hrel as (u1 & u2 & u3 & ->).
      cbn [isPhoto targetPosition scale withScale withTargetPosition].
      rewrite Hqph. right.
      destruct (ringTarget_bounds (isMobile (deviceInfo s)) u1 u2 u3)
        as [Hh Hy].
      split; [done|]. split; [done|]. reflexivity.
    + destruct Hrel as (u1 & u2 & u3 & u4 & u5 & ->).
      cbn [isPhoto targetPosition scale withScale withTargetPosition].
      rewrite Hqph.
      destruct (focusShell_bounds (isMobile (deviceInfo s)) u1 u2 u3 u4)
        as [Hh Hy].
      split; [done|]. split; [done|].
      destruct u5 as [u5 [H0 H1]]; cbn [uval]. lra.
Qed.

Lemma focus_formation_bounded_witness :
  mode (sampleApp FOCUS) = FOCUS /\ wf (sampleApp FOCUS) /\
  photos (sampleApp FOCUS) <> [] /\
  wp updateParticlePositions
     (fun _ s' =>
        forall x p, x ∈ particles s' -> heap s' !! x = Some p ->
          isPhoto p = false -> 0.5 <= scale p < 1)
     (sampleApp FOCUS).
Proof.
  split; [reflexivity|]. split; [apply LayoutThm.sampleApp_wf|].
  split; [discriminate|].
  generalize (focus_formation_bounded (sampleApp FOCUS) eq_refl
                (LayoutThm.sampleApp_wf FOCUS) ltac:(discriminate)).
  apply wp_mono. intros _ s' H x p Hx Hp Hph.
  specialize (H x p Hx Hp). cbn zeta in H. rewrite Hph in H. tauto.
Defined.

(** X18. After a SCATTER pass every decorative particle has a scale from
    0.8 to less than 1.2, whatever the draws are. *)
Theorem scatter_scale_band (s : App) :
  mode s = SCATTER -> wf s ->
  wp updateParticlePositions
     (fun _ s' =>
        forall x p, x ∈ particles s' -> heap s' !! x = Some p ->
          isPhoto p = false -> 0.8 <= scale p < 1.2) s.
Proof.
  intros Hmode Hwf. generalize (LayoutThm.scatter_pass s Hmode Hwf).
  apply wp_mono.
  intros _ s' (Hsh & _ & Hin) x p Hx Hp Hph.
  destruct Hsh as (Hdev & _ & Hps & _). rewrite Hps in Hx.
  apply list_elem_of_lookup_1 in Hx as [k Hk].
  destruct (Hin k x Hk) as (q & q' & Hq & Hq' & Hrel).
  rewrite Hp in Hq'. injection Hq' as <-.
  unfold scatterRel in Hrel. destruct (isPhoto q) eqn:Hqph.
  - subst p. congruence.
  - destruct Hrel as (u1 & u2 & u3 & u4 & u5 & ->).
    cbn [scale withScale]. destruct u5 as [u5 [H0 H1]]; cbn [uval]. lra.
Qed.

Lemma scatter_scale_band_witness :
  mode (sampleApp SCATTER) = SCATTER /\ wf (sampleApp SCATTER) /\
  wp updateParticlePositions
     (fun _ s' =>
        forall x p, x ∈ particles s' -> heap s' !! x = Some p ->
          isPhoto p = false -> 0.8 <= scale p < 1.2)
     (sampleApp SCATTER).
Proof.
  split; [reflexivity|]. split; [apply LayoutThm.sampleApp_wf|].
  apply scatter_scale_band; [reflexivity | apply LayoutThm.sampleApp_wf].
Defined.

Lemma focus_pass_subject s k t :
  mode s = FOCUS -> wf s -> photos s !! k = Some t ->
  Math_floor (randomStream s (randomCursor s) * INR (length (photos s)))
  = Z.of_nat k ->
  wp updateParticlePositions
     (fun _ s' =>
        exists pt, heap s !! t = Some pt /\
          heap s' !! t = Some (staged (isMobile (deviceInfo s)) pt)) s.
Proof.
  intros Hmode Hwf Ht Hfloor. unfold updateParticlePositions.
  do 4 wp_step. rewrite Hmode. do 2 wp_step.
  assert (Hlen : (0 < length (photos s))%nat)
    by (apply lookup_lt_Some in Ht; lia).
  rewrite decide_True by done. do 2 wp_step.
  rewrite Hfloor. unfold array_get.
  replace (Z.of_nat k <? 0)%Z with false by (symmetry; apply Z.ltb_ge; lia).
  rewrite Nat2Z.id, Ht.
  assert (Htphotos : t ∈ photos s)
    by (eapply list_elem_of_lookup_2; eassumption).
  destruct (proj1 (LayoutThm.wf_photo_elem s t Hwf) Htphotos)
    as (Htp & pt & Hpt & Hph).
  repeat wp_step. rewrite insert_insert_eq.
  set (s1 := set_heap _ _).
  assert (Hs1 : shapeEq s s1) by (repeat split).
  assert (Hdom1 : forall x, x ∈ particles s -> is_Some (heap s1 !! x)).
  { intros x Hx. subst s1. wp_simpl.
    destruct (decide (t = x)) as [->|Hn].
    - rewrite lookup_insert_eq. by eexists.
    - rewrite lookup_insert_ne by done. by apply (wf_valid s Hwf). }
  generalize (LayoutThm.forEach_particles _
           (fun _ x => focusRel (isMobile (deviceInfo s)) t x) s s1
           (wf_nodup s Hwf) Hs1 Hdom1
           (fun k x s2 _ Hx => LayoutThm.focusBody_spec _ t x k s2 Hx)).
  apply wp_mono. intros _ s' (Hsh & Hout & Hin).
  exists pt. split; [done|].
  apply list_elem_of_lookup_1 in Htp as [kt Hkt].
  destruct (Hin kt t Hkt) as (p & p' & Hp & Hp' & Hrel).
  unfold focusRel in Hrel. rewrite decide_True in Hrel by done.
  subst p'. rewrite Hp', <- Hp. subst s1. wp_simpl.
  unfold staged. by rewrite lookup_insert_eq.
Qed.

Lemma floor_of_fraction (u : R) (k n : nat) :
  (0 < n)%nat ->
  INR k / INR n <= u < (INR k + 1) / INR n ->
  Math_floor (u * INR n) = Z.of_nat k.
Proof.
  intros Hn [Hlo Hhi]. unfold Math_floor. symmetry. apply Int_part_spec.
  assert (HnR : 0 < INR n) by (apply lt_0_INR; lia).
  rewrite <- INR_IZR_INZ.
  assert (H1 : INR k <= u * INR n).
  { apply (Rmult_le_compat_r (INR n)) in Hlo; [|lra].
    unfold Rdiv in Hlo. rewrite Rmult_assoc, Rinv_l, Rmult_1_r in Hlo by lra.
    exact Hlo. }
  assert (H2 : u * INR n < INR k + 1).
  { apply (Rmult_lt_compat_r (INR n)) in Hhi; [|lra].
    unfold Rdiv in Hhi. rewrite Rmult_assoc, Rinv_l, Rmult_1_r in Hhi by lra.
    exact Hhi. }
  lra.
Qed.

(** X30. Which photo a FOCUS pass puts on stage is decided by its first
    draw [u]: with [n] photos it is the one at index [k] of the photo list
    when [k / n <= u < (k + 1) / n]; with a single photo that is every
    draw.  That photo is on stage, enlarged, and no other photo particle
    is. *)
Theorem focus_subject_choice (s : App) (k : nat) (t : Ref) :
  mode s = FOCUS -> wf s -> photos s !! k = Some t ->
  INR k / INR (length (photos s))
    <= randomStream s (randomCursor s)
    < (INR k + 1) / INR (length (photos s)) ->
  wp updateParticlePositions
     (fun _ s' =>
        let mobile := isMobile (deviceInfo s') in
        (exists pt, heap s' !! t = Some pt /\ isPhoto pt = true /\
                    onStage mobile pt) /\
        forall x p, photoParticle s' x p -> x <> t -> ~ onStage mobile p) s.
Proof.
  intros Hmode Hwf Ht Hu.
  assert (Hlen : (0 < length (photos s))%nat)
    by (apply lookup_lt_Some in Ht; lia).
  assert (Hne : photos s <> []) by (intros E; rewrite E in Hlen; cbn in Hlen; lia).
  pose proof (floor_of_fraction _ k _ Hlen Hu) as Hfloor.
  generalize (wp_conj _ _ _ s
                (focus_pass_subject s k t Hmode Hwf Ht Hfloor)
                (LayoutThm.focus_pass s Hmode Hwf Hne)).
  apply wp_mono.
  intros _ s' ((pt & Hpt & Hstaged)
               & Hsh & t' & pt' & Ht' & Hpt' & Hstaged' & Hout & Hin).
  destruct Hsh as (Hdev & _ & Hps & _). cbn zeta. rewrite Hdev.
  assert (Htphotos : t ∈ photos s)
    by (eapply list_elem_of_lookup_2; eassumption).
  apply (LayoutThm.wf_photo_elem s t Hwf) in Htphotos
    as (Htp & q & Hq & Hqph).
  rewrite Hpt in Hq. injection Hq as <-.
  assert (Hsame : t' = t).
  { destruct (decide (t = t')) as [->|Hdiff]; [done|].
    destruct (Hin t Htp Hdiff) as (q & q' & Hq & Hq' & Hrel).
    rewrite Hpt in Hq. injection Hq as <-.
    rewrite Hstaged in Hq'. injection Hq' as <-.
    unfold focusRel in Hrel. rewrite decide_False in Hrel by done.
    rewrite Hqph in Hrel. destruct Hrel as (u1 & u2 & u3 & Hrel).
    apply (f_equal scale) in Hrel.
    cbn [scale staged withScale withTargetPosition] in Hrel.
    symmetry in Hrel.
    by apply (LayoutThm.focusScale_distinct (isMobile (deviceInfo s))) in Hrel. }
  subst t'. split.
  - exists (staged (isMobile (deviceInfo s)) pt).
    split; [done|]. split; [exact Hqph|]. split; reflexivity.
  - intros x p (Hx & Hp & Hxph) Hxt. rewrite Hps in Hx.
    destruct (Hin x Hx Hxt) as (q & q' & Hq & Hq' & Hrel).
    rewrite Hp in Hq'. injection Hq' as <-.
    unfold focusRel in Hrel. rewrite decide_False in Hrel by done.
    destruct (isPhoto q) eqn:Hqp.
    + destruct Hrel as (u1 & u2 & u3 & ->). intros [_ Hsc].
      cbn [scale withScale] in Hsc.
      by apply (LayoutThm.focusScale_distinct (isMobile (deviceInfo s))).
    + destruct Hrel as (u1 & u2 & u3 & u4 & u5 & ->).
      cbn [isPhoto withScale withTargetPosition] in Hxph. congruence.
Qed.

Lemma focus_subject_choice_witness :
  mode (sampleApp FOCUS) = FOCUS /\ wf (sampleApp FOCUS) /\
  photos (sampleApp FOCUS) !! 0%nat = Some 1%nat /\
  wp updateParticlePositions
     (fun _ s' =>
        exists pt, heap s' !! 1%nat = Some pt /\
                   onStage (isMobile (deviceInfo s')) pt)
     (sampleApp FOCUS).
Proof.
  split; [reflexivity|]. split; [apply LayoutThm.sampleApp_wf|].
  split; [reflexivity|].
  assert (Hu : INR 0 / INR (length (photos (sampleApp FOCUS)))
               <= randomStream (sampleApp FOCUS)
                    (randomCursor (sampleApp FOCUS))
               < (INR 0 + 1) / INR (length (photos (sampleApp FOCUS)))).
  { cbn. lra. }
  generalize (focus_subject_choice (sampleApp FOCUS) 0%nat 1%nat eq_refl
                (LayoutThm.sampleApp_wf FOCUS) eq_refl Hu).
  apply wp_mono. intros _ s' [(pt & Hpt & _ & Hstage) _]. by exists pt.
Defined.

End FormationThm.

(** ** Uploaded photos *)

Module UploadThm.
Import Layout LayoutSpec Photos PhotosSpec UploadSpec.

Lemma addPhotoToScene_placed (texture : nat) (s : App) :
  wf s -> (1 <= maxPhotos (settings s))%nat ->
  wp (addPhotoToScene texture)
     (fun _ s' =>
        exists r p, last (photos s') = Some r /\ heap s' !! r = Some p /\
                    placed (isMobile (deviceInfo s)) texture p) s.
Proof.
  intros Hwf Hlimit. unfold addPhotoToScene. do 5 wp_step.
  assert (Hevict :
    exists s1, heap s1 = heap s /\ deviceInfo s1 = deviceInfo s /\
      forall Q : unit -> App -> Prop, Q tt s1 ->
        wp (if decide (maxPhotos (settings s) <= length (photos s))%nat
            then match photos s with
                 | [] => throw
                 | oldPhoto :: rest =>
                     modify (set_photos rest) ;;
                     modify (fun s0 =>
                       set_particles
                         (filter (fun p => p <> oldPhoto) (particles s0)) s0)
                 end
            else ret tt) Q s).
  { destruct (decide (maxPhotos (settings s) <= length (photos s))%nat)
      as [Hfull|Hroom].
    - destruct (photos s) as [|old rest] eqn:Hph; [cbn in Hfull; lia|].
      exists (set_particles (filter (fun p => p <> old) (particles s))
                (set_photos rest s)).
      repeat (split; [reflexivity|]).
      intros Q HQ. by repeat wp_step.
    - exists s. repeat (split; [reflexivity|]).
      intros Q HQ. by wp_step. }
  destruct Hevict as (s1 & Hheap1 & Hdev1 & Hrun).
  apply Hrun. clear Hrun. repeat wp_step.
  apply PhotosThm.wp_alloc_intro. intros r Hr. wp_simpl. repeat wp_step.
  eexists r, _. split; [apply last_snoc|].
  split; [apply lookup_insert_eq|].
  rewrite Hdev1.
  set (u1 := randomStream s1 (randomCursor s1)).
  set (u2 := randomStream s1 (S (randomCursor s1))).
  set (u3 := randomStream s1 (S (S (randomCursor s1)))).
  set (u4 := randomStream s1 (S (S (S (randomCursor s1))))).
  unfold placed.
  cbn [isPhoto mesh meshMap meshPosition meshRotationY basePosition
       targetPosition velocity rotationSpeed scale].
  repeat (split; [reflexivity|]).
  destruct u2 as [u2 [H20 H21]], u3 as [u3 [H30 H31]],
           u4 as [u4 [H40 H41]]; cbn [uval].
  pose proof PI_RGT_0 as Hpi.
  split; [|split].
  - rewrite LayoutThm.hlength_polar by (destruct (isMobile _); lra).
    destruct (isMobile _); lra.
  - cbn [vy]. apply Rabs_le. lra.
  - nra.
Qed.

(** X19. [addPhotoToScene(texture)] on a well-formed scene with room for
    at least one photo returns; the newest photo shows the texture where it
    was created: 10 to under 20 (mobile) or 15 to under 25 (desktop) from
    the axis, at most 7.5 above or below the centre, turned by less than a
    full turn, with scale 1 and its target at the origin.  No other object
    is written, and every decorative particle stays in the collection. *)
Theorem new_photo_placement (texture : nat) (s : App) :
  wf s -> (1 <= maxPhotos (settings s))%nat ->
  wp (addPhotoToScene texture)
     (fun _ s' =>
        wf s' /\
        (exists r p,
           last (photos s') = Some r /\ last (particles s') = Some r /\
           heap s !! r = None /\ heap s' !! r = Some p /\
           placed (isMobile (deviceInfo s)) texture p /\
           forall x, x <> r -> heap s' !! x = heap s !! x) /\
        forall x, x ∈ particles s -> isPhotoRef (heap s) x = false ->
          x ∈ particles s' /\ heap s' !! x = heap s !! x) s.
Proof.
  intros Hwf Hlimit.
  generalize (wp_conj _ _ _ s
                (PhotosThm.addPhotoToScene_spec texture s Hwf Hlimit)
                (addPhotoToScene_placed texture s Hwf Hlimit)).
  apply wp_mono.
  intros _ s' ((Hwf' & _ & _ & _ & r & Hfresh & _ & _ & Hsame & Hphotos
                & Hparts) & r' & p & Hlast & Hp & Hplaced).
  assert (Hr : r' = r).
  { rewrite Hphotos in Hlast. unfold fifoPush in Hlast.
    rewrite last_snoc in Hlast. by injection Hlast. }
  subst r'. split; [done|]. split.
  - exists r, p. split; [done|]. split; [by rewrite Hparts, last_snoc|].
    done.
  - intros x Hx Hdecor.
    assert (Hxr : x <> r).
    { intros ->. apply (wf_valid s Hwf) in Hx as [q Hq]. congruence. }
    split; [|by apply Hsame].
    rewrite Hparts. apply elem_of_app. left. unfold evicted.
    case_decide; [|done].
    destruct (photos s) as [|old rest] eqn:Hph; [done|].
    apply list_elem_of_filter. split; [|done].
    intros ->.
    assert (Hold : old ∈ photos s) by (rewrite Hph; by left).
    apply (LayoutThm.wf_photo_elem s old Hwf) in Hold
      as (_ & q & Hq & Hqph).
    unfold isPhotoRef in Hdecor. rewrite Hq in Hdecor. congruence.
Qed.

Lemma new_photo_placement_witness :
  wf (sampleApp TREE) /\
  wp (addPhotoToScene 3)
     (fun _ s' =>
        wf s' /\
        exists r p, last (photos s') = Some r /\ heap s' !! r = Some p /\
                    placed false 3 p)
     (sampleApp TREE).
Proof.
  split; [apply LayoutThm.sampleApp_wf|].
  generalize (new_photo_placement 3 (sampleApp TREE)
                (LayoutThm.sampleApp_wf TREE) ltac:(cbn; lia)).
  apply wp_mono.
  intros _ s' (Hwf' & (r & p & Hlast & _ & _ & Hp & Hplaced & _) & _).
  split; [done|]. by exists r, p.
Defined.

(** X20. A photo added in TREE or SCATTER mode is not arranged: after
    [addPhotoToScene(texture)] and a change to either of these modes the
    newest photo still has its target at the origin and scale 1, so the
    animation pulls it from its ring position to the centre of the scene.
    Only a FOCUS pass gives a photo a target. *)
Theorem new_photo_waits_at_origin (texture : nat) (m : Mode) (s : App) :
  wf s -> (1 <= maxPhotos (settings s))%nat -> m <> FOCUS ->
  wp (addPhotoToScene texture ;; setMode m)
     (fun _ s' =>
        wf s' /\ mode s' = m /\
        exists r p,
          last (photos s') = Some r /\ heap s' !! r = Some p /\
          isPhoto p = true /\ meshMap (mesh p) = Some texture /\
          targetPosition p = zeroVector /\ scale p = 1 /\
          (if isMobile (deviceInfo s) then 10 else 15)
          <= hlength (meshPosition (mesh p))) s.
Proof.
  intros Hwf Hlimit Hm. wp_step.
  generalize (wp_conj _ _ _ s
                (PhotosThm.addPhotoToScene_spec texture s Hwf Hlimit)
                (addPhotoToScene_placed texture s Hwf Hlimit)).
  apply wp_mono.
  intros _ s1 ((Hwf1 & _) & r & p & Hlast & Hp & Hplaced).
  unfold setMode. do 2 wp_step.
  pose proof (ModeThm.wf_set_mode m s1 Hwf1) as Hwfm.
  generalize (LayoutThm.pass_framed (set_mode m s1) Hwfm).
  apply wp_mono. intros _ s' (Hsh & Hframed).
  split; [eapply LayoutThm.wf_framed; eassumption|].
  destruct Hsh as (_ & _ & _ & Hphs & Hmode & _).
  split; [by rewrite Hmode|].
  cbn [mode set_mode] in Hframed. rewrite decide_False in Hframed by done.
  specialize (Hframed r). cbn [heap set_mode] in Hframed.
  rewrite Hp in Hframed.
  destruct Hplaced as (Hph & Hmap & Hpos & Htarget & _ & _ & Hscale & Hring
                       & _).
  destruct Hframed as (p' & Hp' & (Hmesh & _ & _ & _ & Hisphoto) & Hkeep).
  destruct (Hkeep eq_refl Hph) as [Ht Hs].
  exists r, p'. rewrite Hphs. cbn [photos set_mode].
  split; [done|]. split; [done|]. split; [congruence|].
  split; [by rewrite Hmesh|]. split; [congruence|]. split; [congruence|].
  rewrite Hmesh, Hpos. tauto.
Qed.

Lemma new_photo_waits_at_origin_witness :
  wf (sampleApp FOCUS) /\
  wp (addPhotoToScene 3 ;; setMode SCATTER)
     (fun _ s' =>
        exists r p,
          last (photos s') = Some r /\ heap s' !! r = Some p /\
          targetPosition p = zeroVector)
     (sampleApp FOCUS).
Proof.
  split; [apply LayoutThm.sampleApp_wf|].
  generalize (new_photo_waits_at_origin 3 SCATTER (sampleApp FOCUS)
                (LayoutThm.sampleApp_wf FOCUS) ltac:(cbn; lia)
                ltac:(discriminate)).
  apply wp_mono.
  intros _ s' (_ & _ & r & p & Hlast & Hp & _ & _ & Ht & _).
  by exists r, p.
Defined.

Lemma part001_deviceInfo (texture : nat) (s : App) :
  wp (Part001.addPhotoToScene texture)
     (fun _ s' => deviceInfo s' = deviceInfo s) s.
Proof.
  unfold Part001.addPhotoToScene. repeat wp_step.
  apply PhotosThm.wp_alloc_intro. intros r _. wp_simpl. repeat wp_step.
  case_decide.
  - destruct (photos s ++ [r]) as [|old rest] eqn:E.
    + by destruct (photos s).
    + by repeat wp_step.
  - by wp_step.
Qed.

Lemma part001_step (texture : nat) (s : App) :
  wf s ->
  wp (Part001.addPhotoToScene texture)
     (fun _ s' =>
        wf s' /\ deviceInfo s' = deviceInfo s /\
        length (photos s')
        = (if decide (isMobile (deviceInfo s) = true
                      /\ 5 <= length (photos s))%nat
           then length (photos s) else S (length (photos s)))) s.
Proof.
  intros Hwf.
  generalize (wp_conj _ _ _ s
                (PhotosThm.part001_addPhotoToScene_spec texture s Hwf)
                (part001_deviceInfo texture s)).
  apply wp_mono.
  intros _ s' ((Hwf' & r & _ & _ & Hphotos & _) & Hdev).
  split; [done|]. split; [done|]. rewrite Hphotos.
  assert (Hlen : length (photos s ++ [r]) = S (length (photos s)))
    by (rewrite length_app; cbn; lia).
  assert (Htail : length (tail (photos s ++ [r])) = length (photos s)).
  { destruct (photos s ++ [r]); cbn [length tail] in *; lia. }
  repeat case_decide; rewrite ?Htail, ?Hlen; try lia.
  all: destruct (isMobile (deviceInfo s)); try tauto; try lia.
Qed.

Lemma part001_addPhotos_spec (textures : list nat) :
  forall s : App,
    wf s ->
    wp (Part001.addPhotos textures)
       (fun _ s' =>
          wf s' /\ deviceInfo s' = deviceInfo s /\
          (isMobile (deviceInfo s) = false ->
           length (photos s') = (length (photos s) + length textures)%nat) /\
          (isMobile (deviceInfo s) = true ->
           (length (photos s) <= 5)%nat ->
           length (photos s')
           = Nat.min 5 (length (photos s) + length textures))) s.
Proof.
  induction textures as [|t ts IH]; intros s Hwf.
  - cbn [Part001.addPhotos]. wp_step.
    split; [done|]. split; [done|]. cbn [length]. split; intros; lia.
  - cbn [Part001.addPhotos]. wp_step.
    generalize (part001_step t s Hwf). apply wp_mono.
    intros _ s1 (Hwf1 & Hdev1 & Hlen1).
    generalize (IH s1 Hwf1). apply wp_mono.
    intros _ s' (Hwf' & Hdev' & Hdesk & Hmob).
    split; [done|]. split; [congruence|]. rewrite Hdev1 in Hdesk, Hmob.
    cbn [length]. split.
    + intros Hd. rewrite (Hdesk Hd), Hlen1.
      rewrite decide_False by (rewrite Hd; intros [? _]; done). lia.
    + intros Hm Hle. revert Hlen1. case_decide as Hc; intros Hlen1.
      * destruct Hc as [_ Hc]. rewrite Hmob; [lia | done | lia].
      * assert (Hlt : (length (photos s) < 5)%nat).
        { apply Nat.nle_gt. intros Hge. apply Hc. by split. }
        rewrite Hmob; [lia | done | lia].
Qed.

(** X21. The copy of the application without performance tiers has no
    configured photo limit.  On a desktop every upload is kept: after [k]
    uploads the scene holds [k] more photos, without bound.  On a mobile
    device holding at most five photos, it holds the smaller of five and
    the number reached. *)
Theorem part001_photo_limit (textures : list nat) (s : App) :
  wf s ->
  wp (Part001.addPhotos textures)
     (fun _ s' =>
        wf s' /\
        (isMobile (deviceInfo s) = false ->
         length (photos s') = (length (photos s) + length textures)%nat) /\
        (isMobile (deviceInfo s) = true ->
         (length (photos s) <= 5)%nat ->
         length (photos s')
         = Nat.min 5 (length (photos s) + length textures))) s.
Proof.
  intros Hwf. generalize (part001_addPhotos_spec textures s Hwf).
  apply wp_mono. intros _ s'. tauto.
Qed.

Lemma part001_photo_limit_witness :
  wf (sampleApp TREE) /\
  wp (Part001.addPhotos [1; 2; 3; 4; 5; 6; 7; 8; 9; 10; 11; 12; 13; 14; 15;
                         16; 17; 18; 19; 20]%nat)
     (fun _ s' => length (photos s') = 21%nat) (sampleApp TREE).
Proof.
  split; [apply LayoutThm.sampleApp_wf|].
  generalize (part001_photo_limit
                [1; 2; 3; 4; 5; 6; 7; 8; 9; 10; 11; 12; 13; 14; 15;
                 16; 17; 18; 19; 20]%nat
                (sampleApp TREE) (LayoutThm.sampleApp_wf TREE)).
  apply wp_mono. intros _ s' (_ & Hdesk & _). by apply Hdesk.
Defined.

End UploadThm.

(** ** Frames that change nothing *)

Module CameraThm.
Import Layout LayoutSpec Gesture GestureSpec Camera.

Lemma processGestures_inside_window g now landmarks s :
  (now - lastGestureTime g < debounceTime g)%Z ->
  processGestures g now landmarks s = Some (g, s).
Proof. intros H. unfold processGestures. by rewrite decide_True. Qed.




End CameraThm.

(** ** Drags, pinches and long presses *)

Module DragThm.
Import Layout LayoutSpec Touch TouchSpec DragSpec.

Lemma drag_step c p s :
  startX (touchStartPos c) <> 0 ->
  exists c',
    handleTouchMove c [p] s = Some (c', s) /\
    startX (touchStartPos c') = clientX p /\
    sensitivity c' = sensitivity c /\
    longPressTimer c' = None /\ xInRange c' /\
    rotY (touchRotation c')
    = rotY (touchRotation c)
      + (clientX p - startX (touchStartPos c)) * sensitivity c.
Proof.
  intros Hne. unfold handleTouchMove. cbn [length lookup list_lookup].
  rewrite decide_True by done. eexists. split; [reflexivity|].
  unfold xInRange. rewrite TouchThm.clearLongPress_rotation.
  cbn [touchRotation set_touchStartPos set_touchRotation rotX rotY].
  split; [|split; [|split; [|split; [apply TouchThm.clamp_range|done]]]].
  - unfold clearLongPress. by destruct (longPressTimer _).
  - unfold clearLongPress. by destruct (longPressTimer _).
  - apply TouchUIThm.clearLongPress_timer.
Qed.

Lemma drag_frozen points :
  forall c s,
    startX (touchStartPos c) = 0 -> handleAll c (drag points) s = Some (c, s).
Proof.
  induction points as [|p points IH]; intros c s H0; [done|].
  cbn [drag map handleAll handle]. fold (drag points).
  destruct (TouchThm.handleTouchMove_single c p s) as (c' & Hrun & _ & Hsame).
  unfold bind. rewrite Hrun, (Hsame H0). by apply IH.
Qed.

Lemma drag_telescopes points :
  forall c t s,
    startX (touchStartPos c) <> 0 ->
    Forall (fun p => clientX p <> 0) points ->
    last points = Some t ->
    exists c',
      handleAll c (drag points) s = Some (c', s) /\
      rotY (touchRotation c')
      = rotY (touchRotation c)
        + (clientX t - startX (touchStartPos c)) * sensitivity c /\
      xInRange c' /\ longPressTimer c' = None.
Proof.
  induction points as [|p points IH]; intros c t s Hne Hall Hlast; [done|].
  apply Forall_cons in Hall as [Hp Hall].
  destruct (drag_step c p s Hne) as (c1 & Hrun & Hx1 & Hs1 & Ht1 & Hr1 & Hy1).
  cbn [drag map handleAll handle]. fold (drag points).
  unfold bind. rewrite Hrun.
  destruct points as [|q points].
  - cbn in Hlast. injection Hlast as <-. exists c1. by cbn.
  - assert (Hlast' : last (q :: points) = Some t) by exact Hlast.
    assert (Hne1 : startX (touchStartPos c1) <> 0) by (by rewrite Hx1).
    destruct (IH c1 t s Hne1 Hall Hlast') as (c' & Hrun' & Hy' & Hr' & Ht').
    exists c'. split; [exact Hrun'|]. split; [|done].
    rewrite Hy', Hy1, Hx1, Hs1. ring.
Qed.

(** X23. A drag with one finger turns the group by the distance between
    its end points: after a [touchstart] away from the left edge and moves
    through points away from it, the y rotation has grown by the horizontal
    distance from the first to the last point times the sensitivity,
    whatever the path; the x rotation is in range and the long press is
    cancelled.  A drag that starts at [clientX = 0], or passes through it,
    is ignored from there on: no later move of that finger changes the
    controller, and a pending long press stays pending. *)
Theorem drag_rotation (c : TouchController) (start : TouchPoint)
    (now : Z) (timer : nat) (points : list TouchPoint) (s : App) :
  exists c0,
    handleTouchStart c [start] now timer s = Some (c0, s) /\
    longPressTimer c0 = Some timer /\
    (clientX start = 0 -> handleAll c0 (drag points) s = Some (c0, s)) /\
    (forall t, clientX start <> 0 ->
       Forall (fun p => clientX p <> 0) points -> last points = Some t ->
       exists c',
         handleAll c0 (drag points) s = Some (c', s) /\
         rotY (touchRotation c')
         = rotY (touchRotation c)
           + (clientX t - clientX start) * sensitivity c /\
         xInRange c' /\ longPressTimer c' = None) /\
    (forall edge, clientX start <> 0 -> clientX edge = 0 ->
       exists c',
         handleTouchMove c0 [edge] s = Some (c', s) /\
         handleAll c' (drag points) s = Some (c', s)).
Proof.
  eexists. split; [reflexivity|]. split; [reflexivity|].
  set (c0 := set_longPressTimer _ _).
  assert (Hx0 : startX (touchStartPos c0) = clientX start) by reflexivity.
  split; [|split].
  - intros H0. apply drag_frozen. by rewrite Hx0.
  - intros t Hne Hall Hlast.
    destruct (drag_telescopes points c0 t s ltac:(by rewrite Hx0) Hall Hlast)
      as (c' & Hrun & Hy & Hr & Ht).
    exists c'. by rewrite Hrun.
  - intros edge Hne Hedge.
    destruct (drag_step c0 edge s ltac:(by rewrite Hx0))
      as (c' & Hrun & Hx' & _).
    exists c'. split; [exact Hrun|]. apply drag_frozen. by rewrite Hx'.
Qed.

(** X24. A pinch fires once per gesture.  When two fingers have closed
    to less than 0.7 of their starting distance outside FOCUS mode, the
    move switches to FOCUS and clears the starting distance, and from then
    on no two-finger move changes anything until a new two-finger
    [touchstart]; in FOCUS mode a pinch changes nothing in the first
    place. *)
Theorem pinch_fires_once (c : TouchController) (a b : TouchPoint) (s : App) :
  wf s -> 0 < pinchStartDistance c ->
  getTouchDistance a b / pinchStartDistance c < 0.7 ->
  (mode s <> FOCUS ->
   wp (handleTouchMove c [a; b])
      (fun c' s' =>
         mode s' = FOCUS /\ wf s' /\ pinchStartDistance c' = 0 /\
         forall x y s'', handleTouchMove c' [x; y] s'' = Some (c', s'')) s) /\
  (mode s = FOCUS -> handleTouchMove c [a; b] s = Some (c, s)).
Proof.
  intros Hwf Hstart Hratio. split.
  - intros Hmode. unfold handleTouchMove. cbn [length lookup list_lookup].
    rewrite decide_False by (intros [[=] _]).
    rewrite decide_True by done. do 2 wp_step.
    rewrite decide_True by done. wp_step.
    generalize (ModeThm.setMode_spec FOCUS s Hwf). apply wp_mono.
    intros _ s' (Hwf' & Hm' & _). wp_step.
    split; [done|]. split; [done|]. split; [reflexivity|].
    intros x y s''. unfold handleTouchMove. cbn [length lookup list_lookup].
    rewrite decide_False by (intros [[=] _]).
    rewrite decide_False; [done|].
    cbn [pinchStartDistance set_pinchStartDistance]. intros [_ H]. lra.
  - intros Hmode. unfold handleTouchMove. cbn [length lookup list_lookup].
    rewrite decide_False by (intros [[=] _]).
    rewrite decide_True by done. unfold bind, gets.
    rewrite decide_False; [done|]. intros [_ H]. contradiction.
Qed.

Lemma pinch_fires_once_witness :
  wf (sampleApp TREE) /\ 0 < pinchStartDistance pinching /\
  wp (handleTouchMove pinching [mkTouchPoint 0 0; mkTouchPoint 50 0])
     (fun c' s' =>
        mode s' = FOCUS /\
        forall x y s'', handleTouchMove c' [x; y] s'' = Some (c', s''))
     (sampleApp TREE).
Proof.
  assert (Hstart : 0 < pinchStartDistance pinching) by (cbn; lra).
  assert (Hratio : getTouchDistance (mkTouchPoint 0 0) (mkTouchPoint 50 0)
                   / pinchStartDistance pinching < 0.7).
  { rewrite TouchThm.touch_distance_on_axis by lra. cbn. lra. }
  split; [apply LayoutThm.sampleApp_wf|]. split; [exact Hstart|].
  destruct (pinch_fires_once pinching (mkTouchPoint 0 0) (mkTouchPoint 50 0)
              (sampleApp TREE) (LayoutThm.sampleApp_wf TREE) Hstart Hratio)
    as [Hfire _].
  generalize (Hfire ltac:(discriminate)). apply wp_mono.
  intros c' s' (Hm & _ & _ & Hrest). by split.
Defined.

Lemma handleLongPress_spec c s :
  wf s ->
  wp (handleLongPress c)
     (fun c' s' => c' = c /\ wf s' /\ mode s' = nextMode (mode s) /\
                   particles s' = particles s /\ photos s' = photos s) s.
Proof.
  intros Hwf. unfold handleLongPress. do 3 wp_step.
  generalize (ModeThm.setMode_spec (nextMode (mode s)) s Hwf).
  apply wp_mono. intros _ s' (Hwf' & Hm' & Hsh). wp_step.
  destruct Hsh as (_ & _ & Hps & Hphs & _). done.
Qed.

(** X25. The long press walks through the modes in the order TREE,
    SCATTER, FOCUS and back: one long press always changes the mode, and
    three of them in a row return to the mode they started from, with the
    same particles and photos in the collection. *)
Theorem long_press_cycle (c : TouchController) (s : App) :
  wf s ->
  wp (handleLongPress c)
     (fun _ s1 => mode s1 <> mode s /\ mode s1 = nextMode (mode s)) s /\
  wp (let* c1 := handleLongPress c in
      let* c2 := handleLongPress c1 in
      handleLongPress c2)
     (fun c' s' =>
        c' = c /\ wf s' /\ mode s' = mode s /\
        particles s' = particles s /\ photos s' = photos s) s.
Proof.
  intros Hwf. split.
  - generalize (handleLongPress_spec c s Hwf). apply wp_mono.
    intros _ s1 (_ & _ & Hm & _). split; [|done].
    rewrite Hm. by destruct (mode s).
  - wp_step. generalize (handleLongPress_spec c s Hwf). apply wp_mono.
    intros c1 s1 (-> & Hwf1 & Hm1 & Hps1 & Hphs1). wp_step.
    generalize (handleLongPress_spec c s1 Hwf1). apply wp_mono.
    intros c2 s2 (-> & Hwf2 & Hm2 & Hps2 & Hphs2).
    generalize (handleLongPress_spec c s2 Hwf2). apply wp_mono.
    intros c3 s3 (-> & Hwf3 & Hm3 & Hps3 & Hphs3).
    split; [done|]. split; [done|].
    split; [|split; congruence].
    rewrite Hm3, Hm2, Hm1. by destruct (mode s).
Qed.

Lemma long_press_cycle_witness :
  wf (sampleApp SCATTER) /\
  wp (let* c1 := handleLongPress newTouchController in
      let* c2 := handleLongPress c1 in
      handleLongPress c2)
     (fun _ s' => mode s' = SCATTER) (sampleApp SCATTER).
Proof.
  split; [apply LayoutThm.sampleApp_wf|].
  destruct (long_press_cycle newTouchController (sampleApp SCATTER)
              (LayoutThm.sampleApp_wf SCATTER)) as [_ H].
  revert H. apply wp_mono. intros c' s' (_ & _ & Hm & _). exact Hm.
Defined.

End DragThm.

(** ** Keyboard *)

Module KeysThm.
Import Layout LayoutSpec Touch TouchSpec Keys.

Lemma handleKeyDown_spec c key s :
  wf s ->
  wp (handleKeyDown c key)
     (fun c' s' =>
        wf s' /\ shapeEq (set_mode (mode s') s) s' /\
        (toLowerCase key = " " ->
         c' = c /\ mode s' = nextMode (mode s)) /\
        (toLowerCase key <> " " -> s' = s) /\
        (toLowerCase key = "h" ->
         c' = set_uiHidden (negb (uiHidden c)) c) /\
        (toLowerCase key = "escape" -> c' = resetView c) /\
        (toLowerCase key <> "h" -> toLowerCase key <> "escape" -> c' = c)) s.
Proof.
  intros Hwf. unfold handleKeyDown. cbn zeta.
  assert (Hself : shapeEq (set_mode (mode s) s) s) by (repeat split).
  case_decide as Hh.
  { wp_step. rewrite Hh. split; [exact Hwf|]. split; [exact Hself|].
    repeat split; done. }
  case_decide as Hsp.
  { do 3 wp_step.
    generalize (ModeThm.setMode_spec (nextMode (mode s)) s Hwf).
    apply wp_mono. intros _ s' (Hwf' & Hm' & Hsh). wp_step.
    rewrite Hsp, Hm'. split; [exact Hwf'|]. split; [exact Hsh|].
    repeat split; done. }
  case_decide as Hesc.
  { wp_step. rewrite Hesc. split; [exact Hwf|]. split; [exact Hself|].
    repeat split; done. }
  wp_step. split; [exact Hwf|]. split; [exact Hself|]. repeat split; done.
Qed.

(** X26. On a well-formed scene [handleKeyDown] returns for every key.
    The space key, in either case of the key name, moves to the next mode
    as a long press does and touches nothing else of the controls; every
    other key leaves the application as it is.  The key h toggles the
    interface; Escape sets the touch rotation and the gesture rotation to
    zero, from where [update()] eases the group back to no rotation, a
    tenth of the way per frame. *)
Theorem keyboard_controls (c : Controls) (key : string) (s : App) :
  wf s ->
  wp (handleKeyDown c key)
     (fun c' s' =>
        wf s' /\ particles s' = particles s /\ photos s' = photos s /\
        (toLowerCase key = " " ->
         c' = c /\ mode s' = nextMode (mode s) /\ mode s' <> mode s) /\
        (toLowerCase key <> " " -> s' = s) /\
        (toLowerCase key = "h" -> uiHidden c' = negb (uiHidden c)) /\
        (toLowerCase key = "escape" ->
         xInRange (touch c') /\
         gestureData c' = Rotate.mkGestureData 0 0 /\
         forall n r,
           rotY (Rotate.updateN (touch c') n r) = 0.9 ^ n * rotY r /\
           rotX (Rotate.updateN (touch c') n r) = 0.9 ^ n * rotX r) /\
        (toLowerCase key <> "h" -> toLowerCase key <> "escape" -> c' = c)) s.
Proof.
  intros Hwf. generalize (handleKeyDown_spec c key s Hwf). apply wp_mono.
  intros c' s' (Hwf' & Hsh & Hspace & Hother & Hh & Hesc & Hrest).
  destruct Hsh as (_ & _ & Hps & Hphs & _).
  split; [done|]. split; [done|]. split; [done|].
  split; [|split; [done|split; [|split; [|done]]]].
  - intros Hk. destruct (Hspace Hk) as [-> Hm]. split; [done|].
    split; [done|]. rewrite Hm. by destruct (mode s).
  - intros Hk. by rewrite (Hh Hk).
  - intros Hk. rewrite (Hesc Hk). split; [|split; [reflexivity|]].
    + unfold xInRange, resetView. cbn. pose proof PI_RGT_0. lra.
    + intros n r.
      destruct (RotateThm.updateN_offset (touch (resetView c)) n r)
        as [HY HX].
      cbn [resetView touch set_gestureData set_touch touchRotation
           set_touchRotation rotX rotY] in HY, HX |- *.
      split; lra.
Qed.

Lemma keyboard_controls_witness :
  wf (sampleApp TREE) /\
  wp (handleKeyDown newControls " ")
     (fun c' s' => c' = newControls /\ mode s' = SCATTER) (sampleApp TREE).
Proof.
  split; [apply LayoutThm.sampleApp_wf|].
  generalize (keyboard_controls newControls " " (sampleApp TREE)
                (LayoutThm.sampleApp_wf TREE)).
  apply wp_mono. intros c' s' (_ & _ & _ & Hspace & _).
  destruct (Hspace eq_refl) as (Hc & Hm & _). by split.
Defined.

End KeysThm.

(** ** Any sequence of events *)

Module SessionThm.
Import Layout LayoutSpec Photos PhotosSpec Gesture GestureSpec Touch TouchSpec.
Import Session SessionSpec.

Lemma wf_isPhotoRef s x :
  wf s -> x ∈ particles s ->
  isPhotoRef (heap s) x = true <-> x ∈ photos s.
Proof.
  intros Hwf Hx. rewrite (wf_photos s Hwf), list_elem_of_filter. tauto.
Qed.

Lemma preserved_refl s : wf s -> preserved s s.
Proof. intros Hwf. repeat (split; [done|]). auto. Qed.

Lemma preserved_trans s1 s2 s3 :
  preserved s1 s2 -> preserved s2 s3 -> preserved s1 s3.
Proof.
  intros (_ & Hd & Hs & Hlen & Hdec) (Hwf & Hd' & Hs' & Hlen' & Hdec').
  split; [done|]. split; [congruence|]. split; [congruence|].
  rewrite Hs in Hlen'. split; [auto|].
  intros x Hx Hph. destruct (Hdec x Hx Hph) as [Hx2 Hph2]. by apply Hdec'.
Qed.

(** A step that keeps both arrays. *)
Lemma preserved_same_arrays s s' :
  wf s -> wf s' ->
  deviceInfo s' = deviceInfo s -> settings s' = settings s ->
  particles s' = particles s -> photos s' = photos s ->
  preserved s s'.
Proof.
  intros Hwf Hwf' Hd Hs Hps Hphs.
  split; [done|]. split; [done|]. split; [done|].
  split; [by rewrite Hphs|].
  intros x Hx Hph. rewrite Hps. split; [done|].
  destruct (isPhotoRef (heap s') x) eqn:E; [|done].
  apply (wf_isPhotoRef s' x Hwf') in E; [|by rewrite Hps].
  rewrite Hphs in E. apply (wf_isPhotoRef s x Hwf Hx) in E. congruence.
Qed.

Lemma preserved_shapeEq m s s' :
  wf s -> wf s' -> shapeEq (set_mode m s) s' -> preserved s s'.
Proof.
  intros Hwf Hwf' (Hd & Hs & Hps & Hphs & _).
  by apply preserved_same_arrays.
Qed.

Lemma setMode_preserved m s :
  wf s -> wp (setMode m) (fun _ s' => preserved s s') s.
Proof.
  intros Hwf. generalize (ModeThm.setMode_spec m s Hwf). apply wp_mono.
  intros _ s' (Hwf' & _ & Hsh). by eapply preserved_shapeEq.
Qed.

Lemma addPost_preserved texture s s' :
  wf s -> (1 <= maxPhotos (settings s))%nat ->
  addPost texture s s' -> preserved s s'.
Proof.
  intros Hwf Hmax (Hwf' & Hd & Hs & _ & r & Hfresh & _ & _ & Hsame & Hphotos
                   & Hparts).
  split; [done|]. split; [done|]. split; [done|]. split.
  - intros Hlen. rewrite Hphotos. by apply PhotosThm.fifoPush_length.
  - intros x Hx Hdecor.
    assert (Hxr : x <> r).
    { intros ->. apply (wf_valid s Hwf) in Hx as [q Hq]. congruence. }
    split.
    + rewrite Hparts. apply elem_of_app. left. unfold evicted.
      case_decide; [|done].
      destruct (photos s) as [|old rest] eqn:Hph; [done|].
      apply list_elem_of_filter. split; [|done].
      intros ->.
      assert (Hold : old ∈ photos s) by (rewrite Hph; by left).
      apply (wf_isPhotoRef s old Hwf Hx) in Hold. congruence.
    + unfold isPhotoRef in *. by rewrite Hsame.
Qed.

Lemma upload_preserved files s :
  wf s -> (1 <= maxPhotos (settings s))%nat ->
  wp (Scene.upload files) (fun _ s' => preserved s s') s.
Proof.
  intros Hwf Hmax. unfold Scene.upload, Scene.handleFileUpload.
  destruct (files !! 0%nat) as [file|].
  - do 3 wp_step. case_decide.
    + do 2 wp_step. by apply preserved_refl.
    + wp_step. unfold Scene.onload.
      generalize (PhotosThm.addPhotoToScene_spec (Scene.image file) s
                    Hwf Hmax).
      apply wp_mono. intros _ s'. by apply addPost_preserved.
  - do 2 wp_step. by apply preserved_refl.
Qed.

Lemma handle_preserved c e s :
  wf s ->
  wp (handle c e)
     (fun c' s' => preserved s s' /\ (xInRange c -> xInRange c')) s.
Proof.
  intros Hwf.
  assert (Hrun : wp (handle c e) (fun _ s' => preserved s s') s).
  { destruct e as [touches now timer|touches|now|]; cbn [handle].
    - unfold handleTouchStart. repeat case_decide.
      + destruct touches as [|t [|]]; [done| |done].
        cbn [lookup list_lookup]. wp_step. by apply preserved_refl.
      + destruct touches as [|t [|t' [|]]]; [done|done| |done].
        cbn [lookup list_lookup]. wp_step. by apply preserved_refl.
      + wp_step. by apply preserved_refl.
    - unfold handleTouchMove. repeat case_decide.
      + destruct touches as [|t [|]]; [by destruct H| |by destruct H].
        cbn [lookup list_lookup]. wp_step. by apply preserved_refl.
      + destruct touches as [|t [|t' [|]]];
          [by destruct H0|by destruct H0| |by destruct H0].
        cbn [lookup list_lookup]. do 2 wp_step. case_decide.
        * wp_step. generalize (setMode_preserved FOCUS s Hwf).
          apply wp_mono. intros _ s' Hp. by wp_step.
        * wp_step. by apply preserved_refl.
      + wp_step. by apply preserved_refl.
    - unfold handleTouchEnd. wp_step. by apply preserved_refl.
    - unfold handleLongPress. do 3 wp_step.
      generalize (setMode_preserved (nextMode (mode s)) s Hwf).
      apply wp_mono. intros _ s' Hp. by wp_step. }
  apply wp_run in Hrun as (c' & s' & Hc & Hp).
  apply wp_run. exists c', s'. split; [done|]. split; [done|].
  by apply (TouchThm.handle_xInRange c e s c' s').
Qed.

Lemma complete_hand (landmarks : list Landmark) :
  (21 <= length landmarks)%nat ->
  exists h d, handOf landmarks = Some h /\
              Rotate.mapHandToRotation landmarks = Some d.
Proof.
  intros Hlen. unfold handOf, Rotate.mapHandToRotation.
  destruct (lookup_lt_is_Some_2 landmarks 4) as [l4 ->]; [lia|].
  destruct (lookup_lt_is_Some_2 landmarks 8) as [l8 ->]; [lia|].
  destruct (lookup_lt_is_Some_2 landmarks 0) as [l0 ->]; [lia|].
  destruct (lookup_lt_is_Some_2 landmarks 12) as [l12 ->]; [lia|].
  destruct (lookup_lt_is_Some_2 landmarks 16) as [l16 ->]; [lia|].
  destruct (lookup_lt_is_Some_2 landmarks 20) as [l20 ->]; [lia|].
  destruct (lookup_lt_is_Some_2 landmarks 9) as [l9 ->]; [lia|].
  by eexists _, _.
Qed.

Lemma processGestures_preserved g now landmarks s :
  wf s -> (21 <= length landmarks)%nat ->
  wp (processGestures g now landmarks) (fun _ s' => preserved s s') s.
Proof.
  intros Hwf Hlen.
  destruct (decide (now - lastGestureTime g < debounceTime g)%Z)
    as [Hin|Hout].
  - unfold wp. rewrite CameraThm.processGestures_inside_window by done.
    by apply preserved_refl.
  - destruct (complete_hand landmarks Hlen) as (h & _ & Hh & _).
    generalize (GestureThm.processGestures_selected g now landmarks h s
                  Hwf Hout Hh).
    apply wp_mono. intros g' s'.
    destruct (selected (mode s) h) as [m'|].
    + intros (_ & Hwf' & _ & Hsh). by eapply preserved_shapeEq.
    + intros [_ ->]. by apply preserved_refl.
Qed.

Lemma perform_preserved c a s :
  wf s -> (1 <= maxPhotos (settings s))%nat -> complete a ->
  wp (perform c a)
     (fun c' s' =>
        preserved s s' /\
        (xInRange (Keys.touch (controls c)) ->
         xInRange (Keys.touch (controls c')))) s.
Proof.
  intros Hwf Hmax Hcomplete. destruct a as [m|files|key|e|now landmarks];
    cbn [perform].
  - wp_step. generalize (setMode_preserved m s Hwf). apply wp_mono.
    intros _ s' Hp. by wp_step.
  - wp_step. generalize (upload_preserved files s Hwf Hmax). apply wp_mono.
    intros _ s' Hp. by wp_step.
  - wp_step. generalize (KeysThm.handleKeyDown_spec (controls c) key s Hwf).
    apply wp_mono.
    intros k s' (Hwf' & Hsh & _ & _ & Hh & Hesc & Hrest). wp_step.
    split; [by eapply preserved_shapeEq|].
    cbn [controls set_controls]. intros Hc.
    destruct (decide (Keys.toLowerCase key = "h")) as [Hk|Hk];
      [by rewrite (Hh Hk)|].
    destruct (decide (Keys.toLowerCase key = "escape")) as [Hk'|Hk'];
      [|by rewrite (Hrest Hk Hk')].
    rewrite (Hesc Hk'). unfold xInRange, Keys.resetView. cbn.
    pose proof PI_RGT_0. lra.
  - destruct e as [touches now timer|touches|now|].
    + wp_step.
      generalize (handle_preserved (Keys.touch (controls c))
                    (TouchStart touches now timer) s Hwf).
      apply wp_mono. intros t s' [Hp Hx]. by wp_step.
    + wp_step.
      generalize (handle_preserved (Keys.touch (controls c))
                    (TouchMove touches) s Hwf).
      apply wp_mono. intros t s' [Hp Hx]. by wp_step.
    + unfold TouchUI.handleTouchEnd. wp_step.
      split; [by apply preserved_refl|].
      cbn [controls set_controls Keys.touch Keys.set_touch Keys.set_uiHidden].
      unfold xInRange.
      cbn [touchRotation set_pinchStartDistance set_lastTapTime].
      by rewrite TouchThm.clearLongPress_rotation.
    + wp_step.
      generalize (handle_preserved (Keys.touch (controls c)) LongPress s Hwf).
      apply wp_mono. intros t s' [Hp Hx]. by wp_step.
  - cbn [complete] in Hcomplete. wp_step.
    generalize (processGestures_preserved (recognizer c) now landmarks s
                  Hwf Hcomplete).
    apply wp_mono. intros g s' Hp.
    destruct (complete_hand landmarks Hcomplete) as (_ & d & _ & ->).
    by wp_step.
Qed.

(** X27. No sequence of events breaks the scene.  From a well-formed
    scene with room for at least one photo, any sequence of mode buttons,
    uploads, keys, touch events and camera frames with a complete hand runs
    to its end without throwing.  The scene stays well formed, device and
    settings are kept, the photos stay within the configured maximum, no
    decorative particle leaves the collection, and the x rotation of the
    touch controller stays in range. *)
Theorem session_preserves_scene (c : Controllers) (actions : list Action)
    (s : App) :
  wf s -> (1 <= maxPhotos (settings s))%nat -> Forall complete actions ->
  wp (performAll c actions)
     (fun c' s' =>
        preserved s s' /\
        (xInRange (Keys.touch (controls c)) ->
         xInRange (Keys.touch (controls c')))) s.
Proof.
  revert c s. induction actions as [|a actions IH]; intros c s Hwf Hmax Hall.
  - cbn [performAll]. wp_step. split; [by apply preserved_refl | done].
  - apply Forall_cons in Hall as [Ha Hall]. cbn [performAll]. wp_step.
    generalize (perform_preserved c a s Hwf Hmax Ha). apply wp_mono.
    intros c1 s1 [Hp1 Hx1].
    pose proof Hp1 as (Hwf1 & _ & Hs1 & _).
    assert (Hmax1 : (1 <= maxPhotos (settings s1))%nat) by (by rewrite Hs1).
    generalize (IH c1 s1 Hwf1 Hmax1 Hall). apply wp_mono.
    intros c' s' [Hp' Hx'].
    split; [by eapply preserved_trans | auto].
Qed.

Lemma session_preserves_scene_witness :
  let actions :=
    [ModeButton SCATTER; KeyDown " ";
     FileChosen [Scene.mkFile 1000 3]; Touched LongPress;
     Touched (TouchMove [mkTouchPoint 10 10]);
     HandSeen 1000 closedHand; Touched (TouchEnd 2000)] in
  wf (sampleApp TREE) /\ Forall complete actions /\
  wp (performAll newControllers actions)
     (fun c' s' =>
        wf s' /\ (length (photos s') <= 5)%nat /\
        xInRange (Keys.touch (controls c')))
     (sampleApp TREE).
Proof.
  cbn zeta.
  assert (Hall : Forall complete
            [ModeButton SCATTER; KeyDown " ";
             FileChosen [Scene.mkFile 1000 3]; Touched LongPress;
             Touched (TouchMove [mkTouchPoint 10 10]);
             HandSeen 1000 closedHand; Touched (TouchEnd 2000)]).
  { repeat (constructor; [cbn; lia || exact I|]). constructor. }
  split; [apply LayoutThm.sampleApp_wf|]. split; [exact Hall|].
  generalize (session_preserves_scene newControllers _ (sampleApp TREE)
                (LayoutThm.sampleApp_wf TREE) ltac:(cbn; lia) Hall).
  apply wp_mono. intros c' s' [(Hwf' & _ & _ & Hlen & _) Hx].
  split; [done|]. split; [apply Hlen; cbn; lia|].
  apply Hx. apply TouchThm.newTouchController_xInRange.
Defined.

End SessionThm.

(** ** Animation *)

Module AnimateThm.
Import Layout LayoutSpec Animate AnimateSpec.

Lemma animateParticle_spec level mobile time id x k s :
  is_Some (heap s !! x) ->
  wp (animateParticle level mobile time id x k)
     (fun _ s' =>
        cellStep (animateRel level mobile (mode s) time id k x) x s s') s.
Proof.
  intros [p Hp]. unfold animateParticle, animateRel, skipped.
  case_decide as Hskip.
  { wp_step. by apply (LayoutThm.cellStep_skip _ x s p). }
  unfold setMesh. do 9 wp_step.
  destruct (isPhoto p) eqn:Hph.
  - rewrite decide_False by (intros [_ ?]; done).
    repeat wp_step.
    apply (LayoutThm.cellStep_intro _ x s _ p
             (withMesh (animatedMesh mobile (mode s) time (id x) p) p));
      [exact Hp | | repeat split |].
    + reflexivity.
    + wp_simpl. unfold animatedMesh. rewrite Hph.
      rewrite decide_False by (intros [_ ?]; done). reflexivity.
  - destruct (decide (mode s = SCATTER)) as [Hm|Hm].
    + rewrite decide_True by done. repeat wp_step.
      apply (LayoutThm.cellStep_intro _ x s _ p
               (withMesh (animatedMesh mobile (mode s) time (id x) p) p));
        [exact Hp | | repeat split |].
      * reflexivity.
      * wp_simpl. rewrite !insert_insert_eq. unfold animatedMesh.
        rewrite Hph, decide_True by done. reflexivity.
    + rewrite decide_False by (intros [? _]; done). repeat wp_step.
      apply (LayoutThm.cellStep_intro _ x s _ p
               (withMesh (animatedMesh mobile (mode s) time (id x) p) p));
        [exact Hp | | repeat split |].
      * reflexivity.
      * wp_simpl. rewrite !insert_insert_eq. unfold animatedMesh.
        rewrite Hph, decide_False by (intros [? _]; done). reflexivity.
Qed.

Lemma animate_pass level time id s :
  wf s ->
  wp (animateParticles level time id)
     (fun _ s' => animatePost level time id s s') s.
Proof.
  intros Hwf. unfold animateParticles. do 4 wp_step.
  apply (LayoutThm.forEach_particles _
           (animateRel level (isMobile (deviceInfo s)) (mode s) time id) s s
           (wf_nodup s Hwf) (shapeEq_refl s) (wf_valid s Hwf)).
  intros k x s1 Hs1 Hx.
  replace (mode s) with (mode s1)
    by (destruct Hs1 as (_ & _ & _ & _ & -> & _); done).
  by apply animateParticle_spec.
Qed.

Lemma animateRel_frame level mobile m time id k x p p' :
  animateRel level mobile m time id k x p p' ->
  targetPosition p' = targetPosition p /\ scale p' = scale p /\
  isPhoto p' = isPhoto p /\ basePosition p' = basePosition p /\
  meshMap (mesh p') = meshMap (mesh p).
Proof.
  unfold animateRel. case_decide; intros ->; repeat split.
Qed.

Lemma animatePost_wf level time id s s' :
  wf s -> animatePost level time id s s' -> wf s'.
Proof.
  intros Hwf ((_ & _ & Hps & Hphs & _) & Hout & Hin).
  assert (Hflag : forall r,
            Photos.isPhotoRef (heap s') r = Photos.isPhotoRef (heap s) r).
  { intros r. unfold Photos.isPhotoRef.
    destruct (decide (r ∈ particles s)) as [Hr|Hr]; [|by rewrite Hout].
    apply list_elem_of_lookup_1 in Hr as [k Hk].
    destruct (Hin k r Hk) as (p & p' & -> & -> & Hrel).
    by apply animateRel_frame in Hrel as (_ & _ & -> & _). }
  split; rewrite ?Hps, ?Hphs.
  - apply (wf_nodup s Hwf).
  - intros x Hx. apply list_elem_of_lookup_1 in Hx as [k Hk].
    destruct (Hin k x Hk) as (p & p' & _ & -> & _). by eexists.
  - rewrite (wf_photos s Hwf). apply list_filter_iff. intros x.
    by rewrite Hflag.
Qed.

Lemma animationSpeed_range mobile : 0 < animationSpeed mobile < 1.
Proof. unfold animationSpeed. destruct mobile; lra. Qed.

(** One frame. *)
Lemma animateRel_settled level mobile m time id k x p p' :
  animateRel level mobile m time id k x p p' ->
  let q := 1 - animationSpeed mobile in
  (skipped level k -> p' = p) /\
  (~ skipped level k ->
   vx (offset p') = q * vx (offset p) /\
   vz (offset p') = q * vz (offset p) /\
   (isPhoto p = true -> vy (offset p') = q * vy (offset p)) /\
   Rabs (vy (offset p') - q * vy (offset p)) <= 0.005).
Proof.
  unfold animateRel. intros Hrel. cbn zeta.
  destruct (decide (skipped level k)) as [Hskip|Hskip].
  - subst p'. split; [done | tauto].
  - subst p'. split; [tauto|]. intros _.
    unfold offset, animatedMesh, vlerp.
    cbn [mesh withMesh meshPosition targetPosition vx vy vz].
    destruct (isPhoto p) eqn:Hph; cbn [vx vy vz].
    + split; [ring|]. split; [ring|]. split; [intros _; ring|].
      match goal with |- Rabs ?e <= _ => replace e with 0 by ring end.
      rewrite Rabs_R0. lra.
    + split; [ring|]. split; [ring|]. split; [done|].
      match goal with
      | |- Rabs ?e <= _ =>
          replace e with (sin (time + id x) * 0.005) by ring
      end.
      pose proof (SIN_bound (time + id x)) as [Hlo Hhi].
      apply Rabs_le. lra.
Qed.

Lemma geometric_step (a Qn c X Y Y1 : R) :
  0 < a -> 0 <= Qn ->
  X <= Qn * Y1 + c * (1 - Qn) / a ->
  Y1 <= (1 - a) * Y + c ->
  X <= (1 - a) * Qn * Y + c * (1 - (1 - a) * Qn) / a.
Proof.
  intros Ha HQ HX HY.
  assert (Hsplit : c * (1 - (1 - a) * Qn) / a = c * (1 - Qn) / a + c * Qn)
    by (field; lra).
  rewrite Hsplit.
  assert (Hmul : Qn * Y1 <= Qn * ((1 - a) * Y + c))
    by (by apply Rmult_le_compat_l).
  lra.
Qed.

Lemma settled_zero level mobile k p : settled level mobile 0 k p p.
Proof.
  unfold settled. cbn zeta. cbn [pow]. repeat (split; [done|]).
  intros _. split; [ring|]. split; [ring|]. split; [intros _; ring|].
  pose proof (animationSpeed_range mobile).
  replace (0.005 * (1 - 1) / animationSpeed mobile) with 0 by (field; lra).
  lra.
Qed.

Lemma settled_step level mobile m time id n k x p p1 p' :
  animateRel level mobile m time id k x p p1 ->
  settled level mobile n k p1 p' ->
  settled level mobile (S n) k p p'.
Proof.
  intros Hrel (Ht & Hs & Hph & Hb & Hm & Hskip & Hmove).
  destruct (animateRel_frame _ _ _ _ _ _ _ _ _ Hrel)
    as (Ht1 & Hs1 & Hph1 & Hb1 & Hm1).
  destruct (animateRel_settled _ _ _ _ _ _ _ _ _ Hrel) as [Hskip1 Hmove1].
  unfold settled. cbn zeta.
  split; [congruence|]. split; [congruence|]. split; [congruence|].
  split; [congruence|]. split; [congruence|]. split.
  - intros Hk. rewrite (Hskip Hk). by apply Hskip1.
  - intros Hk. destruct (Hmove Hk) as (Hx & Hz & Hy & Hbound).
    destruct (Hmove1 Hk) as (Hx1 & Hz1 & Hy1 & Hbound1).
    pose proof (animationSpeed_range mobile) as Ha.
    set (q := 1 - animationSpeed mobile) in *.
    assert (HQ : 0 <= q ^ n) by (apply pow_le; subst q; lra).
    rewrite <- !tech_pow_Rmult.
    split; [rewrite Hx, Hx1; ring|]. split; [rewrite Hz, Hz1; ring|].
    split.
    + intros Hp. rewrite Hy by congruence. rewrite (Hy1 Hp). ring.
    + subst q. apply (geometric_step _ _ _ _ _ (Rabs (vy (offset p1))));
        [lra | exact HQ | exact Hbound |].
      pose proof (Rabs_triang_inv (vy (offset p1))
                    ((1 - animationSpeed mobile) * vy (offset p))) as Htri.
      rewrite Rabs_mult, (Rabs_pos_eq (1 - animationSpeed mobile)) in Htri
        by lra.
      lra.
Qed.

Lemma animateFrames_spec level id times :
  forall s : App,
    wf s ->
    wp (animateFrames level times id)
       (fun _ s' =>
          wf s' /\ shapeEq s s' /\
          (forall r, r ∉ particles s -> heap s' !! r = heap s !! r) /\
          forall k x p, particles s !! k = Some x -> heap s !! x = Some p ->
            exists p', heap s' !! x = Some p' /\
              settled level (isMobile (deviceInfo s)) (length times) k p p') s.
Proof.
  induction times as [|time times IH]; intros s Hwf.
  - cbn [animateFrames]. wp_step. split; [done|].
    split; [apply shapeEq_refl|]. split; [done|].
    intros k x p _ Hp. exists p. split; [done|]. apply settled_zero.
  - cbn [animateFrames length]. wp_step.
    generalize (animate_pass level time id s Hwf). apply wp_mono.
    intros _ s1 Hpost.
    pose proof (animatePost_wf _ _ _ _ _ Hwf Hpost) as Hwf1.
    destruct Hpost as (Hsh1 & Hout1 & Hin1).
    generalize (IH s1 Hwf1). apply wp_mono.
    intros _ s' (Hwf' & Hsh' & Hout' & Hin').
    split; [done|]. split; [by eapply shapeEq_trans|].
    pose proof Hsh1 as (Hd1 & _ & Hps1 & _).
    split.
    + intros r Hr. rewrite Hout' by (by rewrite Hps1). by apply Hout1.
    + intros k x p Hk Hp.
      destruct (Hin1 k x Hk) as (p0 & p1 & Hp0 & Hp1 & Hrel).
      rewrite Hp in Hp0. injection Hp0 as <-.
      rewrite <- Hps1 in Hk.
      destruct (Hin' k x p1 Hk Hp1) as (p' & Hp' & Hsettled).
      exists p'. split; [done|]. rewrite Hd1 in Hsettled.
      eapply settled_step; eassumption.
Qed.

(** X28. The particle loop of [animate] pulls every particle it visits
    towards its layout target and leaves the layout alone.  After [n]
    frames on a well-formed scene, with no layout pass in between, the
    scene is well formed, targets and scales are as before, and of every
    particle not skipped the horizontal offset from its target is
    [(1 - speed) ^ n] times the initial one; so is the vertical offset of a
    photo, and that of a decorative particle up to its floating, which
    never exceeds [0.005 / speed].  On the low tier the particles at the
    indices divisible by three are skipped and stay as they are. *)
Theorem animation_converges (level : Device.PerformanceLevel)
    (id : Ref -> R) (times : list R) (s : App) :
  wf s ->
  wp (animateFrames level times id)
     (fun _ s' =>
        wf s' /\ shapeEq s s' /\
        forall k x p, particles s !! k = Some x -> heap s !! x = Some p ->
          exists p', heap s' !! x = Some p' /\
            let speed := animationSpeed (isMobile (deviceInfo s)) in
            let n := length times in
            targetPosition p' = targetPosition p /\ scale p' = scale p /\
            (level = Device.low -> (k mod 3 = 0)%nat -> p' = p) /\
            (~ (level = Device.low /\ (k mod 3 = 0)%nat) ->
             vx (offset p') = (1 - speed) ^ n * vx (offset p) /\
             vz (offset p') = (1 - speed) ^ n * vz (offset p) /\
             (isPhoto p = true ->
              vy (offset p') = (1 - speed) ^ n * vy (offset p)) /\
             Rabs (vy (offset p'))
             <= (1 - speed) ^ n * Rabs (vy (offset p)) + 0.005 / speed)) s.
Proof.
  intros Hwf. generalize (animateFrames_spec level id times s Hwf).
  apply wp_mono. intros _ s' (Hwf' & Hsh & _ & Hin).
  split; [done|]. split; [done|].
  intros k x p Hk Hp. destruct (Hin k x p Hk Hp) as (p' & Hp' & Hsettled).
  exists p'. split; [done|]. cbn zeta.
  destruct Hsettled as (Ht & Hs & _ & _ & _ & Hskip & Hmove).
  split; [done|]. split; [done|]. split.
  - intros Hl Hk3. apply Hskip. by split.
  - intros Hk3. destruct (Hmove Hk3) as (Hx & Hz & Hy & Hbound).
    split; [done|]. split; [done|]. split; [done|].
    pose proof (animationSpeed_range (isMobile (deviceInfo s))) as Ha.
    set (a := animationSpeed (isMobile (deviceInfo s))) in *.
    assert (HQ : 0 <= (1 - a) ^ length times) by (apply pow_le; lra).
    eapply Rle_trans; [exact Hbound|].
    apply Rplus_le_compat_l. unfold Rdiv.
    apply Rmult_le_compat_r; [apply Rlt_le, Rinv_0_lt_compat; lra|].
    nra.
Qed.

Lemma animation_converges_witness :
  wf (sampleApp FOCUS) /\
  wp (animateFrames Device.high [0; 1; 2] (fun _ => 0))
     (fun _ s' => wf s' /\ shapeEq (sampleApp FOCUS) s')
     (sampleApp FOCUS).
Proof.
  split; [apply LayoutThm.sampleApp_wf|].
  generalize (animation_converges Device.high (fun _ => 0) [0; 1; 2]
                (sampleApp FOCUS) (LayoutThm.sampleApp_wf FOCUS)).
  apply wp_mono. intros _ s' (Hwf' & Hsh & _). by split.
Defined.

Lemma createParticles_radius cfg candy s :
  mode s = TREE -> particles s = [] -> photos s = [] ->
  wp (Scene.createParticles cfg candy)
     (fun _ s' =>
        forall i x p, particles s' !! i = Some x -> heap s' !! x = Some p ->
          isPhoto p = false ->
          hlength (targetPosition p)
          = treeRadius (treeMaxRadius (isMobile (deviceInfo s'))) i
              (length (particles s'))) s.
Proof.
  intros Hmode Hps Hphs. unfold Scene.createParticles, forEach. wp_step.
  assert (H0 : SceneSpec.creating cfg candy s [] s).
  { split; [by apply LayoutThm.wf_empty|]. repeat (split; [done|]).
    rewrite Hps. split; [done|]. intros x Hx. by apply elem_of_nil in Hx. }
  generalize (forEachFrom_inv (fun i _ => Scene.createParticle cfg candy i)
                (SceneSpec.creating cfg candy s)
                (seq 0 (Device.particleCount cfg)) 0 [] s H0
                (fun pre x _ s1 _ =>
                   SceneThm.createParticle_creating cfg candy s pre x s1)).
  apply wp_mono. intros _ s1 (Hwf & _ & _ & _ & Hm & _).
  apply LayoutThm.tree_pass_radius; [congruence | done].
Qed.

(** X29. On the low tier a third of the scene never moves.  When
    [createParticles()] has built the scene in TREE mode, the loop of
    [animate] skips the particles at the indices divisible by three:
    after any number of frames each of them is still shown at the origin,
    where it was created, while its target lies on the cone, at least a
    fifth of the maximal radius from the axis. *)
Theorem low_tier_third_frozen (cfg : Device.PerformanceSettings)
    (candyCaneTexture : nat) (id : Ref -> R) (times : list R) (s : App) :
  Device.settingsPerformanceLevel cfg = Device.low ->
  mode s = TREE -> particles s = [] -> photos s = [] ->
  wp (Scene.createParticles cfg candyCaneTexture ;;
      animateFrames (Device.settingsPerformanceLevel cfg) times id)
     (fun _ s' =>
        forall k x, particles s' !! k = Some x -> (k mod 3 = 0)%nat ->
          exists p, heap s' !! x = Some p /\ isPhoto p = false /\
            meshPosition (mesh p) = Photos.zeroVector /\
            0.2 * treeMaxRadius (isMobile (deviceInfo s'))
            <= hlength (targetPosition p)) s.
Proof.
  intros Hlow Hmode Hps Hphs. wp_step.
  generalize (wp_conj _ _ _ s
                (SceneThm.createParticles_spec cfg candyCaneTexture s Hps Hphs)
                (createParticles_radius cfg candyCaneTexture s Hmode Hps Hphs)).
  apply wp_mono.
  intros _ s1 ((Hwf1 & _ & Hd1 & _ & _ & _ & _ & Hdec) & Hradius).
  generalize (animateFrames_spec (Device.settingsPerformanceLevel cfg) id
                times s1 Hwf1).
  apply wp_mono. intros _ s' (_ & Hsh & _ & Hin) k x Hk Hk3.
  destruct Hsh as (Hd' & _ & Hps' & _). rewrite Hps' in Hk. rewrite Hd'.
  assert (Hx : x ∈ particles s1)
    by (eapply list_elem_of_lookup_2; eassumption).
  destruct (Hdec x Hx) as (p & Hp & Hphoto & Hpos & _).
  destruct (Hin k x p Hk Hp) as (p' & Hp' & _ & _ & _ & _ & _ & Hskip & _).
  rewrite (Hskip ltac:(by split)) in Hp'.
  exists p. split; [done|]. split; [done|]. split; [done|].
  rewrite (Hradius k x p Hk Hp Hphoto).
  apply lookup_lt_Some in Hk.
  pose proof (LayoutThm.treeMaxRadius_pos (isMobile (deviceInfo s1))) as HR.
  apply LayoutThm.treeRadius_range; [lra | done].
Qed.

Lemma low_tier_third_frozen_witness :
  let cfg := Device.getPerformanceSettings Device.low true 2 in
  let s := SceneSpec.newApp true 5 (fun _ => half) in
  wp (Scene.createParticles cfg 0 ;;
      animateFrames (Device.settingsPerformanceLevel cfg) [0; 1] (fun _ => 0))
     (fun _ s' =>
        forall k x, particles s' !! k = Some x -> (k mod 3 = 0)%nat ->
          exists p, heap s' !! x = Some p /\
            meshPosition (mesh p) = Photos.zeroVector) s.
Proof.
  cbn zeta.
  generalize (low_tier_third_frozen
                (Device.getPerformanceSettings Device.low true 2) 0
                (fun _ => 0) [0; 1] (SceneSpec.newApp true 5 (fun _ => half))
                eq_refl eq_refl eq_refl eq_refl).
  apply wp_mono. intros _ s' H k x Hk Hk3.
  destruct (H k x Hk Hk3) as (p & Hp & _ & Hpos & _). by exists p.
Defined.

End AnimateThm.
